(** * The gateway transcript-to-chat bridge

    A shallow embedding of [src/gateway/server-transcript-events.ts]:
    the header reader, the TTL caches, the session key resolver, the
    [handleUpdate] orchestrator and the notification callback installed by
    [attachGatewayTranscriptChatBridge], followed by the properties
    established about them.

    Conventions of the embedding:
    - a JavaScript string is the list of its UTF-16 code units ([list N]);
    - [string | null] is [option], and JavaScript truthiness of such a value
      is [truthy] (neither [null] nor the empty string);
    - a [Map<string, CacheEntry>] is a [gmap] keyed by strings;
    - the code runs in a state-and-exception monad over [World]: the three
      caches of the bridge instance, the number of [Date.now()] and
      [randomUUID()] calls made so far (the n-th call returns [clock n],
      resp. [uuid n]) and the trace of observable calls;
    - [JSON.parse] and UTF-8 decoding are builtins of the runtime and are
      taken as parameters; the file system, the session store snapshot and
      the behaviour of the broadcast sink and of the logger, both supplied
      by the caller, form the environment [Env] of one notification. *)

From Stdlib Require Import ZArith NArith Lia Ascii String.
From stdpp Require Import base gmap list strings.

Local Open Scope Z_scope.
Local Set Warnings "-register-all".

(** ** JavaScript strings *)

Abbreviation jsstring := (list N).

(** A source literal, code unit by code unit. *)
Definition lit (s : string) : jsstring :=
  N_of_ascii <$> String.list_ascii_of_string s.

(** ECMAScript [WhiteSpace] and [LineTerminator] code points, the set
    stripped by [String.prototype.trim]. *)
Definition is_whitespace (c : N) : bool :=
  ((c =? 0x9) || (c =? 0xA) || (c =? 0xB) || (c =? 0xC) || (c =? 0xD)
   || (c =? 0x20) || (c =? 0xA0) || (c =? 0x1680)
   || ((0x2000 <=? c) && (c <=? 0x200A))
   || (c =? 0x2028) || (c =? 0x2029) || (c =? 0x202F) || (c =? 0x205F)
   || (c =? 0x3000) || (c =? 0xFEFF))%N.

Fixpoint trimStart (s : jsstring) : jsstring :=
  match s with
  | [] => []
  | c :: rest => if is_whitespace c then trimStart rest else s
  end.

Definition trimEnd (s : jsstring) : jsstring := rev (trimStart (rev s)).

Definition trim (s : jsstring) : jsstring := trimEnd (trimStart s).

(** [!s] of a string. *)
Definition is_blank (s : jsstring) : bool :=
  match s with [] => true | _ => false end.

(** Truthiness of a [string | null]. *)
Definition truthy (v : option jsstring) : bool :=
  match v with
  | Some (_ :: _) => true
  | _ => false
  end.

(** [chunk.split(/\r?\n/)]: a line ends at a line feed, and a carriage
    return directly before that line feed belongs to the separator. *)
Fixpoint split_lines (s : jsstring) : list jsstring :=
  match s with
  | [] => [[]]
  | c :: rest =>
      if (c =? 0xA)%N then [] :: split_lines rest
      else match rest with
           | c' :: rest' =>
               if ((c =? 0xD) && (c' =? 0xA))%N then [] :: split_lines rest'
               else match split_lines rest with
                    | l :: ls => (c :: l) :: ls
                    | [] => [[c]]
                    end
           | [] => [[c]]
           end
  end.

(** ** JSON values *)

(** The values [JSON.parse] can produce.  A number is kept as the bit
    pattern of its double; no code here inspects it. *)
Inductive JsValue :=
| JNull
| JBool (b : bool)
| JNumber (bits : Z)
| JString (s : jsstring)
| JArray (items : list JsValue)
| JObject (fields : list (jsstring * JsValue)).

Fixpoint assoc (name : jsstring) (fields : list (jsstring * JsValue))
  : option JsValue :=
  match fields with
  | [] => None
  | (k, v) :: rest => if decide (k = name) then Some v else assoc name rest
  end.

(** [v?.name] for a property name that no prototype defines ([type], [id],
    [sessionId]): the own property of an object, [undefined] ([None])
    on anything else, [null] included. *)
Definition get_prop (v : JsValue) (name : jsstring) : option JsValue :=
  match v with
  | JObject fields => assoc name fields
  | _ => None
  end.

(** [v === s] for a string literal [s]. *)
Definition is_string (v : option JsValue) (s : jsstring) : bool :=
  match v with
  | Some (JString s') => bool_decide (s' = s)
  | _ => false
  end.

(** [typeof v === "string" ? v.trim() : ""]. *)
Definition trimmed_string_or_empty (v : option JsValue) : jsstring :=
  match v with
  | Some (JString s) => trim s
  | _ => []
  end.

(** ** Constants *)

Definition HEADER_READ_BYTES : nat := 8 * 1024.
Definition CACHE_TTL_MS : Z := 10 * 60000.

(** ** Outcomes *)

(** What a call ends in: a value, or an exception. *)
Inductive Res (A : Type) :=
| Ret (a : A)
| Throw.
Arguments Ret {A} a.
Arguments Throw {A}.

(** ** The file system seen by the header reader *)

Inductive FileState :=
| OpenFails                       (* fs.openSync throws *)
| ReadFails                       (* fs.readSync throws *)
| Readable (bytes : list Byte.byte)  (* the content of the file *)
| CloseFails (read : option (list Byte.byte)).
    (* the file opens, fs.readSync throws ([None]) or gives the content,
       and fs.closeSync throws *)

Section HeaderReader.

(** [JSON.parse]: [None] when it throws. *)
Variable JSON_parse : jsstring -> option JsValue.
(** [buffer.toString("utf-8", 0, n)]. *)
Variable utf8_decode : list Byte.byte -> jsstring.

(** The loop over the lines of the prefix. *)
Fixpoint scan_lines (lines : list jsstring) : option jsstring :=
  match lines with
  | [] => None
  | line :: rest =>
      let trimmed := trim line in
      if is_blank trimmed then scan_lines rest
      else
        match JSON_parse trimmed with
        | None => None
        | Some parsed =>
            if negb (is_string (get_prop parsed (lit "type")) (lit "session"))
            then scan_lines rest
            else
              let id := trimmed_string_or_empty (get_prop parsed (lit "id")) in
              if is_blank id then scan_lines rest else Some id
        end
  end.

(** What the [try] block returns once the file is open and read:
    [readSync] of a regular file at position 0 fills the buffer with the
    first [HEADER_READ_BYTES] bytes of the file, or all of it when it is
    shorter. *)
Definition header_answer (bytes : list Byte.byte) : option jsstring :=
  let buffer := take HEADER_READ_BYTES bytes in
  let bytesRead := length buffer in
  if (bytesRead <=? 0)%nat then None
  else scan_lines (split_lines (utf8_decode buffer)).

(** The two [catch] blocks turn a failure to open, read or parse into
    [null].  The [finally] block closes the descriptor if there is one, and
    is inside no [catch]: when [closeSync] throws, its exception replaces
    the pending [return], whatever was read. *)
Definition readSessionIdFromTranscript
    (fs : jsstring -> FileState) (sessionFile : jsstring)
  : Res (option jsstring) :=
  match fs sessionFile with
  | OpenFails => Ret None
  | ReadFails => Ret None
  | Readable bytes => Ret (header_answer bytes)
  | CloseFails _ => Throw
  end.

End HeaderReader.

(** ** Caches, events and the world *)

Record CacheEntry := { value : jsstring; ts : Z }.

Abbreviation Cache := (gmap jsstring CacheEntry).

(** The calls a test double would count or record: invocations of the
    header reader and of the session key resolver, [params.broadcast] with
    its three arguments, and [log.warn] with its message. *)
Inductive Event :=
| EvReadHeader (sessionFile : jsstring)
| EvResolve (sessionId : jsstring)
| EvBroadcast (event : jsstring) (payload : JsValue) (opts : JsValue)
| EvWarn (msg : jsstring).

Record World := {
  sessionKeyByFile : Cache;
  sessionIdByFile : Cache;
  sessionKeyById : Cache;
  ticks : nat;        (* Date.now() calls made so far *)
  drawn : nat;        (* randomUUID() calls made so far *)
  trace : list Event  (* oldest first *)
}.

Inductive CacheName := KeyByFile | IdByFile | KeyById.

Definition cache_of (c : CacheName) (w : World) : Cache :=
  match c with
  | KeyByFile => sessionKeyByFile w
  | IdByFile => sessionIdByFile w
  | KeyById => sessionKeyById w
  end.

Definition with_cache (c : CacheName) (m : Cache) (w : World) : World :=
  match c with
  | KeyByFile =>
      {| sessionKeyByFile := m; sessionIdByFile := sessionIdByFile w;
         sessionKeyById := sessionKeyById w;
         ticks := ticks w; drawn := drawn w; trace := trace w |}
  | IdByFile =>
      {| sessionKeyByFile := sessionKeyByFile w; sessionIdByFile := m;
         sessionKeyById := sessionKeyById w;
         ticks := ticks w; drawn := drawn w; trace := trace w |}
  | KeyById =>
      {| sessionKeyByFile := sessionKeyByFile w;
         sessionIdByFile := sessionIdByFile w; sessionKeyById := m;
         ticks := ticks w; drawn := drawn w; trace := trace w |}
  end.

Definition with_ticks (n : nat) (w : World) : World :=
  {| sessionKeyByFile := sessionKeyByFile w;
     sessionIdByFile := sessionIdByFile w;
     sessionKeyById := sessionKeyById w;
     ticks := n; drawn := drawn w; trace := trace w |}.

Definition with_drawn (n : nat) (w : World) : World :=
  {| sessionKeyByFile := sessionKeyByFile w;
     sessionIdByFile := sessionIdByFile w;
     sessionKeyById := sessionKeyById w;
     ticks := ticks w; drawn := n; trace := trace w |}.

Definition log_event (e : Event) (w : World) : World :=
  {| sessionKeyByFile := sessionKeyByFile w;
     sessionIdByFile := sessionIdByFile w;
     sessionKeyById := sessionKeyById w;
     ticks := ticks w; drawn := drawn w; trace := trace w ++ [e] |}.

(** The world in which [attachGatewayTranscriptChatBridge] has just created
    its three maps. *)
Definition attached : World :=
  {| sessionKeyByFile := ∅; sessionIdByFile := ∅; sessionKeyById := ∅;
     ticks := 0; drawn := 0; trace := [] |}.

(** ** The monad: state plus exceptions *)

Definition M (A : Type) : Type := World -> Res A * World.

Definition ret {A} (a : A) : M A := fun w => (Ret a, w).

Definition bind {A B} (m : M A) (k : A -> M B) : M B :=
  fun w =>
    match m w with
    | (Ret a, w') => k a w'
    | (Throw, w') => (Throw, w')
    end.

(** [try { m } catch { handler }] *)
Definition try_catch {A} (m : M A) (handler : M A) : M A :=
  fun w =>
    match m w with
    | (Ret a, w') => (Ret a, w')
    | (Throw, w') => handler w'
    end.

Declare Scope js_scope.
Delimit Scope js_scope with js.
Notation "x <- m ;; k" := (bind m (fun x => k))
  (at level 100, m at next level, right associativity) : js_scope.
Notation "m ;; k" := (bind m (fun _ => k))
  (at level 100, right associativity) : js_scope.
Local Open Scope js_scope.

(** The environment of one notification. *)
Record Env := {
  (** what [openSync] and [readSync] find at a path *)
  files : jsstring -> FileState;
  (** [Object.entries] of the store returned by
      [loadCombinedSessionStoreForGateway(loadConfig())], in iteration
      order; [None] when loading throws *)
  store : option (list (jsstring * JsValue));
  (** whether [params.broadcast] returns normally *)
  sink_ok : bool;
  (** whether [params.log.warn], when there is a logger, returns normally
      for a message *)
  warn_ok : jsstring -> bool
}.

(** The notification object handed to the callback. *)
Record SessionTranscriptUpdate := { update_sessionFile : option jsstring }.

(** The scan of [resolveSessionKeyForSessionId] over the store entries. *)
Fixpoint scan_store (entries : list (jsstring * JsValue)) (sessionId : jsstring)
  : option jsstring :=
  match entries with
  | [] => None
  | (key, entry) :: rest =>
      let entrySessionId :=
        trimmed_string_or_empty (get_prop entry (lit "sessionId")) in
      if negb (is_blank entrySessionId) && bool_decide (entrySessionId = sessionId)
      then Some key
      else scan_store rest sessionId
  end.

(** The broadcast payload and options, as the object literals of the source. *)
Definition chat_payload (runId sessionKey : jsstring) : JsValue :=
  JObject [(lit "runId", JString runId);
           (lit "sessionKey", JString sessionKey);
           (lit "state", JString (lit "final"))].

Definition drop_if_slow : JsValue := JObject [(lit "dropIfSlow", JBool true)].

(** ** The bridge *)

Section Bridge.

Variable JSON_parse : jsstring -> option JsValue.
Variable utf8_decode : list Byte.byte -> jsstring.
(** [clock n] is what the n-th call of [Date.now()] returns. *)
Variable clock : nat -> Z.
(** [uuid n] is what the n-th call of [randomUUID()] returns. *)
Variable uuid : nat -> jsstring.
(** Whether [params.log] was supplied. *)
Variable has_log : bool.

Definition Date_now : M Z :=
  fun w => (Ret (clock (ticks w)), with_ticks (S (ticks w)) w).

Definition randomUUID : M jsstring :=
  fun w => (Ret (uuid (drawn w)), with_drawn (S (drawn w)) w).

Definition map_get (c : CacheName) (key : jsstring) : M (option CacheEntry) :=
  fun w => (Ret (cache_of c w !! key), w).

Definition map_delete (c : CacheName) (key : jsstring) : M unit :=
  fun w => (Ret tt, with_cache c (delete key (cache_of c w)) w).

Definition map_set (c : CacheName) (key : jsstring) (e : CacheEntry) : M unit :=
  fun w => (Ret tt, with_cache c (<[key := e]> (cache_of c w)) w).

Definition getCached (map : CacheName) (key : jsstring) : M (option jsstring) :=
  entry <- map_get map key ;;
  match entry with
  | None => ret None
  | Some entry =>
      now <- Date_now ;;
      if now - ts entry >? CACHE_TTL_MS
      then (map_delete map key ;; ret None)
      else ret (Some (value entry))
  end.

Definition setCached (map : CacheName) (key value : jsstring) : M unit :=
  now <- Date_now ;;
  map_set map key {| value := value; ts := now |}.

Section Notification.

Variable env : Env.

(** [params.log?.warn(msg)]: nothing happens without a logger; with one
    the call is recorded, and the logger, which the caller supplied, may
    throw. *)
Definition warn (msg : jsstring) : M unit :=
  fun w =>
    if has_log
    then (if warn_ok env msg then Ret tt else Throw, log_event (EvWarn msg) w)
    else (Ret tt, w).

(** The call of the header reader, recorded in the trace; the reader
    throws when it cannot close the file. *)
Definition call_readSessionIdFromTranscript (sessionFile : jsstring)
  : M (option jsstring) :=
  fun w =>
    (readSessionIdFromTranscript JSON_parse utf8_decode (files env) sessionFile,
     log_event (EvReadHeader sessionFile) w).

(** The call is recorded in the trace; loading the store may throw. *)
Definition resolveSessionKeyForSessionId (sessionId : jsstring)
  : M (option jsstring) :=
  fun w =>
    let w' := log_event (EvResolve sessionId) w in
    match store env with
    | None => (Throw, w')
    | Some entries => (Ret (scan_store entries sessionId), w')
    end.

Definition broadcast (event : jsstring) (payload opts : JsValue) : M unit :=
  fun w =>
    (if sink_ok env then Ret tt else Throw,
     log_event (EvBroadcast event payload opts) w).

(** A [None] handed on by one of the two resolution steps stands for
    the [return] that ends the handler there. *)
Definition handleUpdate (sessionFile : jsstring) : M unit :=
  cachedKey <- getCached KeyByFile sessionFile ;;
  match cachedKey with
  | Some ((_ :: _) as cachedKey) =>
      u <- randomUUID ;;
      broadcast (lit "chat")
        (chat_payload (lit "transcript-" ++ u) cachedKey)
        drop_if_slow
  | _ =>
      cachedId <- getCached IdByFile sessionFile ;;
      sessionId <-
        match cachedId with
        | Some (_ :: _) => ret cachedId
        | _ =>
            read <- call_readSessionIdFromTranscript sessionFile ;;
            match read with
            | Some ((_ :: _) as sessionId) =>
                setCached IdByFile sessionFile sessionId ;;
                ret (Some sessionId)
            | _ => ret None
            end
        end ;;
      match sessionId with
      | Some ((_ :: _) as sessionId) =>
          cachedById <- getCached KeyById sessionId ;;
          sessionKey <-
            match cachedById with
            | Some (_ :: _) => ret cachedById
            | _ =>
                resolved <- resolveSessionKeyForSessionId sessionId ;;
                match resolved with
                | Some ((_ :: _) as sessionKey) =>
                    setCached KeyById sessionId sessionKey ;;
                    ret (Some sessionKey)
                | _ =>
                    warn (lit "transcript update ignored; session key not found ("
                            ++ sessionId ++ lit ")") ;;
                    ret None
                end
            end ;;
          match sessionKey with
          | Some ((_ :: _) as sessionKey) =>
              setCached KeyByFile sessionFile sessionKey ;;
              u <- randomUUID ;;
              broadcast (lit "chat")
                (chat_payload
                   (lit "transcript-" ++ sessionId ++ lit "-" ++ u)
                   sessionKey)
                drop_if_slow
          | _ => ret tt
          end
      | _ => ret tt
      end
  end.

(** The callback registered with [onSessionTranscriptUpdate]. *)
Definition onUpdate (update : SessionTranscriptUpdate) : M unit :=
  match trim <$> update_sessionFile update with
  | Some ((_ :: _) as sessionFile) =>
      try_catch (handleUpdate sessionFile)
        (warn (lit "failed to handle transcript update ("
                 ++ sessionFile ++ lit ")"))
  | _ => ret tt
  end.

End Notification.

(** The watcher delivers notifications one after the other, each in the
    environment of its moment. *)
Fixpoint deliver (ns : list (Env * SessionTranscriptUpdate)) (w : World)
  : World :=
  match ns with
  | [] => w
  | (env, update) :: rest => deliver rest (onUpdate env update w).2
  end.

End Bridge.

(** ** What the header reader is specified to do

    The contract of the reader, stated on the text of the inspected prefix
    without the splitting and trimming functions of the reader itself. *)

(** The code points of ECMAScript's WhiteSpace and LineTerminator. *)
Definition white_space : list N :=
  [0x9; 0xA; 0xB; 0xC; 0xD; 0x20; 0xA0; 0x1680;
   0x2000; 0x2001; 0x2002; 0x2003; 0x2004; 0x2005; 0x2006; 0x2007; 0x2008;
   0x2009; 0x200A; 0x2028; 0x2029; 0x202F; 0x205F; 0x3000; 0xFEFF]%N.

(** Nothing but white space. *)
Definition blank (s : jsstring) : Prop := Forall (fun c => c ∈ white_space) s.

(** [t] is [s] without the white space at its two ends. *)
Definition stripped (s t : jsstring) : Prop :=
  exists before after,
    s = before ++ t ++ after /\ blank before /\ blank after /\
    (forall c t', t = c :: t' -> c ∉ white_space) /\
    (forall t' c, t = t' ++ [c] -> c ∉ white_space).

(** The lines of a text: a line holds no line feed; it ends at the next
    line feed, and a carriage return directly before that line feed is
    part of the line ending, not of the line. *)
Inductive lines_of : jsstring -> list jsstring -> Prop :=
| lines_last line :
    0xA%N ∉ line -> lines_of line [line]
| lines_lf line rest lines :
    0xA%N ∉ line -> (forall l, line <> l ++ [0xD%N]) ->
    lines_of rest lines ->
    lines_of (line ++ 0xA%N :: rest) (line :: lines)
| lines_crlf line rest lines :
    0xA%N ∉ line ->
    lines_of rest lines ->
    lines_of (line ++ 0xD%N :: 0xA%N :: rest) (line :: lines).

Section HeaderReaderSpec.

Variable JSON_parse : jsstring -> option JsValue.
Variable utf8_decode : list Byte.byte -> jsstring.

(** A record of kind "session" carrying the non-blank identifier [id]
    (after trimming). *)
Definition session_record (parsed : JsValue) (id : jsstring) : Prop :=
  get_prop parsed (lit "type") = Some (JString (lit "session")) /\
  exists s, get_prop parsed (lit "id") = Some (JString s) /\
            stripped s id /\ id <> [].

Definition qualifies (line id : jsstring) : Prop :=
  exists text, stripped line text /\ text <> [] /\
  exists parsed, JSON_parse text = Some parsed /\
                 session_record parsed id.

Definition malformed (line : jsstring) : Prop :=
  exists text, stripped line text /\ text <> [] /\ JSON_parse text = None.

(** Blank, or a well-formed record that does not qualify. *)
Definition passed_over (line : jsstring) : Prop :=
  blank line \/
  exists text parsed, stripped line text /\ JSON_parse text = Some parsed /\
                      forall id, ~ session_record parsed id.

(** What is read of a file: nothing when it cannot be opened or read,
    else its first [HEADER_READ_BYTES] bytes. *)
Definition prefix_read (state : FileState) : option (list Byte.byte) :=
  match state with
  | OpenFails | ReadFails | CloseFails None => None
  | Readable bytes | CloseFails (Some bytes) =>
      Some (take HEADER_READ_BYTES bytes)
  end.

(** The answer the contract prescribes for what was read. *)
Inductive HeaderRead : option (list Byte.byte) -> option jsstring -> Prop :=
| HR_unreadable :
    HeaderRead None None
| HR_zero_bytes :
    HeaderRead (Some []) None
| HR_found prefix before line after id :
    prefix <> [] ->
    lines_of (utf8_decode prefix) (before ++ line :: after) ->
    Forall passed_over before ->
    qualifies line id ->
    HeaderRead (Some prefix) (Some id)
| HR_malformed prefix before line after :
    prefix <> [] ->
    lines_of (utf8_decode prefix) (before ++ line :: after) ->
    Forall passed_over before ->
    malformed line ->
    HeaderRead (Some prefix) None
| HR_no_record prefix lines :
    prefix <> [] ->
    lines_of (utf8_decode prefix) lines ->
    Forall passed_over lines ->
    HeaderRead (Some prefix) None.

(** Whether [closeSync] is reached and throws. *)
Definition close_throws (state : FileState) : bool :=
  match state with CloseFails _ => true | _ => false end.

End HeaderReaderSpec.

(** ** What the session key resolver is specified to do *)

(** The entry's identifier is a string whose trimmed form is non-empty and
    equals the query as it was passed. *)
Definition entry_matches (entry : JsValue) (sessionId : jsstring) : Prop :=
  exists s, get_prop entry (lit "sessionId") = Some (JString s) /\
            trim s <> [] /\ trim s = sessionId.

Inductive Resolved (entries : list (jsstring * JsValue)) (sessionId : jsstring)
  : option jsstring -> Prop :=
| Resolved_first before key entry after :
    entries = before ++ (key, entry) :: after ->
    Forall (fun ke => ~ entry_matches ke.2 sessionId) before ->
    entry_matches entry sessionId ->
    Resolved entries sessionId (Some key)
| Resolved_none :
    Forall (fun ke => ~ entry_matches ke.2 sessionId) entries ->
    Resolved entries sessionId None.

(** ** A concrete world for the examples *)

Module Demo.

Definition clock (n : nat) : Z := 1000 + Z.of_nat n.

(** A clock that jumps by exactly the TTL after its first reading. *)
Definition jumping_clock (n : nat) : Z :=
  match n with O => 0 | _ => 600000 end.

Definition uuid (n : nat) : jsstring :=
  lit "00000000-0000-4000-8000-00000000000" ++ [(48 + N.of_nat n)%N].

Definition quoted (s : jsstring) : jsstring := [34%N] ++ s ++ [34%N].

(** The text of a session record with identifier [id]. *)
Definition session_line (id : jsstring) : jsstring :=
  lit "{" ++ quoted (lit "type") ++ lit ":" ++ quoted (lit "session")
    ++ lit "," ++ quoted (lit "id") ++ lit ":" ++ quoted id ++ lit "}".

Definition session_value (id : jsstring) : JsValue :=
  JObject [(lit "type", JString (lit "session")); (lit "id", JString id)].

(** [JSON.parse] on the two texts the examples use; it throws on any
    other text. *)
Definition parse (s : jsstring) : option JsValue :=
  if decide (s = session_line (lit "sess-42"))
  then Some (session_value (lit "sess-42"))
  else if decide (s = session_line (lit "sess-99"))
  then Some (session_value (lit "sess-99"))
  else None.

(** Decoding of ASCII bytes. *)
Definition decode (bs : list Byte.byte) : jsstring := Byte.to_N <$> bs.

Definition encode (s : jsstring) : list Byte.byte :=
  (fun c => default Byte.x00 (Byte.of_N c)) <$> s.

Definition a_log : jsstring := lit "a.log".
Definition b_log : jsstring := lit "b.log".

(** [a.log] starts with the record of [sess-42], [b.log] with that of
    [sess-99]; no other file can be opened. *)
Definition fs (path : jsstring) : FileState :=
  if decide (path = a_log)
  then Readable (encode (session_line (lit "sess-42") ++ [10%N]))
  else if decide (path = b_log)
  then Readable (encode (session_line (lit "sess-99") ++ [10%N]))
  else OpenFails.

(** [a.log] with the same content, on a file system where closing a
    descriptor fails. *)
Definition stuck_fs (path : jsstring) : FileState :=
  if decide (path = a_log)
  then CloseFails (Some (encode (session_line (lit "sess-42") ++ [10%N])))
  else OpenFails.

Definition entries : list (jsstring * JsValue) :=
  [(lit "key-alpha", JObject [(lit "sessionId", JString (lit "sess-42"))])].

Definition env : Env :=
  {| files := fs; store := Some entries; sink_ok := true;
     warn_ok := fun _ => true |}.

(** The same environment with a logger that throws on every message. *)
Definition failing_logger_env : Env :=
  {| files := fs; store := Some entries; sink_ok := true;
     warn_ok := fun _ => false |}.

Definition notify (path : jsstring) : Env * SessionTranscriptUpdate :=
  (env, {| update_sessionFile := Some path |}).

End Demo.

(** ** Reading traces *)

(** What a computation that led from [w] to [w'] appended to the trace. *)
Definition new_events (w w' : World) : list Event :=
  drop (length (trace w)) (trace w').

Definition string_field (v : JsValue) (name : jsstring) : option jsstring :=
  match get_prop v name with
  | Some (JString s) => Some s
  | _ => None
  end.

(** The call [params.broadcast("chat", { runId, sessionKey, state: "final" },
    { dropIfSlow: true })]. *)
Definition broadcast_event (runId sessionKey : jsstring) : Event :=
  EvBroadcast (lit "chat") (chat_payload runId sessionKey) drop_if_slow.

Definition is_broadcast (e : Event) : bool :=
  match e with EvBroadcast _ _ _ => true | _ => false end.

Definition is_lookup (e : Event) : bool :=
  match e with EvReadHeader _ | EvResolve _ => true | _ => false end.

(** The warnings among the events, in order. *)
Definition warnings (evs : list Event) : list jsstring :=
  omap (fun e => match e with EvWarn msg => Some msg | _ => None end) evs.

(** The [runId] of each broadcast payload among the events, in order. *)
Definition runIds (evs : list Event) : list jsstring :=
  omap (fun e => match e with
                 | EvBroadcast _ payload _ => string_field payload (lit "runId")
                 | _ => None
                 end) evs.

(** The [sessionKey] of each broadcast payload among the events, in order. *)
Definition sessionKeys (evs : list Event) : list jsstring :=
  omap (fun e => match e with
                 | EvBroadcast _ payload _ => string_field payload (lit "sessionKey")
                 | _ => None
                 end) evs.

(** ** The state machine of one notification

    The paths through [handleUpdate], as the design describes them: a fast
    path, an identifier step that answers from the file-to-identifier cache
    or from the header reader, and a key step that answers from the
    identifier-to-key cache or from the resolver. *)

(** The header reader returned, and what it returned is no identifier. *)
Definition reports_not_found (h : Res (option jsstring)) : Prop :=
  exists read, h = Ret read /\ truthy read = false.

(** The header reader gave no identifier: it reported not-found, or threw. *)
Definition gives_no_identifier (h : Res (option jsstring)) : Prop :=
  reports_not_found h \/ h = Throw.

(** How [handleUpdate] ends when the reader gave no identifier. *)
Definition reader_outcome (h : Res (option jsstring)) : Res unit :=
  match h with Ret _ => Ret tt | Throw => Throw end.

Section Paths.

Variable JSON_parse : jsstring -> option JsValue.
Variable utf8_decode : list Byte.byte -> jsstring.
Variable clock : nat -> Z.
Variable uuid : nat -> jsstring.
Variable has_log : bool.
Variable env : Env.

(** A lookup answered with a usable (non-empty) value. *)
Definition hit (c : CacheName) (key : jsstring) (w : World)
    (v : jsstring) (w' : World) : Prop :=
  getCached clock c key w = (Ret (Some v), w') /\ v <> [].

(** A lookup answered with nothing usable. *)
Definition miss (c : CacheName) (key : jsstring) (w w' : World) : Prop :=
  exists r, getCached clock c key w = (Ret r, w') /\ truthy r = false.

Definition header_of (sessionFile : jsstring) : Res (option jsstring) :=
  readSessionIdFromTranscript JSON_parse utf8_decode (files env) sessionFile.

(** What [params.log?.warn] answers in this environment. *)
Definition warn_result (msg : jsstring) : Res unit :=
  if has_log && negb (warn_ok env msg) then Throw else Ret tt.

Definition not_found_message (sessionId : jsstring) : jsstring :=
  lit "transcript update ignored; session key not found ("
    ++ sessionId ++ lit ")".

Definition failure_message (sessionFile : jsstring) : jsstring :=
  lit "failed to handle transcript update (" ++ sessionFile ++ lit ")".

(** What [params.broadcast] answers in this environment. *)
Definition sink_result : Res unit := if sink_ok env then Ret tt else Throw.

(** The world after a broadcast of [sessionKey] whose run identifier is
    made from a fresh UUID by [runId]. *)
Definition emitted (runId : jsstring -> jsstring) (sessionKey : jsstring)
    (w : World) : World :=
  log_event (broadcast_event (runId (uuid (drawn w))) sessionKey)
    (with_drawn (S (drawn w)) w).

Definition fast_runId (u : jsstring) : jsstring := lit "transcript-" ++ u.

Definition resolved_runId (sessionId u : jsstring) : jsstring :=
  lit "transcript-" ++ sessionId ++ lit "-" ++ u.

Inductive IdentifierStep (sessionFile : jsstring) (w : World)
  : option jsstring -> World -> Prop :=
| Id_cached sessionId w' :
    hit IdByFile sessionFile w sessionId w' ->
    IdentifierStep sessionFile w (Some sessionId) w'
| Id_read sessionId w1 :
    miss IdByFile sessionFile w w1 ->
    header_of sessionFile = Ret (Some sessionId) -> sessionId <> [] ->
    IdentifierStep sessionFile w (Some sessionId)
      (setCached clock IdByFile sessionFile sessionId
         (log_event (EvReadHeader sessionFile) w1)).2
| Id_not_found read w1 :
    miss IdByFile sessionFile w w1 ->
    header_of sessionFile = Ret read -> truthy read = false ->
    IdentifierStep sessionFile w None (log_event (EvReadHeader sessionFile) w1).

Inductive KeyStep (sessionId : jsstring) (w : World)
  : Res (option jsstring) -> World -> Prop :=
| Key_cached sessionKey w' :
    hit KeyById sessionId w sessionKey w' ->
    KeyStep sessionId w (Ret (Some sessionKey)) w'
| Key_resolved entries sessionKey w1 :
    miss KeyById sessionId w w1 ->
    store env = Some entries ->
    scan_store entries sessionId = Some sessionKey -> sessionKey <> [] ->
    KeyStep sessionId w (Ret (Some sessionKey))
      (setCached clock KeyById sessionId sessionKey
         (log_event (EvResolve sessionId) w1)).2
| Key_unresolved entries w1 :
    miss KeyById sessionId w w1 ->
    store env = Some entries ->
    truthy (scan_store entries sessionId) = false ->
    warn_result (not_found_message sessionId) = Ret tt ->
    KeyStep sessionId w (Ret None)
      (warn has_log env (not_found_message sessionId)
         (log_event (EvResolve sessionId) w1)).2
| Key_warn_throws entries w1 :
    miss KeyById sessionId w w1 ->
    store env = Some entries ->
    truthy (scan_store entries sessionId) = false ->
    warn_result (not_found_message sessionId) = Throw ->
    KeyStep sessionId w Throw
      (warn has_log env (not_found_message sessionId)
         (log_event (EvResolve sessionId) w1)).2
| Key_store_throws w1 :
    miss KeyById sessionId w w1 ->
    store env = None ->
    KeyStep sessionId w Throw (log_event (EvResolve sessionId) w1).

Inductive Handled (sessionFile : jsstring) (w : World)
  : Res unit -> World -> Prop :=
| Handled_fast sessionKey w1 :
    hit KeyByFile sessionFile w sessionKey w1 ->
    Handled sessionFile w sink_result
      (emitted fast_runId sessionKey w1)
| Handled_no_header w1 w2 :
    miss KeyByFile sessionFile w w1 ->
    IdentifierStep sessionFile w1 None w2 ->
    Handled sessionFile w (Ret tt) w2
| Handled_reader_throws w1 w2 :
    miss KeyByFile sessionFile w w1 ->
    miss IdByFile sessionFile w1 w2 ->
    header_of sessionFile = Throw ->
    Handled sessionFile w Throw (log_event (EvReadHeader sessionFile) w2)
| Handled_unresolved sessionId w1 w2 w3 :
    miss KeyByFile sessionFile w w1 ->
    IdentifierStep sessionFile w1 (Some sessionId) w2 ->
    KeyStep sessionId w2 (Ret None) w3 ->
    Handled sessionFile w (Ret tt) w3
| Handled_key_throws sessionId w1 w2 w3 :
    miss KeyByFile sessionFile w w1 ->
    IdentifierStep sessionFile w1 (Some sessionId) w2 ->
    KeyStep sessionId w2 Throw w3 ->
    Handled sessionFile w Throw w3
| Handled_resolved sessionId sessionKey w1 w2 w3 :
    miss KeyByFile sessionFile w w1 ->
    IdentifierStep sessionFile w1 (Some sessionId) w2 ->
    KeyStep sessionId w2 (Ret (Some sessionKey)) w3 ->
    Handled sessionFile w sink_result
      (emitted (resolved_runId sessionId) sessionKey
         (setCached clock KeyByFile sessionFile sessionKey w3).2).

(** An identifier was obtained for the file, but neither the
    identifier-to-key cache nor the store yields a usable key for it. *)
Definition Unresolvable (sessionFile : jsstring) (w : World)
    (sessionId : jsstring) : Prop :=
  exists w1 w2 w3 entries,
    miss KeyByFile sessionFile w w1 /\
    IdentifierStep sessionFile w1 (Some sessionId) w2 /\
    miss KeyById sessionId w2 w3 /\
    store env = Some entries /\
    truthy (scan_store entries sessionId) = false.

End Paths.

(** Successive calls of [handleUpdate] for one file, one per environment. *)
Section Repeated.

Variable JSON_parse : jsstring -> option JsValue.
Variable utf8_decode : list Byte.byte -> jsstring.
Variable clock : nat -> Z.
Variable uuid : nat -> jsstring.
Variable has_log : bool.

Fixpoint handle_all (envs : list Env) (sessionFile : jsstring) (w : World)
  : World :=
  match envs with
  | [] => w
  | env :: rest =>
      handle_all rest sessionFile
        (handleUpdate JSON_parse utf8_decode clock uuid has_log env
           sessionFile w).2
  end.

End Repeated.

(** The last 36 code units of a string: the length of a UUID in its
    canonical text form, as [randomUUID] returns it. *)
Definition uuid_suffix (s : jsstring) : jsstring := drop (length s - 36) s.

#[global] Instance CacheName_eq_dec : EqDecision CacheName.
Proof. solve_decision. Defined.

(** ** The paragraphs of [handleUpdate]

    The body of [handleUpdate] cut at its cache lookups, for reasoning about
    one paragraph at a time; [handleUpdate_unfold] below shows that they
    compose to the function itself. *)

Section Stages.

Variable JSON_parse : jsstring -> option JsValue.
Variable utf8_decode : list Byte.byte -> jsstring.
Variable clock : nat -> Z.
Variable uuid : nat -> jsstring.
Variable has_log : bool.
Variable env : Env.

(** The second paragraph of [handleUpdate], after its cache lookup. *)
Definition identifier_step (sessionFile : jsstring)
    (cachedId : option jsstring) : M (option jsstring) :=
  match cachedId with
  | Some (_ :: _) => ret cachedId
  | _ =>
      read <- call_readSessionIdFromTranscript JSON_parse utf8_decode env
                sessionFile ;;
      match read with
      | Some ((_ :: _) as sessionId) =>
          setCached clock IdByFile sessionFile sessionId ;;
          ret (Some sessionId)
      | _ => ret None
      end
  end.

(** The third paragraph of [handleUpdate], after its cache lookup. *)
Definition key_step (sessionId : jsstring)
    (cachedById : option jsstring) : M (option jsstring) :=
  match cachedById with
  | Some (_ :: _) => ret cachedById
  | _ =>
      resolved <- resolveSessionKeyForSessionId env sessionId ;;
      match resolved with
      | Some ((_ :: _) as sessionKey) =>
          setCached clock KeyById sessionId sessionKey ;;
          ret (Some sessionKey)
      | _ =>
          warn has_log env
            (lit "transcript update ignored; session key not found ("
               ++ sessionId ++ lit ")") ;;
          ret None
      end
  end.

(** The tail of [handleUpdate] once the key is known or not. *)
Definition emit_step (sessionFile sessionId : jsstring)
    (sessionKey : option jsstring) : M unit :=
  match sessionKey with
  | Some ((_ :: _) as sessionKey) =>
      setCached clock KeyByFile sessionFile sessionKey ;;
      u <- randomUUID uuid ;;
      broadcast env (lit "chat")
        (chat_payload (lit "transcript-" ++ sessionId ++ lit "-" ++ u)
           sessionKey)
        drop_if_slow
  | _ => ret tt
  end.

Definition resolve_steps (sessionFile : jsstring)
    (sessionId : option jsstring) : M unit :=
  match sessionId with
  | Some ((_ :: _) as sessionId) =>
      cachedById <- getCached clock KeyById sessionId ;;
      sessionKey <- key_step sessionId cachedById ;;
      emit_step sessionFile sessionId sessionKey
  | _ => ret tt
  end.

Definition slow_path (sessionFile : jsstring) : M unit :=
  cachedId <- getCached clock IdByFile sessionFile ;;
  sessionId <- identifier_step sessionFile cachedId ;;
  resolve_steps sessionFile sessionId.

End Stages.

(** ** Invariants of a run *)

Section RunInvariants.

Variable JSON_parse : jsstring -> option JsValue.
Variable utf8_decode : list Byte.byte -> jsstring.
Variable uuid : nat -> jsstring.

(** The run identifiers added by a computation end in the UUIDs it drew,
    in order. *)
Definition draws_in_order (w w' : World) : Prop :=
  exists evs,
    trace w' = trace w ++ evs /\
    (drawn w <= drawn w')%nat /\
    uuid_suffix <$> runIds evs = uuid <$> seq (drawn w) (drawn w' - drawn w).

(** What a run that did not resolve a key leaves behind: [resolved_for]
    is the identifier the resolver was asked about, if it was asked. *)
Definition failure_footprint (env : Env) (sessionFile : jsstring)
    (w w' : World) (evs : list Event) : Prop :=
  sessionKeyByFile w' ⊆ sessionKeyByFile w /\
  sessionKeyById w' ⊆ sessionKeyById w /\
  (forall k e, sessionIdByFile w' !! k = Some e ->
               sessionIdByFile w !! k = Some e \/
               (k = sessionFile /\ value e <> [] /\
                header_of JSON_parse utf8_decode env sessionFile
                = Ret (Some (value e)))) /\
  (forall e, sessionKeyByFile w' !! sessionFile = Some e -> value e = []) /\
  (forall sid, EvResolve sid ∈ evs ->
               sid <> [] /\
               (forall e, sessionKeyById w' !! sid = Some e -> value e = []) /\
               (exists e, sessionIdByFile w' !! sessionFile = Some e /\
                          value e = sid)).

End RunInvariants.

(** Every cache entry of [w'] is an entry of [w] or has a non-empty value. *)
Definition keeps_or_fills (w w' : World) : Prop :=
  forall c k e, cache_of c w' !! k = Some e ->
                cache_of c w !! k = Some e \/ value e <> [].

(** ** Further notions for runs of the bridge *)

(** An entry that answers the lookup whose clock reading is the [n]-th:
    its value is non-empty and that reading is within the TTL of its
    timestamp. *)
Definition live_at (clock : nat -> Z) (n : nat) (e : CacheEntry) : Prop :=
  value e <> [] /\ clock n - ts e <= CACHE_TTL_MS.

(** The broadcasts among the events, in order. *)
Definition broadcasts (evs : list Event) : list Event :=
  filter (fun e => is_broadcast e = true) evs.

(** Two lines that are equal up to one trailing carriage return. *)
Definition cr_equiv (l l' : jsstring) : Prop := l = l' \/ l = l' ++ [0xD%N].

(** * The oh-my-opencode extension

    The pure parts of the extension that ships beside the gateway: the
    persona table and its lookup ([personas.ts] and the hook of [index.ts]),
    the parameter reader of the search tools, and the line counting of the
    comment-density check ([quality-hooks.ts]). *)

(** ** More string builtins *)

(** [s.startsWith(prefix)] *)
Fixpoint startsWith (s prefix : jsstring) : bool :=
  match prefix with
  | [] => true
  | p :: prefix' =>
      match s with
      | [] => false
      | c :: s' => (c =? p)%N && startsWith s' prefix'
      end
  end.

(** [s.includes(sub)] *)
Fixpoint includes (s sub : jsstring) : bool :=
  startsWith s sub ||
  match s with
  | [] => false
  | _ :: rest => includes rest sub
  end.

(** [content.split("\n")] *)
Fixpoint split_newline (s : jsstring) : list jsstring :=
  match s with
  | [] => [[]]
  | c :: rest =>
      if (c =? 0xA)%N then [] :: split_newline rest
      else match split_newline rest with
           | l :: ls => (c :: l) :: ls
           | [] => [[c]]
           end
  end.

(** ** Personas *)

Definition oracle_prompt : jsstring := lit "# Oracle Persona

You are Oracle, the architecture and debugging specialist.

## Core Characteristics
- Expert at analyzing code architecture and design patterns
- Debugging guru - find root causes quickly
- Think step-by-step through complex problems
- Ask clarifying questions before diving into solutions

## Approach
1. First understand the problem thoroughly
2. Identify the root cause, not just symptoms
3. Propose minimal, surgical solutions
4. Consider edge cases and potential regressions

## Output Style
- Direct and precise
- Explain *why* something is wrong, not just *what* is wrong
- Provide actionable fix suggestions
".

Definition librarian_prompt : jsstring := lit "# Librarian Persona

You are Librarian, the documentation and codebase exploration expert.

## Core Characteristics
- Expert at finding relevant documentation
- Deep knowledge of open source libraries and frameworks
- Fast codebase navigation and exploration
- Knows how to find patterns across large codebases

## Approach
1. Search official documentation first
2. Look at real-world implementations in open source
3. Find similar patterns in the codebase
4. Provide links to authoritative sources

## Output Style
- Cite sources and provide links
- Show concrete examples from real code
- Be thorough but concise
".

Definition frontend_engineer_prompt : jsstring := lit "# Frontend Engineer Persona

You are the Frontend UI/UX Engineer, specializing in building beautiful, accessible interfaces.

## Core Characteristics
- Expert at modern UI frameworks (React, Vue, Svelte, etc.)
- Strong sense of UX best practices
- Accessibility advocate
- Performance-conscious

## Approach
1. Understand the desired user experience first
2. Choose appropriate components and libraries
3. Write semantic, accessible HTML
4. Consider responsive design from the start

## Output Style
- Clean, readable component code
- Use modern CSS features (flexbox, grid, variables)
- Prefer composition over complexity
- Keep bundles small
".

Definition hephaestus_prompt : jsstring := lit "# Hephaestus - Autonomous Deep Worker

You are Hephaestus, the autonomous goal-oriented agent.

## Core Characteristics
- Goal-oriented: given an objective, you determine the steps yourself
- Explores before acting: fire multiple parallel research agents
- End-to-end completion: don't stop until 100% done
- Pattern matching: match existing codebase style

## Approach
1. Break down the goal into actionable steps
2. Research thoroughly before writing code
3. Implement completely - no half measures
4. Verify your work actually works

## Output Style
- Code that fits seamlessly into the existing codebase
- Minimal, surgical changes
- Test your implementations
".

Definition prometheus_prompt : jsstring := lit "# Prometheus - Planner Agent

You are Prometheus, the strategic planner.

## Core Characteristics
- Expert at breaking down complex tasks
- Identifies dependencies and potential blockers
- Creates structured, actionable plans
- Thinks ahead about edge cases

## Approach
1. Fully understand the end goal
2. Break into logical, ordered steps
3. Identify what each step depends on
4. Flag potential issues early

## Output Style
- Clear, numbered steps
- Dependencies clearly marked
- Estimate complexity and time
".

Definition explore_prompt : jsstring := lit "# Explore Agent

You are Explore, the fast codebase grepper.

## Core Characteristics
- Blazing fast at finding patterns in code
- Expert at regex and glob patterns
- Knows file structure and organization patterns
- Quick to identify relevant files

## Approach
1. Use the fastest search method available
2. Start broad, then narrow down
3. Find multiple examples to confirm patterns
4. Report findings efficiently

## Output Style
- Direct hits with file:line references
- Brief context around matches
- Don't overwhelm - focus on relevant results
".

(** [Object.entries(PERSONAS)]: the keys are not integer-like, so the
    entries come in the order in which the literal lists them. *)
Definition PERSONAS : list (jsstring * jsstring) :=
  [(lit "oracle", oracle_prompt);
   (lit "librarian", librarian_prompt);
   (lit "frontend-engineer", frontend_engineer_prompt);
   (lit "hephaestus", hephaestus_prompt);
   (lit "prometheus", prometheus_prompt);
   (lit "explore", explore_prompt)].

(** A code unit that the class [[a-z0-9-]] accepts. *)
Definition is_label_char (c : N) : bool :=
  (((0x61 <=? c) && (c <=? 0x7A)) || ((0x30 <=? c) && (c <=? 0x39))
   || (c =? 0x2D))%N.

(** [s.replace(/[^a-z0-9-]/g, "-")]: without the [u] flag the class is
    tried on each code unit. *)
Definition replace_non_label_chars (s : jsstring) : jsstring :=
  (fun c => if is_label_char c then c else 0x2D%N) <$> s.

(** The loop of [buildPersonaSystemPrompt] over the entries. *)
Fixpoint find_persona (entries : list (jsstring * jsstring))
    (normalizedLabel : jsstring) : option jsstring :=
  match entries with
  | [] => None
  | (key, prompt) :: rest =>
      if includes normalizedLabel key || includes key normalizedLabel
      then Some prompt
      else find_persona rest normalizedLabel
  end.

Definition getAvailablePersonas : list jsstring := PERSONAS.*1.

Section PersonaLookup.

(** [String.prototype.toLowerCase], a builtin of the runtime. *)
Variable toLowerCase : jsstring -> jsstring.

Definition normalizeLabel (label : jsstring) : jsstring :=
  replace_non_label_chars (toLowerCase label).

Definition buildPersonaSystemPrompt (label : jsstring) : option jsstring :=
  find_persona PERSONAS (normalizeLabel label).

(** The [before_agent_start] handler registered by [index.ts], applied to
    a context whose [label] is a string or absent; the result is the
    object the returned promise resolves to. *)
Definition persona_hook (label : option jsstring) : JsValue :=
  match label with
  | Some ((_ :: _) as label) =>
      match buildPersonaSystemPrompt label with
      | Some ((_ :: _) as personaPrompt) =>
          JObject [(lit "prependContext", JString personaPrompt)]
      | _ => JObject []
      end
  | _ => JObject []
  end.

End PersonaLookup.

(** The normalized label contains the key, or the key contains it. *)
Definition persona_matches (normalizedLabel key : jsstring) : Prop :=
  (exists a b, normalizedLabel = a ++ key ++ b) \/
  (exists a b, key = a ++ normalizedLabel ++ b).

(** ** The parameter reader of the search tools *)

(** [opts?: { required?: boolean; trim?: boolean }] *)
Record ReadStringOpts := {
  opt_required : option bool;
  opt_trim : option bool
}.

(** A value, or the message of the [Error] thrown. *)
Inductive Outcome (A : Type) :=
| Returns (a : A)
| Throws (message : jsstring).
Arguments Returns {A} a.
Arguments Throws {A} message.

(** [params] is the list of own properties of the argument object; a
    property inherited from [Object.prototype] is never a string, so it
    reads like an absent one here. *)
Definition readStringParam (params : list (jsstring * JsValue))
    (key : jsstring) (opts : option ReadStringOpts)
  : Outcome (option jsstring) :=
  let required := default false (opts ≫= opt_required) in
  let trim_it := default true (opts ≫= opt_trim) in
  match assoc key params with
  | Some (JString raw) =>
      let value := if trim_it then trim raw else raw in
      if is_blank value && required
      then Throws (key ++ lit " required")
      else Returns (Some value)
  | _ =>
      if required then Throws (key ++ lit " required") else Returns None
  end.

(** ** The line counting of [analyzeCodeQuality]

    The two filters and their sum; the density computed from them is a
    floating-point quotient and is not modelled. *)

Definition nonblank_line (line : jsstring) : bool :=
  negb (is_blank (trim line)).

Definition is_code_line (line : jsstring) : bool :=
  let trimmed := trim line in
  (0 <? length trimmed)%nat
  && negb (startsWith trimmed (lit "//"))
  && negb (startsWith trimmed (lit "/*"))
  && negb (startsWith trimmed (lit "*")).

Definition is_comment_line (line : jsstring) : bool :=
  let trimmed := trim line in
  startsWith trimmed (lit "//") || startsWith trimmed (lit "/*")
  || startsWith trimmed (lit "*") || startsWith trimmed (lit "*/").

Definition codeLines (content : jsstring) : list jsstring :=
  List.filter is_code_line (split_newline content).

Definition commentLines (content : jsstring) : list jsstring :=
  List.filter is_comment_line (split_newline content).

Definition total_lines (content : jsstring) : nat :=
  length (codeLines content) + length (commentLines content).

(** ** Sample builtins for the examples *)

Module Samples.

(** Lower-casing of ASCII letters; other code units are kept. *)
Definition ascii_lower (s : jsstring) : jsstring :=
  (fun c => if ((0x41 <=? c) && (c <=? 0x5A))%N then (c + 0x20)%N else c) <$> s.

(** A clock that advances by five minutes at each reading. *)
Definition slow_clock (n : nat) : Z := 300000 * Z.of_nat n.

Definition c_log : jsstring := lit "c.log".

(** [a.log] and [c.log] both start with the record of [sess-42]. *)
Definition shared_fs (path : jsstring) : FileState :=
  if decide (path = Demo.a_log \/ path = c_log)
  then Readable (Demo.encode (Demo.session_line (lit "sess-42") ++ [10%N]))
  else OpenFails.

(** A transcript written with carriage returns before the line feeds. *)
Definition crlf_fs (path : jsstring) : FileState :=
  Readable (Demo.encode (Demo.session_line (lit "sess-42") ++ [13%N; 10%N])).

(** The store before the session is registered, and after. *)
Definition early_env : Env :=
  {| files := shared_fs; store := Some []; sink_ok := true;
     warn_ok := fun _ => true |}.

Definition late_env : Env :=
  {| files := shared_fs; store := Some Demo.entries; sink_ok := true;
     warn_ok := fun _ => true |}.

End Samples.

(** * Properties *)

(** ** Strings *)

Lemma trimStart_idem s : trimStart (trimStart s) = trimStart s.
Proof.
  induction s as [|c s IH]; simpl; [done|].
  destruct (is_whitespace c) eqn:E; [done|]. simpl. by rewrite E.
Qed.

Lemma trimStart_snoc s c :
  is_whitespace c = false -> trimStart (s ++ [c]) = trimStart s ++ [c].
Proof.
  intros Hc. induction s as [|d s IH]; simpl.
  - by rewrite Hc.
  - destruct (is_whitespace d); [exact IH | done].
Qed.

Lemma trimEnd_cons c s :
  is_whitespace c = false -> trimEnd (c :: s) = c :: trimEnd s.
Proof.
  intros Hc. unfold trimEnd. simpl.
  rewrite trimStart_snoc by done. by rewrite rev_app_distr.
Qed.

Lemma trimStart_trimEnd s :
  trimStart s = s -> trimStart (trimEnd s) = trimEnd s.
Proof.
  destruct s as [|c s]; [done|]. simpl.
  destruct (is_whitespace c) eqn:E.
  - intros H. exfalso.
    assert (Hlen : (length (trimStart s) <= length s)%nat).
    { clear. induction s as [|d s IH]; simpl; [lia|].
      destruct (is_whitespace d); simpl; lia. }
    rewrite H in Hlen. simpl in Hlen. lia.
  - intros _. rewrite trimEnd_cons by done. simpl. by rewrite E.
Qed.

Lemma trimEnd_idem s : trimEnd (trimEnd s) = trimEnd s.
Proof. unfold trimEnd. by rewrite rev_involutive, trimStart_idem. Qed.

Lemma trim_idem s : trim (trim s) = trim s.
Proof.
  unfold trim.
  rewrite (trimStart_trimEnd (trimStart s)) by apply trimStart_idem.
  apply trimEnd_idem.
Qed.

Lemma is_blank_true s : is_blank s = true <-> s = [].
Proof. by destruct s. Qed.

Lemma is_blank_false s : is_blank s = false <-> s <> [].
Proof. by destruct s. Qed.

Lemma truthy_Some s : truthy (Some s) = true <-> s <> [].
Proof. by destruct s. Qed.

(** ** The TTL caches *)

Section CacheFacts.

Variable clock : nat -> Z.

Lemma cache_of_with_ticks c n w : cache_of c (with_ticks n w) = cache_of c w.
Proof. by destruct c. Qed.

Lemma cache_of_with_cache c m w : cache_of c (with_cache c m w) = m.
Proof. by destruct c. Qed.

Lemma getCached_absent c key w :
  cache_of c w !! key = None -> getCached clock c key w = (Ret None, w).
Proof. intros H. unfold getCached, bind, map_get. by rewrite H. Qed.

Lemma getCached_expired c key e w :
  cache_of c w !! key = Some e ->
  clock (ticks w) - ts e > CACHE_TTL_MS ->
  getCached clock c key w =
    (Ret None,
     with_cache c (delete key (cache_of c w)) (with_ticks (S (ticks w)) w)).
Proof.
  intros H Hlt. unfold getCached, bind, map_get, Date_now. rewrite H.
  destruct (Z.gtb_spec (clock (ticks w) - ts e) CACHE_TTL_MS); [|lia].
  unfold map_delete, ret. simpl. by rewrite cache_of_with_ticks.
Qed.

Lemma getCached_live c key e w :
  cache_of c w !! key = Some e ->
  clock (ticks w) - ts e <= CACHE_TTL_MS ->
  getCached clock c key w = (Ret (Some (value e)), with_ticks (S (ticks w)) w).
Proof.
  intros H Hle. unfold getCached, bind, map_get, Date_now. rewrite H.
  by destruct (Z.gtb_spec (clock (ticks w) - ts e) CACHE_TTL_MS); [lia|].
Qed.

Lemma setCached_eq c key v w :
  setCached clock c key v w =
    (Ret tt,
     with_cache c (<[key := {| value := v; ts := clock (ticks w) |}]> (cache_of c w))
       (with_ticks (S (ticks w)) w)).
Proof.
  unfold setCached, bind, Date_now, map_set. simpl.
  by rewrite cache_of_with_ticks.
Qed.

(** C3 (as amended): the TTL is ten minutes for each of the three caches;
    [setCached] at time [T] stores the value with timestamp [T]; a lookup
    of such an entry at a time later than [T + TTL] answers absent and
    removes the entry from the map, a lookup at a time up to and including
    [T + TTL] answers the value and leaves the entry in place. *)
Theorem cache_ttl_expiry c key v w0 w :
  let T := clock (ticks w0) in
  let now := clock (ticks w) in
  CACHE_TTL_MS = 600000 /\
  cache_of c (setCached clock c key v w0).2 !! key
    = Some {| value := v; ts := T |} /\
  (cache_of c w !! key = Some {| value := v; ts := T |} ->
   (now > T + CACHE_TTL_MS ->
    (getCached clock c key w).1 = Ret None /\
    cache_of c (getCached clock c key w).2 = delete key (cache_of c w) /\
    cache_of c (getCached clock c key w).2 !! key = None) /\
   (now <= T + CACHE_TTL_MS ->
    (getCached clock c key w).1 = Ret (Some v) /\
    cache_of c (getCached clock c key w).2 = cache_of c w)).
Proof.
  intros T now. split; [done|]. split.
  - rewrite setCached_eq. simpl. rewrite cache_of_with_cache.
    apply lookup_insert_eq.
  - intros Hin. split; intros Hnow.
    + rewrite (getCached_expired _ _ _ _ Hin) by (simpl; lia). simpl.
      rewrite cache_of_with_cache. split_and!; [done..|].
      apply lookup_delete_eq.
    + rewrite (getCached_live _ _ _ _ Hin) by (simpl; lia). simpl.
      by rewrite cache_of_with_ticks.
Qed.

End CacheFacts.

Lemma cache_ttl_expiry_witness :
  (getCached Demo.clock KeyByFile Demo.a_log
     (setCached Demo.clock KeyByFile Demo.a_log (lit "key-alpha") attached).2).1
  = Ret (Some (lit "key-alpha")).
Proof.
  pose proof (cache_ttl_expiry Demo.clock KeyByFile Demo.a_log (lit "key-alpha")
                attached
                (setCached Demo.clock KeyByFile Demo.a_log (lit "key-alpha") attached).2)
    as (_ & Hset & Hget).
  destruct (Hget Hset) as [_ Hlive].
  apply Hlive. vm_compute. discriminate.
Defined.

(** C3, as stated, fails at the boundary: an entry inserted at time 0 and
    looked up at time exactly [0 + TTL] is still answered. *)
Lemma cache_ttl_boundary_counterexample :
  let w1 := (setCached Demo.jumping_clock KeyByFile Demo.a_log (lit "key-alpha")
               attached).2 in
  sessionKeyByFile w1 !! Demo.a_log
    = Some {| value := lit "key-alpha"; ts := 0 |} /\
  Demo.jumping_clock (ticks w1) >= 0 + CACHE_TTL_MS /\
  (getCached Demo.jumping_clock KeyByFile Demo.a_log w1).1
    = Ret (Some (lit "key-alpha")) /\
  sessionKeyByFile (getCached Demo.jumping_clock KeyByFile Demo.a_log w1).2
    !! Demo.a_log
    = Some {| value := lit "key-alpha"; ts := 0 |}.
Proof. vm_compute. split_and!; (reflexivity || discriminate). Qed.

(** ** The session key resolver *)

Lemma scan_store_matches key entry rest q :
  entry_matches entry q -> scan_store ((key, entry) :: rest) q = Some key.
Proof.
  intros (s & Hs & Hne & Heq). simpl. rewrite Hs. simpl.
  apply is_blank_false in Hne. rewrite Hne. simpl.
  by rewrite bool_decide_eq_true_2.
Qed.

Lemma scan_store_no_match key entry rest q :
  ~ entry_matches entry q ->
  scan_store ((key, entry) :: rest) q = scan_store rest q.
Proof.
  intros Hno. simpl.
  destruct (is_blank _) eqn:Hb; simpl; [done|].
  case_bool_decide as Heq; [|done].
  exfalso. apply Hno. unfold trimmed_string_or_empty in *.
  destruct (get_prop entry (lit "sessionId")) as [[| | |s| |]|] eqn:Hp;
    try discriminate.
  exists s. split_and!; [done| |done]. by apply is_blank_false.
Qed.

Lemma entry_matches_dec entry q : entry_matches entry q \/ ~ entry_matches entry q.
Proof.
  destruct (get_prop entry (lit "sessionId")) as [[| | |s| |]|] eqn:Hp;
    try (right; intros (s' & Hs & _); congruence).
  destruct (decide (trim s <> [] /\ trim s = q)) as [H|H].
  - left. exists s. tauto.
  - right. intros (s' & Hs & H1 & H2). replace s' with s in * by congruence. tauto.
Qed.

Lemma scan_store_Resolved entries q r :
  Resolved entries q r <-> scan_store entries q = r.
Proof.
  split.
  - intros [before key entry after -> Hbefore Hm | Hall].
    + induction Hbefore as [|[k e] before Hno _ IH]; simpl app.
      * by apply scan_store_matches.
      * by rewrite scan_store_no_match.
    + induction Hall as [|[k e] rest Hno _ IH]; [done|].
      by rewrite scan_store_no_match.
  - intros <-. induction entries as [|[k e] rest IH]; [by constructor|].
    destruct (entry_matches_dec e q) as [Hm|Hno].
    + rewrite scan_store_matches by done.
      by apply (Resolved_first _ _ [] k e rest).
    + rewrite scan_store_no_match by done.
      inversion IH as [before key entry after Heq Hbefore Hm Hr | Hall Hr].
      * apply (Resolved_first _ _ ((k, e) :: before) key entry after);
          [by rewrite Heq | by constructor | done].
      * constructor. by constructor.
Qed.

(** C7 (as amended): when the store snapshot loads, the resolver walks its
    entries in order, trims each entry's identifier and compares it with the
    query exactly as passed; it answers the key of the first entry whose
    trimmed identifier is non-empty and equals the query, and not-found when
    there is none.  The query itself is not trimmed, so a query that carries
    leading or trailing whitespace is never resolved. *)
Theorem resolver_contract env entries sessionId w :
  store env = Some entries ->
  (forall result,
      Resolved entries sessionId result <->
      resolveSessionKeyForSessionId env sessionId w
        = (Ret result, log_event (EvResolve sessionId) w)) /\
  (trim sessionId <> sessionId ->
   resolveSessionKeyForSessionId env sessionId w
     = (Ret None, log_event (EvResolve sessionId) w)).
Proof.
  intros Hstore. unfold resolveSessionKeyForSessionId. rewrite Hstore.
  split.
  - intros result. rewrite scan_store_Resolved. split; [by intros ->|].
    by intros [= ->].
  - intros Hq. do 2 f_equal. apply scan_store_Resolved. constructor.
    apply Forall_forall. intros [k e] _ (s & _ & _ & Hs). simpl in *.
    apply Hq. rewrite <- Hs. apply trim_idem.
Qed.

Lemma resolver_contract_witness :
  resolveSessionKeyForSessionId Demo.env (lit "sess-42") attached
    = (Ret (Some (lit "key-alpha")), log_event (EvResolve (lit "sess-42")) attached).
Proof.
  apply (resolver_contract Demo.env Demo.entries (lit "sess-42") attached eq_refl).
  apply (Resolved_first _ _ [] (lit "key-alpha")
           (JObject [(lit "sessionId", JString (lit "sess-42"))]) []);
    [reflexivity | constructor |].
  exists (lit "sess-42"). vm_compute. by split_and!.
Defined.

(** C7, as stated, fails: the stored identifier is "sess-42" and the query
    " sess-42" differs from it only by a leading blank, yet it is not
    resolved, while the trimmed query is. *)
Lemma resolver_untrimmed_query_counterexample :
  Demo.entries
    = [(lit "key-alpha", JObject [(lit "sessionId", JString (lit "sess-42"))])] /\
  trim (lit " sess-42") = lit "sess-42" /\
  (resolveSessionKeyForSessionId Demo.env (lit " sess-42") attached).1 = Ret None /\
  (resolveSessionKeyForSessionId Demo.env (lit "sess-42") attached).1
    = Ret (Some (lit "key-alpha")).
Proof. vm_compute. by split_and!. Qed.

(** ** White space and lines *)

Lemma is_whitespace_spec c : is_whitespace c = true <-> c ∈ white_space.
Proof.
  rewrite list_elem_of_In. unfold is_whitespace, white_space. simpl In.
  rewrite !orb_true_iff, !andb_true_iff, !N.eqb_eq, !N.leb_le. lia.
Qed.

Lemma not_whitespace_spec c : is_whitespace c = false <-> c ∉ white_space.
Proof.
  rewrite <- is_whitespace_spec. by destruct (is_whitespace c).
Qed.

Lemma trimStart_app_blank l m :
  trimStart l = [] -> trimStart (l ++ m) = trimStart m.
Proof.
  induction l as [|c l IH]; simpl; [done|].
  by destruct (is_whitespace c).
Qed.

Lemma trimStart_app_nonblank l m :
  trimStart l <> [] -> trimStart (l ++ m) = trimStart l ++ m.
Proof.
  induction l as [|c l IH]; simpl; [done|].
  by destruct (is_whitespace c).
Qed.

Lemma blank_trimStart s : blank s <-> trimStart s = [].
Proof.
  unfold blank. induction s as [|c s IH]; simpl.
  { split; [done | constructor]. }
  rewrite Forall_cons, <- is_whitespace_spec, IH.
  destruct (is_whitespace c).
  - split; [by intros [_ ?] | by intros ?].
  - split; [by intros [? _] | done].
Qed.

Lemma blank_rev s : blank s -> blank (rev s).
Proof. apply Forall_rev. Qed.

Lemma trimStart_blank_or_head s :
  trimStart s = [] \/
  exists c t, trimStart s = c :: t /\ is_whitespace c = false.
Proof.
  induction s as [|c s IH]; simpl; [by left|].
  destruct (is_whitespace c) eqn:E; [done|]. right. by exists c, s.
Qed.

Lemma trimStart_split s :
  exists before, s = before ++ trimStart s /\ blank before.
Proof.
  induction s as [|c s (before & Hs & Hb)]; simpl.
  { exists []. split; [done | constructor]. }
  destruct (is_whitespace c) eqn:E.
  - exists (c :: before). split; [simpl; by rewrite <- Hs|].
    constructor; [by apply is_whitespace_spec | done].
  - exists []. split; [done | constructor].
Qed.

Lemma trimEnd_split s :
  exists after, s = trimEnd s ++ after /\ blank after.
Proof.
  destruct (trimStart_split (rev s)) as (before & Hs & Hb).
  exists (rev before). split; [|by apply blank_rev].
  unfold trimEnd. rewrite <- rev_app_distr, <- Hs. by rewrite rev_involutive.
Qed.

Lemma trim_stripped s : stripped s (trim s).
Proof.
  destruct (trimStart_split s) as (before & Hs & Hb).
  destruct (trimEnd_split (trimStart s)) as (after & Ht & Ha).
  exists before, after. split_and!; [|done|done| |].
  - rewrite Hs at 1. by rewrite Ht at 1.
  - intros c t' Heq. apply not_whitespace_spec.
    pose proof (trimStart_trimEnd (trimStart s) (trimStart_idem s)) as Hfix.
    fold (trim s) in Hfix. rewrite Heq in Hfix. simpl in Hfix.
    destruct (is_whitespace c) eqn:E; [|done]. exfalso.
    assert (Hlen : forall l, (length (trimStart l) <= length l)%nat).
    { clear. induction l as [|d l IH]; simpl; [lia|].
      destruct (is_whitespace d); simpl; lia. }
    specialize (Hlen t'). rewrite Hfix in Hlen. simpl in Hlen. lia.
  - intros t' c Heq. apply not_whitespace_spec.
    unfold trim, trimEnd in Heq.
    apply (f_equal (@rev N)) in Heq.
    rewrite rev_involutive, rev_app_distr in Heq.
    simpl in Heq.
    destruct (trimStart_blank_or_head (rev (trimStart s)))
      as [Hnil | (c' & t & Hc & Hw)]; rewrite Heq in *; [done|].
    by injection Hc as -> _.
Qed.

Lemma stripped_trim s t : stripped s t -> trim s = t.
Proof.
  intros (before & after & -> & Hb & Ha & Hhead & Hlast).
  apply blank_trimStart in Hb.
  unfold trim. rewrite (trimStart_app_blank _ _ Hb).
  destruct t as [|c t].
  { simpl. apply blank_trimStart in Ha. by rewrite Ha. }
  pose proof (Hhead c t eq_refl) as Hc. apply not_whitespace_spec in Hc.
  simpl. rewrite Hc. unfold trimEnd.
  change (c :: t ++ after) with ((c :: t) ++ after). rewrite rev_app_distr.
  apply blank_rev, blank_trimStart in Ha.
  rewrite (trimStart_app_blank _ _ Ha).
  destruct (exists_last (l := c :: t) ltac:(done)) as (t' & d & Heq).
  rewrite Heq, rev_app_distr. simpl.
  pose proof (Hlast t' d Heq) as Hd. apply not_whitespace_spec in Hd.
  rewrite Hd. simpl. by rewrite rev_involutive.
Qed.

Lemma stripped_iff s t : stripped s t <-> trim s = t.
Proof. split; [apply stripped_trim | intros <-; apply trim_stripped]. Qed.

Lemma blank_trim s : blank s <-> trim s = [].
Proof.
  rewrite blank_trimStart. unfold trim. split; [by intros ->|].
  intros H. destruct (trimEnd_split (trimStart s)) as (after & Hs & Ha).
  rewrite H in Hs. simpl in Hs. rewrite <- Hs in Ha.
  apply blank_trimStart in Ha. by rewrite trimStart_idem in Ha.
Qed.

(** The splitting of the reader gives the lines of the text, and nothing
    else does. *)
Lemma split_lines_cons c rest :
  split_lines (c :: rest) =
    if (c =? 0xA)%N then [] :: split_lines rest
    else match rest with
         | c' :: rest' =>
             if ((c =? 0xD) && (c' =? 0xA))%N then [] :: split_lines rest'
             else match split_lines rest with
                  | l :: ls => (c :: l) :: ls
                  | [] => [[c]]
                  end
         | [] => [[c]]
         end.
Proof. reflexivity. Qed.

Lemma split_lines_no_lf line : 0xA%N ∉ line -> split_lines line = [line].
Proof.
  induction line as [|c line IH]; [done|].
  rewrite not_elem_of_cons. intros [Hc Hl]. rewrite split_lines_cons.
  apply N.eqb_neq in Hc. rewrite N.eqb_sym, Hc.
  destruct line as [|c' line']; [done|].
  assert ((c' =? 0xA)%N = false) as Hc'.
  { apply N.eqb_neq. intros ->. apply Hl. left. }
  rewrite Hc', andb_false_r, (IH Hl). reflexivity.
Qed.

Lemma split_lines_lf line rest :
  0xA%N ∉ line -> (forall l, line <> l ++ [0xD%N]) ->
  split_lines (line ++ 0xA%N :: rest) = line :: split_lines rest.
Proof.
  induction line as [|c line IH]; [done|].
  rewrite not_elem_of_cons. intros [Hc Hl] Hcr.
  rewrite <- app_comm_cons, split_lines_cons.
  apply N.eqb_neq in Hc. rewrite N.eqb_sym, Hc.
  destruct line as [|c' line'].
  - simpl app. assert ((c =? 0xD)%N = false) as ->.
    { apply N.eqb_neq. intros ->. by apply (Hcr []). }
    reflexivity.
  - rewrite <- app_comm_cons.
    assert ((c' =? 0xA)%N = false) as Hc'.
    { apply N.eqb_neq. intros ->. apply Hl. left. }
    rewrite Hc', andb_false_r. rewrite app_comm_cons, (IH Hl); [done|].
    intros l Heq. apply (Hcr (c :: l)). by rewrite Heq.
Qed.

Lemma split_lines_crlf line rest :
  0xA%N ∉ line ->
  split_lines (line ++ 0xD%N :: 0xA%N :: rest) = line :: split_lines rest.
Proof.
  induction line as [|c line IH]; [done|].
  rewrite not_elem_of_cons. intros [Hc Hl].
  rewrite <- app_comm_cons, split_lines_cons.
  apply N.eqb_neq in Hc. rewrite N.eqb_sym, Hc.
  destruct line as [|c' line'].
  - simpl. by rewrite ?andb_false_r.
  - rewrite <- app_comm_cons.
    assert ((c' =? 0xA)%N = false) as Hc'.
    { apply N.eqb_neq. intros ->. apply Hl. left. }
    rewrite Hc', andb_false_r. by rewrite app_comm_cons, (IH Hl).
Qed.

Lemma lines_of_split_lines text lines :
  lines_of text lines -> split_lines text = lines.
Proof.
  induction 1 as [line Hl | line rest lines Hl Hcr _ IH | line rest lines Hl _ IH].
  - by apply split_lines_no_lf.
  - by rewrite split_lines_lf, IH.
  - by rewrite split_lines_crlf, IH.
Qed.

Lemma lines_of_cons c text line lines :
  c <> 0xA%N ->
  (c = 0xD%N -> forall rest, text <> 0xA%N :: rest) ->
  lines_of text (line :: lines) ->
  lines_of (c :: text) ((c :: line) :: lines).
Proof.
  intros Hc Hcr Hlines.
  inversion Hlines as [l Hl | l rest ls Hl Hncr Hrest | l rest ls Hl Hrest];
    subst.
  - apply lines_last. rewrite not_elem_of_cons. by split.
  - rewrite app_comm_cons. apply lines_lf; [|  |done].
    + rewrite not_elem_of_cons. by split.
    + intros l Heq. destruct l as [|d l].
      * injection Heq as -> ->. by apply (Hcr eq_refl rest).
      * injection Heq as -> Heq. by apply (Hncr l).
  - rewrite app_comm_cons. apply lines_crlf; [|done].
    rewrite not_elem_of_cons. by split.
Qed.

Lemma split_lines_lines_of_bounded n : forall text,
  (length text <= n)%nat -> lines_of text (split_lines text).
Proof.
  induction n as [|n IH]; intros text Hlen.
  { destruct text; [|simpl in Hlen; lia]. apply lines_last, not_elem_of_nil. }
  destruct text as [|c rest]; [apply lines_last, not_elem_of_nil|].
  simpl in Hlen. rewrite split_lines_cons.
  destruct (c =? 0xA)%N eqn:Hc.
  { apply N.eqb_eq in Hc as ->.
    apply (lines_lf [] rest); [apply not_elem_of_nil | by intros [] |].
    apply IH. lia. }
  apply N.eqb_neq in Hc.
  destruct rest as [|c' rest'].
  { apply lines_last. rewrite not_elem_of_cons. split; [done|].
    apply not_elem_of_nil. }
  destruct ((c =? 0xD) && (c' =? 0xA))%N eqn:Hsep.
  { apply andb_true_iff in Hsep as [->%N.eqb_eq ->%N.eqb_eq].
    apply (lines_crlf [] rest'); [apply not_elem_of_nil|].
    apply IH. simpl in Hlen. lia. }
  pose proof (IH (c' :: rest') ltac:(lia)) as Hrec.
  destruct (split_lines (c' :: rest')) as [|l ls] eqn:Hsplit.
  { inversion Hrec. }
  apply lines_of_cons; [done| |done].
  intros -> rest [= -> _]. by rewrite N.eqb_refl in Hsep.
Qed.

Lemma split_lines_lines_of text : lines_of text (split_lines text).
Proof. by apply (split_lines_lines_of_bounded (length text)). Qed.

Lemma lines_of_iff text lines : lines_of text lines <-> split_lines text = lines.
Proof.
  split; [apply lines_of_split_lines | intros <-; apply split_lines_lines_of].
Qed.

(** ** The header reader *)

Section HeaderReaderFacts.

Variable JSON_parse : jsstring -> option JsValue.
Variable utf8_decode : list Byte.byte -> jsstring.

Local Abbreviation scan := (scan_lines JSON_parse).
Local Abbreviation passed := (passed_over JSON_parse).
Local Abbreviation read := (readSessionIdFromTranscript JSON_parse utf8_decode).
Local Abbreviation answer_of := (header_answer JSON_parse utf8_decode).

Lemma is_string_true v s : is_string v s = true <-> v = Some (JString s).
Proof.
  destruct v as [[| | |s'| |]|]; simpl; try (split; [discriminate|congruence]).
  rewrite bool_decide_eq_true. split; congruence.
Qed.

(** The contract's notions, in the reader's own terms. *)
Lemma session_record_trim parsed id :
  session_record parsed id <->
  get_prop parsed (lit "type") = Some (JString (lit "session")) /\
  exists s, get_prop parsed (lit "id") = Some (JString s) /\
            trim s = id /\ id <> [].
Proof.
  unfold session_record. split; intros (Hty & s & Hs & Ht & Hne);
    (split; [done|]); exists s; split_and!; try done; by apply stripped_iff.
Qed.

Lemma qualifies_trim line id :
  qualifies JSON_parse line id <->
  trim line <> [] /\
  exists parsed, JSON_parse (trim line) = Some parsed /\
                 session_record parsed id.
Proof.
  unfold qualifies. split.
  - intros (text & <-%stripped_iff & Hne & parsed & Hp & Hr).
    split; [done|]. by exists parsed.
  - intros (Hne & parsed & Hp & Hr). exists (trim line).
    split_and!; [apply trim_stripped | done |]. by exists parsed.
Qed.

Lemma malformed_trim line :
  malformed JSON_parse line <->
  trim line <> [] /\ JSON_parse (trim line) = None.
Proof.
  unfold malformed. split.
  - by intros (text & <-%stripped_iff & Hne & Hp).
  - intros (Hne & Hp). exists (trim line). split_and!; [apply trim_stripped|done..].
Qed.

Lemma passed_over_trim line :
  passed line <->
  trim line = [] \/
  exists parsed, JSON_parse (trim line) = Some parsed /\
                 forall id, ~ session_record parsed id.
Proof.
  unfold passed_over. rewrite blank_trim. split.
  - intros [Hb | (text & parsed & <-%stripped_iff & Hp & Hno)]; [by left|].
    right. by exists parsed.
  - intros [Hb | (parsed & Hp & Hno)]; [by left|].
    right. exists (trim line), parsed. split_and!; [apply trim_stripped|done..].
Qed.

Lemma scan_passed_over line rest :
  passed line -> scan (line :: rest) = scan rest.
Proof.
  intros [Hblank | (parsed & Hparse & Hnot)]%passed_over_trim; simpl.
  - by rewrite Hblank.
  - destruct (is_blank (trim line)); [done|]. rewrite Hparse.
    destruct (is_string _ _) eqn:Hty; simpl; [|done].
    destruct (is_blank _) eqn:Hid; [done|].
    exfalso. apply (Hnot (trimmed_string_or_empty (get_prop parsed (lit "id")))).
    apply session_record_trim.
    split; [by apply is_string_true|].
    unfold trimmed_string_or_empty in *.
    destruct (get_prop parsed (lit "id")) as [[| | |s| |]|]; try discriminate.
    exists s. split_and!; [done..|]. by apply is_blank_false.
Qed.

Lemma scan_malformed line rest :
  malformed JSON_parse line -> scan (line :: rest) = None.
Proof.
  intros [Hne Hparse]%malformed_trim. simpl. apply is_blank_false in Hne.
  by rewrite Hne, Hparse.
Qed.

Lemma scan_qualifies line id rest :
  qualifies JSON_parse line id -> scan (line :: rest) = Some id.
Proof.
  intros (Hne & parsed & Hparse & Hrec)%qualifies_trim.
  apply session_record_trim in Hrec as (Hty & s & Hs & Htrim & Hid). simpl.
  apply is_blank_false in Hne. apply is_string_true in Hty.
  rewrite Hne, Hparse, Hty, Hs. simpl. rewrite Htrim.
  apply is_blank_false in Hid. by rewrite Hid.
Qed.

Lemma line_trichotomy line :
  passed line \/ malformed JSON_parse line \/ exists id, qualifies JSON_parse line id.
Proof.
  rewrite passed_over_trim, malformed_trim.
  setoid_rewrite qualifies_trim. setoid_rewrite session_record_trim.
  destruct (decide (trim line = [])) as [Hb|Hb]; [by left; left|].
  destruct (JSON_parse (trim line)) as [parsed|] eqn:Hparse;
    [|by right; left].
  destruct (is_string (get_prop parsed (lit "type")) (lit "session")) eqn:Hty;
    cycle 1.
  { left. right. exists parsed. split; [done|]. intros id [Hs _].
    apply is_string_true in Hs. congruence. }
  apply is_string_true in Hty.
  assert (Hno : (forall s, get_prop parsed (lit "id") = Some (JString s) ->
                           trim s = []) ->
                trim line = [] \/
                exists parsed0, Some parsed = Some parsed0 /\
                  forall id, ~ (get_prop parsed0 (lit "type")
                                  = Some (JString (lit "session")) /\
                                exists s, get_prop parsed0 (lit "id")
                                            = Some (JString s) /\
                                          trim s = id /\ id <> [])).
  { intros Hno. right. exists parsed. split; [done|].
    intros id (_ & s & Hs & Htrim & Hne). apply Hne. rewrite <- Htrim.
    by apply Hno. }
  destruct (get_prop parsed (lit "id")) as [[| | |s| |]|] eqn:Hid;
    try (left; apply Hno; by intros ? [=]).
  destruct (decide (trim s = [])) as [Hs|Hs].
  - left. apply Hno. by intros ? [= <-].
  - right. right. exists (trim s). split; [done|]. exists parsed.
    split; [done|]. split; [done|]. by exists s.
Qed.

Lemma scan_skip before rest :
  Forall passed before -> scan (before ++ rest) = scan rest.
Proof.
  induction 1 as [|line before Hp _ IH]; [done|].
  simpl app. by rewrite scan_passed_over.
Qed.

Lemma scan_all_passed lines : Forall passed lines -> scan lines = None.
Proof.
  intros H. rewrite <- (app_nil_r lines). by rewrite scan_skip.
Qed.

Lemma scan_lines_spec lines :
  match scan lines with
  | Some id =>
      exists before line after,
        lines = before ++ line :: after /\ Forall passed before /\
        qualifies JSON_parse line id
  | None =>
      Forall passed lines \/
      exists before line after,
        lines = before ++ line :: after /\ Forall passed before /\
        malformed JSON_parse line
  end.
Proof.
  induction lines as [|line rest IH]; [by left|].
  destruct (line_trichotomy line) as [Hp | [Hm | [id Hq]]].
  - rewrite scan_passed_over by done.
    destruct (scan rest) as [id|].
    + destruct IH as (before & l & after & -> & Hb & Hq).
      exists (line :: before), l, after. split_and!; [done| |done].
      by constructor.
    + destruct IH as [Hall | (before & l & after & -> & Hb & Hm)].
      * left. by constructor.
      * right. exists (line :: before), l, after. split_and!; [done| |done].
        by constructor.
  - rewrite scan_malformed by done. right. by exists [], line, rest.
  - rewrite (scan_qualifies _ id) by done. by exists [], line, rest.
Qed.

Lemma take_header_nonempty (bytes : list Byte.byte) :
  bytes <> [] -> (length (take HEADER_READ_BYTES bytes) <=? 0)%nat = false.
Proof.
  intros Hne. destruct bytes as [|x bytes]; [done|].
  unfold HEADER_READ_BYTES. reflexivity.
Qed.

Lemma take_header_nil (bytes : list Byte.byte) :
  take HEADER_READ_BYTES bytes = [] <-> bytes = [].
Proof. split; [by destruct bytes | by intros ->]. Qed.

Lemma header_answer_unfold bytes :
  bytes <> [] ->
  answer_of bytes
  = scan (split_lines (utf8_decode (take HEADER_READ_BYTES bytes))).
Proof.
  intros Hne. unfold header_answer. cbv zeta.
  by rewrite take_header_nonempty.
Qed.

(** What the [try] block returns is what the contract prescribes for the
    bytes read. *)
Lemma header_answer_contract bytes answer :
  HeaderRead JSON_parse utf8_decode (Some (take HEADER_READ_BYTES bytes)) answer
  <-> answer_of bytes = answer.
Proof.
  destruct (decide (bytes = [])) as [->|Hne].
  { split; [|intros <-; apply HR_zero_bytes].
    inversion 1; try done. }
  rewrite (header_answer_unfold _ Hne). split.
  - intros H. remember (Some (take HEADER_READ_BYTES bytes)) as p eqn:Hp.
    destruct H as [| |prefix before line after id Hne' Hl Hb Hq
                   |prefix before line after Hne' Hl Hb Hm
                   |prefix lines Hne' Hl Hall];
      try discriminate; injection Hp as Hp.
    + symmetry in Hp. apply (proj1 (take_header_nil bytes)) in Hp. by destruct Hne.
    + subst prefix. apply lines_of_split_lines in Hl.
      rewrite Hl, scan_skip by done. by apply scan_qualifies.
    + subst prefix. apply lines_of_split_lines in Hl.
      rewrite Hl, scan_skip by done. by apply scan_malformed.
    + subst prefix. apply lines_of_split_lines in Hl. rewrite Hl.
      by apply scan_all_passed.
  - intros <-.
    assert (take HEADER_READ_BYTES bytes <> []) as Hp.
    { by rewrite take_header_nil. }
    pose proof (split_lines_lines_of
                  (utf8_decode (take HEADER_READ_BYTES bytes))) as Hl.
    pose proof (scan_lines_spec
                  (split_lines (utf8_decode (take HEADER_READ_BYTES bytes))))
      as Hspec.
    destruct (scan _) as [id|].
    + destruct Hspec as (before & line & after & Heq & Hb & Hq).
      rewrite Heq in Hl. by eapply HR_found.
    + destruct Hspec as [Hall | (before & line & after & Heq & Hb & Hm)].
      * by eapply HR_no_record.
      * rewrite Heq in Hl. by eapply HR_malformed.
Qed.

(** The contract prescribes exactly one answer for whatever was read. *)
Lemma HeaderRead_total state :
  exists answer,
    HeaderRead JSON_parse utf8_decode (prefix_read state) answer /\
    forall answer',
      HeaderRead JSON_parse utf8_decode (prefix_read state) answer' ->
      answer' = answer.
Proof.
  assert (Hnone : exists answer,
             HeaderRead JSON_parse utf8_decode None answer /\
             forall answer', HeaderRead JSON_parse utf8_decode None answer' ->
                             answer' = answer).
  { exists None. split; [constructor|]. by inversion 1. }
  assert (Hsome : forall bytes, exists answer,
             HeaderRead JSON_parse utf8_decode
               (Some (take HEADER_READ_BYTES bytes)) answer /\
             forall answer',
               HeaderRead JSON_parse utf8_decode
                 (Some (take HEADER_READ_BYTES bytes)) answer' ->
               answer' = answer).
  { intros bytes. exists (answer_of bytes).
    split; [by apply header_answer_contract|].
    intros answer' H. by apply header_answer_contract in H. }
  destruct state as [| |bytes|[bytes|]]; simpl; auto.
Qed.

(** C2: the reader and its contract.  The contract [HeaderRead]
    prescribes, for what is read of a file: not-found when the file cannot
    be opened or read or yields zero bytes; otherwise, over the lines of
    the decoded first [HEADER_READ_BYTES] = 8192 bytes, the identifier,
    without the white space around it, of the first line that is a
    "session" record with a non-blank string identifier, provided every
    earlier line is blank or parses to a record that does not qualify;
    not-found when a non-blank line fails to parse before that, or when no
    line qualifies.  The reader returns exactly the prescribed answer
    whenever [closeSync] does not throw, and its answer depends on the first
    8192 bytes only.  But no exception escapes it only then: when the file
    was opened and [closeSync] throws, the reader throws, whatever answer
    the contract prescribes for the bytes it read. *)
Theorem header_reader_contract fs sessionFile :
  N.of_nat HEADER_READ_BYTES = 8192%N /\
  (close_throws (fs sessionFile) = false ->
   forall answer,
     HeaderRead JSON_parse utf8_decode (prefix_read (fs sessionFile)) answer <->
     read fs sessionFile = Ret answer) /\
  (forall fs',
      prefix_read (fs' sessionFile) = prefix_read (fs sessionFile) ->
      close_throws (fs' sessionFile) = close_throws (fs sessionFile) ->
      read fs' sessionFile = read fs sessionFile) /\
  (close_throws (fs sessionFile) = true ->
   read fs sessionFile = Throw /\
   exists answer,
     HeaderRead JSON_parse utf8_decode (prefix_read (fs sessionFile)) answer).
Proof.
  split; [reflexivity|].
  assert (Hret : forall state,
    close_throws state = false ->
    forall answer,
      HeaderRead JSON_parse utf8_decode (prefix_read state) answer <->
      match state with
      | OpenFails | ReadFails => Ret None
      | Readable bytes => Ret (answer_of bytes)
      | CloseFails _ => Throw
      end = Ret answer).
  { intros [| |bytes|r] Hclose answer; [| | |done]; simpl.
    - split; [by inversion 1 | intros [= <-]; constructor].
    - split; [by inversion 1 | intros [= <-]; constructor].
    - rewrite header_answer_contract. split; [by intros -> | by intros [= ->]]. }
  split_and!.
  - intros Hclose answer. by apply Hret.
  - intros fs' Hprefix Hclose. unfold readSessionIdFromTranscript.
    destruct (fs' sessionFile) as [| |bytes'|r'] eqn:Hfs',
             (fs sessionFile) as [| |bytes|r] eqn:Hfs;
      simpl in Hprefix, Hclose; try done.
    injection Hprefix as Hprefix. unfold header_answer. by rewrite Hprefix.
  - intros Hclose. split.
    + unfold readSessionIdFromTranscript.
      by destruct (fs sessionFile).
    + destruct (HeaderRead_total (fs sessionFile)) as (answer & H & _).
      by exists answer.
Qed.

End HeaderReaderFacts.

Lemma header_reader_contract_witness :
  readSessionIdFromTranscript Demo.parse Demo.decode Demo.stuck_fs Demo.a_log
    = Throw /\
  exists answer,
    HeaderRead Demo.parse Demo.decode (prefix_read (Demo.stuck_fs Demo.a_log))
      answer.
Proof.
  apply (header_reader_contract Demo.parse Demo.decode Demo.stuck_fs Demo.a_log).
  reflexivity.
Defined.

(** The reader at the failing input, and at the same bytes when the file
    closes: the identifier it had found is lost to the exception. *)
Lemma header_reader_close_failure :
  readSessionIdFromTranscript Demo.parse Demo.decode Demo.fs Demo.a_log
    = Ret (Some (lit "sess-42")) /\
  prefix_read (Demo.stuck_fs Demo.a_log) = prefix_read (Demo.fs Demo.a_log) /\
  readSessionIdFromTranscript Demo.parse Demo.decode Demo.stuck_fs Demo.a_log
    = Throw.
Proof. vm_compute. by split_and!. Qed.

(** ** [handleUpdate] follows the state machine *)

Section PathFacts.

Variable JSON_parse : jsstring -> option JsValue.
Variable utf8_decode : list Byte.byte -> jsstring.
Variable clock : nat -> Z.
Variable uuid : nat -> jsstring.
Variable has_log : bool.
Variable env : Env.

Local Abbreviation handle := (handleUpdate JSON_parse utf8_decode clock uuid has_log env).
Local Abbreviation Handled' := (Handled JSON_parse utf8_decode clock uuid has_log env).
Local Abbreviation IdStep := (IdentifierStep JSON_parse utf8_decode clock env).
Local Abbreviation KStep := (KeyStep clock has_log env).
Local Abbreviation id_step := (identifier_step JSON_parse utf8_decode clock env).
Local Abbreviation k_step := (key_step clock has_log env).
Local Abbreviation e_step := (emit_step clock uuid env).
Local Abbreviation r_steps := (resolve_steps clock uuid has_log env).
Local Abbreviation s_path := (slow_path JSON_parse utf8_decode clock uuid has_log env).

Lemma bind_ret {A B} (m : M A) (k : A -> M B) w a w' :
  m w = (Ret a, w') -> bind m k w = k a w'.
Proof. intros H. unfold bind. by rewrite H. Qed.

Lemma bind_throw {A B} (m : M A) (k : A -> M B) w w' :
  m w = (Throw, w') -> bind m k w = (Throw, w').
Proof. intros H. unfold bind. by rewrite H. Qed.

Lemma getCached_cases c key w :
  (cache_of c w !! key = None /\ getCached clock c key w = (Ret None, w)) \/
  (exists e, cache_of c w !! key = Some e /\
             clock (ticks w) - ts e > CACHE_TTL_MS /\
             getCached clock c key w =
               (Ret None,
                with_cache c (delete key (cache_of c w))
                  (with_ticks (S (ticks w)) w))) \/
  (exists e, cache_of c w !! key = Some e /\
             clock (ticks w) - ts e <= CACHE_TTL_MS /\
             getCached clock c key w =
               (Ret (Some (value e)), with_ticks (S (ticks w)) w)).
Proof.
  destruct (cache_of c w !! key) as [e|] eqn:He.
  - destruct (Z_le_gt_dec (clock (ticks w) - ts e) CACHE_TTL_MS).
    + right. right. exists e. split_and!; [done..|]. by apply (getCached_live _ _ _ e).
    + right. left. exists e. split_and!; [done..|]. by apply (getCached_expired _ _ _ e).
  - left. split; [done|]. by apply getCached_absent.
Qed.

Lemma hit_or_miss c key w :
  (exists v w', hit clock c key w v w') \/ (exists w', miss clock c key w w').
Proof.
  destruct (getCached_cases c key w)
    as [[_ Hg] | [(e & _ & _ & Hg) | (e & _ & _ & Hg)]].
  - right. eexists. exists None. by split.
  - right. eexists. exists None. by split.
  - destruct (value e) as [|a v] eqn:Hv.
    + right. eexists. exists (Some []). by split.
    + left. exists (a :: v). eexists. by split.
Qed.

Lemma handleUpdate_unfold sessionFile :
  handle sessionFile =
    (cachedKey <- getCached clock KeyByFile sessionFile ;;
     match cachedKey with
     | Some ((_ :: _) as cachedKey) =>
         u <- randomUUID uuid ;;
         broadcast env (lit "chat")
           (chat_payload (lit "transcript-" ++ u) cachedKey) drop_if_slow
     | _ => s_path sessionFile
     end).
Proof. reflexivity. Qed.

Lemma identifier_step_spec {B} sessionFile (k : option jsstring -> M B) w :
  let run := (cachedId <- getCached clock IdByFile sessionFile ;;
              sessionId <- id_step sessionFile cachedId ;;
              k sessionId) w in
  (exists r w', IdStep sessionFile w r w' /\ run = k r w') \/
  (exists w1, miss clock IdByFile sessionFile w w1 /\
              header_of JSON_parse utf8_decode env sessionFile = Throw /\
              run = (Throw, log_event (EvReadHeader sessionFile) w1)).
Proof.
  intros run. subst run.
  assert (Hread : forall w1 c,
    miss clock IdByFile sessionFile w w1 -> truthy c = false ->
    let run := (sessionId <- id_step sessionFile c ;; k sessionId) w1 in
    (exists r w', IdStep sessionFile w r w' /\ run = k r w') \/
    (header_of JSON_parse utf8_decode env sessionFile = Throw /\
     run = (Throw, log_event (EvReadHeader sessionFile) w1))).
  { intros w1 c Hmiss Hc run. subst run.
    assert (id_step sessionFile c = id_step sessionFile None)
      as -> by (by destruct c as [[|]|]).
    unfold identifier_step, bind, call_readSessionIdFromTranscript.
    destruct (readSessionIdFromTranscript _ _ _ _) as [[[|a sid]|]|] eqn:Hread.
    - left. eexists _, _. split; [|reflexivity].
      by apply (Id_not_found JSON_parse utf8_decode clock env sessionFile w
                  (Some []) w1).
    - left. eexists _, _. split; [|reflexivity].
      by apply (Id_read JSON_parse utf8_decode clock env sessionFile w
                  (a :: sid) w1).
    - left. eexists _, _. split; [|reflexivity].
      by apply (Id_not_found JSON_parse utf8_decode clock env sessionFile w
                  None w1).
    - by right. }
  destruct (hit_or_miss IdByFile sessionFile w)
    as [(v & w1 & Hhit) | (w1 & Hmiss)].
  - pose proof Hhit as [Hg Hne]. rewrite (bind_ret _ _ _ _ _ Hg).
    destruct v as [|a v]; [done|]. left. eexists _, _. split; [|reflexivity].
    by constructor.
  - pose proof Hmiss as (r & Hg & Hr). rewrite (bind_ret _ _ _ _ _ Hg).
    destruct (Hread w1 r Hmiss Hr) as [?|[? ?]]; [by left|].
    right. by exists w1.
Qed.

Lemma warn_eq msg w :
  warn has_log env msg w
  = (warn_result has_log env msg,
     if has_log then log_event (EvWarn msg) w else w).
Proof.
  unfold warn, warn_result. by destruct has_log, (warn_ok env msg).
Qed.

Lemma key_step_spec {B} sessionId (k : option jsstring -> M B) w :
  exists r w',
    KStep sessionId w r w' /\
    (cachedById <- getCached clock KeyById sessionId ;;
     sessionKey <- k_step sessionId cachedById ;;
     k sessionKey) w
    = match r with Ret a => k a w' | Throw => (Throw, w') end.
Proof.
  assert (Hresolve : forall w1 c,
    miss clock KeyById sessionId w w1 -> truthy c = false ->
    exists r w',
      KStep sessionId w r w' /\
      (sessionKey <- k_step sessionId c ;; k sessionKey) w1
      = match r with Ret a => k a w' | Throw => (Throw, w') end).
  { intros w1 c Hmiss Hc.
    assert (k_step sessionId c = k_step sessionId None)
      as -> by (by destruct c as [[|]|]).
    unfold key_step, bind, resolveSessionKeyForSessionId.
    destruct (store env) as [entries|] eqn:Hstore.
    - assert (Hnone : truthy (scan_store entries sessionId) = false ->
        exists r w',
          KStep sessionId w r w' /\
          match
            match warn has_log env (not_found_message sessionId)
                    (log_event (EvResolve sessionId) w1) with
            | (Ret _, w') => ret None w'
            | (Throw, w') => (Throw, w')
            end
          with
          | (Ret a, w') => k a w'
          | (Throw, w') => (Throw, w')
          end
          = match r with Ret a => k a w' | Throw => (Throw, w') end).
      { intros Hfalsy. rewrite warn_eq.
        destruct (warn_result has_log env (not_found_message sessionId))
          as [[]|] eqn:Hwarn.
        - exists (Ret None). eexists. split; [|reflexivity].
          pose proof (Key_unresolved clock has_log env sessionId w entries w1
                        Hmiss Hstore Hfalsy Hwarn) as Hk.
          by rewrite warn_eq in Hk.
        - exists Throw. eexists. split; [|reflexivity].
          pose proof (Key_warn_throws clock has_log env sessionId w entries w1
                        Hmiss Hstore Hfalsy Hwarn) as Hk.
          by rewrite warn_eq in Hk. }
      destruct (scan_store entries sessionId) as [[|a key]|] eqn:Hscan.
      + by apply Hnone.
      + exists (Ret (Some (a :: key))). eexists. split; [|reflexivity].
        by apply (Key_resolved clock has_log env sessionId w entries
                    (a :: key) w1).
      + by apply Hnone.
    - exists Throw. eexists. split; [|reflexivity]. by constructor. }
  destruct (hit_or_miss KeyById sessionId w)
    as [(v & w1 & Hhit) | (w1 & Hmiss)].
  - pose proof Hhit as [Hg Hne]. rewrite (bind_ret _ _ _ _ _ Hg).
    destruct v as [|a v]; [done|]. exists (Ret (Some (a :: v))). eexists.
    split; [|reflexivity]. by constructor.
  - pose proof Hmiss as (r & Hg & Hr). rewrite (bind_ret _ _ _ _ _ Hg).
    by apply Hresolve.
Qed.

Lemma IdentifierStep_nonempty sessionFile w sessionId w' :
  IdStep sessionFile w (Some sessionId) w' -> sessionId <> [].
Proof. inversion 1 as [? ? [_ Hne]| |]; by subst. Qed.

Lemma KeyStep_nonempty sessionId w sessionKey w' :
  KStep sessionId w (Ret (Some sessionKey)) w' -> sessionKey <> [].
Proof. inversion 1 as [? ? [_ Hne]| | | |]; by subst. Qed.

(** Every run of [handleUpdate] is one of the six paths. *)
Lemma handleUpdate_Handled sessionFile w :
  Handled' sessionFile w (handle sessionFile w).1 (handle sessionFile w).2.
Proof.
  rewrite handleUpdate_unfold.
  destruct (hit_or_miss KeyByFile sessionFile w)
    as [(v & w1 & Hhit) | (w1 & Hmiss)].
  - pose proof Hhit as [Hg Hne]. rewrite (bind_ret _ _ _ _ _ Hg).
    destruct v as [|a v]; [done|].
    by apply (Handled_fast JSON_parse utf8_decode clock uuid has_log env
                sessionFile w (a :: v) w1).
  - pose proof Hmiss as (r & Hg & Hr). rewrite (bind_ret _ _ _ _ _ Hg).
    replace (match r with
             | Some ((_ :: _) as cachedKey) => _
             | _ => s_path sessionFile
             end) with (s_path sessionFile) by (by destruct r as [[|]|]).
    unfold slow_path.
    destruct (identifier_step_spec sessionFile (r_steps sessionFile) w1)
      as [(sid & w2 & Hid & ->) | (w2 & Hmiss2 & Hthrow & ->)]; cycle 1.
    { by apply (Handled_reader_throws JSON_parse utf8_decode clock uuid
                  has_log env sessionFile w w1 w2). }
    destruct sid as [sid|]; cycle 1.
    { by apply (Handled_no_header JSON_parse utf8_decode clock uuid has_log
                  env sessionFile w w1). }
    pose proof (IdentifierStep_nonempty _ _ _ _ Hid) as Hsid.
    destruct sid as [|a sid]; [done|]. unfold resolve_steps.
    destruct (key_step_spec (a :: sid) (e_step sessionFile (a :: sid)) w2)
      as (key & w3 & Hkey & ->).
    destruct key as [[key|]|].
    + pose proof (KeyStep_nonempty _ _ _ _ Hkey) as Hk.
      destruct key as [|b key]; [done|].
      by apply (Handled_resolved JSON_parse utf8_decode clock uuid has_log
                  env sessionFile w (a :: sid) (b :: key) w1 w2 w3).
    + by apply (Handled_unresolved JSON_parse utf8_decode clock uuid has_log
                  env sessionFile w (a :: sid) w1 w2 w3).
    + by apply (Handled_key_throws JSON_parse utf8_decode clock uuid
                  has_log env sessionFile w (a :: sid) w1 w2 w3).
Qed.

End PathFacts.

(** ** A path determines the run *)

Section PathSoundness.

Variable JSON_parse : jsstring -> option JsValue.
Variable utf8_decode : list Byte.byte -> jsstring.
Variable clock : nat -> Z.
Variable uuid : nat -> jsstring.
Variable has_log : bool.
Variable env : Env.

Local Abbreviation handle := (handleUpdate JSON_parse utf8_decode clock uuid has_log env).
Local Abbreviation Handled' := (Handled JSON_parse utf8_decode clock uuid has_log env).
Local Abbreviation IdStep := (IdentifierStep JSON_parse utf8_decode clock env).
Local Abbreviation KStep := (KeyStep clock has_log env).
Local Abbreviation id_step := (identifier_step JSON_parse utf8_decode clock env).
Local Abbreviation k_step := (key_step clock has_log env).

Lemma identifier_step_falsy sessionFile c :
  truthy c = false -> id_step sessionFile c = id_step sessionFile None.
Proof. by destruct c as [[|]|]. Qed.

Lemma key_step_falsy sessionId c :
  truthy c = false -> k_step sessionId c = k_step sessionId None.
Proof. by destruct c as [[|]|]. Qed.

Lemma IdentifierStep_sound {B} sessionFile w r w' (k : option jsstring -> M B) :
  IdStep sessionFile w r w' ->
  (cachedId <- getCached clock IdByFile sessionFile ;;
   sessionId <- id_step sessionFile cachedId ;;
   k sessionId) w = k r w'.
Proof.
  intros [sid w1 [Hg Hne] | sid w1 (c & Hg & Hc) Hread Hne
          | rd w1 (c & Hg & Hc) Hread Hfalsy];
    rewrite (bind_ret _ _ _ _ _ Hg).
  - by destruct sid.
  - rewrite identifier_step_falsy by done.
    unfold identifier_step, bind, call_readSessionIdFromTranscript.
    unfold header_of in Hread. rewrite Hread. by destruct sid.
  - rewrite identifier_step_falsy by done.
    unfold identifier_step, bind, call_readSessionIdFromTranscript.
    unfold header_of in Hread. rewrite Hread. by destruct rd as [[|]|].
Qed.

Lemma KeyStep_sound {B} sessionId w r w' (k : option jsstring -> M B) :
  KStep sessionId w r w' ->
  (cachedById <- getCached clock KeyById sessionId ;;
   sessionKey <- k_step sessionId cachedById ;;
   k sessionKey) w
  = match r with Ret a => k a w' | Throw => (Throw, w') end.
Proof.
  assert (Hnone : forall entries w1 out,
    store env = Some entries ->
    truthy (scan_store entries sessionId) = false ->
    warn_result has_log env (not_found_message sessionId) = out ->
    (sessionKey <- k_step sessionId None ;; k sessionKey) w1
    = match out with
      | Ret _ => k None (warn has_log env (not_found_message sessionId)
                           (log_event (EvResolve sessionId) w1)).2
      | Throw => (Throw, (warn has_log env (not_found_message sessionId)
                            (log_event (EvResolve sessionId) w1)).2)
      end).
  { intros entries w1 out Hstore Hscan Hwarn.
    unfold key_step, bind, resolveSessionKeyForSessionId. rewrite Hstore.
    assert (warn has_log env
              (lit "transcript update ignored; session key not found ("
                 ++ sessionId ++ lit ")")
              (log_event (EvResolve sessionId) w1)
            = (out, (warn has_log env (not_found_message sessionId)
                       (log_event (EvResolve sessionId) w1)).2)) as Hw.
    { change (lit "transcript update ignored; session key not found ("
                ++ sessionId ++ lit ")") with (not_found_message sessionId).
      rewrite !warn_eq. by rewrite Hwarn. }
    destruct (scan_store entries sessionId) as [[|]|]; try done;
      rewrite Hw; by destruct out as [[]|]. }
  intros [key w1 [Hg Hne] | entries key w1 (c & Hg & Hc) Hstore Hscan Hne
          | entries w1 (c & Hg & Hc) Hstore Hscan Hwarn
          | entries w1 (c & Hg & Hc) Hstore Hscan Hwarn
          | w1 (c & Hg & Hc) Hstore];
    rewrite (bind_ret _ _ _ _ _ Hg).
  - by destruct key.
  - rewrite key_step_falsy by done.
    unfold key_step, bind, resolveSessionKeyForSessionId.
    rewrite Hstore, Hscan. by destruct key.
  - rewrite key_step_falsy by done.
    by rewrite (Hnone _ _ _ Hstore Hscan Hwarn).
  - rewrite key_step_falsy by done.
    by rewrite (Hnone _ _ _ Hstore Hscan Hwarn).
  - rewrite key_step_falsy by done.
    unfold key_step, bind, resolveSessionKeyForSessionId. by rewrite Hstore.
Qed.

(** A path determines the run. *)
Lemma Handled_sound sessionFile w r w' :
  Handled' sessionFile w r w' -> handle sessionFile w = (r, w').
Proof.
  intros Hh. rewrite handleUpdate_unfold.
  assert (Hslow : forall w1 c,
    getCached clock KeyByFile sessionFile w = (Ret c, w1) ->
    truthy c = false ->
    (cachedKey <- getCached clock KeyByFile sessionFile ;;
     match cachedKey with
     | Some ((_ :: _) as cachedKey) =>
         u <- randomUUID uuid ;;
         broadcast env (lit "chat")
           (chat_payload (lit "transcript-" ++ u) cachedKey) drop_if_slow
     | _ => slow_path JSON_parse utf8_decode clock uuid has_log env sessionFile
     end) w
    = slow_path JSON_parse utf8_decode clock uuid has_log env sessionFile w1).
  { intros w1 c Hg Hc. rewrite (bind_ret _ _ _ _ _ Hg).
    by destruct c as [[|]|]. }
  destruct Hh as [key w1 [Hg Hne] | w1 w2 (c & Hg & Hc) Hid
                  | w1 w2 (c & Hg & Hc) (c2 & Hg2 & Hc2) Hthrow
                  | sid w1 w2 w3 (c & Hg & Hc) Hid Hkey
                  | sid w1 w2 w3 (c & Hg & Hc) Hid Hkey
                  | sid key w1 w2 w3 (c & Hg & Hc) Hid Hkey].
  - rewrite (bind_ret _ _ _ _ _ Hg). by destruct key.
  - rewrite (Hslow _ _ Hg Hc). unfold slow_path.
    by rewrite (IdentifierStep_sound _ _ _ _ _ Hid).
  - rewrite (Hslow _ _ Hg Hc). unfold slow_path.
    rewrite (bind_ret _ _ _ _ _ Hg2), identifier_step_falsy by done.
    unfold identifier_step, bind, call_readSessionIdFromTranscript.
    unfold header_of in Hthrow. by rewrite Hthrow.
  - rewrite (Hslow _ _ Hg Hc). unfold slow_path.
    rewrite (IdentifierStep_sound _ _ _ _ _ Hid).
    pose proof (IdentifierStep_nonempty _ _ _ _ _ _ _ _ Hid).
    destruct sid; [done|]. unfold resolve_steps.
    by rewrite (KeyStep_sound _ _ _ _ _ Hkey).
  - rewrite (Hslow _ _ Hg Hc). unfold slow_path.
    rewrite (IdentifierStep_sound _ _ _ _ _ Hid).
    pose proof (IdentifierStep_nonempty _ _ _ _ _ _ _ _ Hid).
    destruct sid; [done|]. unfold resolve_steps.
    by rewrite (KeyStep_sound _ _ _ _ _ Hkey).
  - rewrite (Hslow _ _ Hg Hc). unfold slow_path.
    rewrite (IdentifierStep_sound _ _ _ _ _ Hid).
    pose proof (IdentifierStep_nonempty _ _ _ _ _ _ _ _ Hid).
    destruct sid; [done|]. unfold resolve_steps.
    rewrite (KeyStep_sound _ _ _ _ _ Hkey).
    pose proof (KeyStep_nonempty _ _ _ _ _ _ _ Hkey).
    by destruct key.
Qed.

End PathSoundness.

(** ** What each path leaves in the trace *)

Lemma new_events_app w w' evs :
  trace w' = trace w ++ evs -> new_events w w' = evs.
Proof. intros H. unfold new_events. rewrite H. by rewrite drop_app_length. Qed.

Section TraceFacts.

Variable JSON_parse : jsstring -> option JsValue.
Variable utf8_decode : list Byte.byte -> jsstring.
Variable clock : nat -> Z.
Variable uuid : nat -> jsstring.
Variable has_log : bool.
Variable env : Env.

Local Abbreviation handle := (handleUpdate JSON_parse utf8_decode clock uuid has_log env).
Local Abbreviation Handled' := (Handled JSON_parse utf8_decode clock uuid has_log env).
Local Abbreviation IdStep := (IdentifierStep JSON_parse utf8_decode clock env).
Local Abbreviation KStep := (KeyStep clock has_log env).
Local Abbreviation header := (header_of JSON_parse utf8_decode env).

Lemma hit_inv c key w v w' :
  hit clock c key w v w' ->
  exists e, cache_of c w !! key = Some e /\ value e = v /\
            clock (ticks w) - ts e <= CACHE_TTL_MS /\
            w' = with_ticks (S (ticks w)) w.
Proof.
  intros [Hg Hne].
  destruct (getCached_cases clock c key w)
    as [[_ Hg'] | [(e & _ & _ & Hg') | (e & He & Hlive & Hg')]];
    rewrite Hg' in Hg; try discriminate.
  injection Hg as <- <-. by exists e.
Qed.

Lemma miss_inv c key w w' :
  miss clock c key w w' ->
  (cache_of c w !! key = None /\ w' = w) \/
  (exists e, cache_of c w !! key = Some e /\
             clock (ticks w) - ts e > CACHE_TTL_MS /\
             w' = with_cache c (delete key (cache_of c w))
                    (with_ticks (S (ticks w)) w)) \/
  (exists e, cache_of c w !! key = Some e /\ value e = [] /\
             clock (ticks w) - ts e <= CACHE_TTL_MS /\
             w' = with_ticks (S (ticks w)) w).
Proof.
  intros (r & Hg & Hr).
  destruct (getCached_cases clock c key w)
    as [[Hn Hg'] | [(e & He & Hexp & Hg') | (e & He & Hlive & Hg')]];
    rewrite Hg' in Hg; injection Hg as <- <-.
  - by left.
  - right. left. by exists e.
  - right. right. exists e. split_and!; [done| |done..].
    simpl in Hr. by destruct (value e).
Qed.

Lemma trace_with_cache c m w : trace (with_cache c m w) = trace w.
Proof. by destruct c. Qed.

Lemma drawn_with_cache c m w : drawn (with_cache c m w) = drawn w.
Proof. by destruct c. Qed.

Lemma hit_frame c key w v w' :
  hit clock c key w v w' -> trace w' = trace w /\ drawn w' = drawn w.
Proof. intros (e & _ & _ & _ & ->)%hit_inv. done. Qed.

Lemma miss_frame c key w w' :
  miss clock c key w w' -> trace w' = trace w /\ drawn w' = drawn w.
Proof.
  intros [[_ ->] | [(e & _ & _ & ->) | (e & _ & _ & _ & ->)]]%miss_inv;
    by rewrite ?trace_with_cache, ?drawn_with_cache.
Qed.

Lemma setCached_frame c key v w :
  trace (setCached clock c key v w).2 = trace w /\
  drawn (setCached clock c key v w).2 = drawn w.
Proof.
  rewrite setCached_eq. simpl. by rewrite trace_with_cache, drawn_with_cache.
Qed.

Lemma IdentifierStep_trace sessionFile w r w' :
  IdStep sessionFile w r w' ->
  drawn w' = drawn w /\
  exists reads,
    trace w' = trace w ++ reads /\
    Forall (fun e => is_lookup e = true) reads /\
    match r with
    | Some sessionId => sessionId <> []
    | None => reads = [EvReadHeader sessionFile] /\
              reports_not_found (header sessionFile)
    end.
Proof.
  intros [sid w1 Hhit | sid w1 Hmiss Hread Hne | rd w1 Hmiss Hread Hfalsy].
  - destruct (hit_frame _ _ _ _ _ Hhit) as [-> ->]. split; [done|].
    exists []. rewrite app_nil_r. split; [done|]. split; [constructor|].
    apply Hhit.
  - destruct (miss_frame _ _ _ _ Hmiss) as [Ht Hd].
    destruct (setCached_frame IdByFile sessionFile sid
                (log_event (EvReadHeader sessionFile) w1)) as [-> ->].
    simpl. rewrite Ht, Hd. split; [done|].
    exists [EvReadHeader sessionFile]. split; [done|].
    split; [by repeat constructor | done].
  - destruct (miss_frame _ _ _ _ Hmiss) as [Ht Hd]. simpl. rewrite Ht, Hd.
    split; [done|]. exists [EvReadHeader sessionFile]. split; [done|].
    split; [by repeat constructor|]. split; [done | by exists rd].
Qed.

Lemma KeyStep_trace sessionId w r w' :
  KStep sessionId w r w' ->
  drawn w' = drawn w /\
  match r with
  | Ret (Some sessionKey) =>
      sessionKey <> [] /\
      (trace w' = trace w \/ trace w' = trace w ++ [EvResolve sessionId])
  | Ret None =>
      trace w' = trace w ++ [EvResolve sessionId]
                   ++ (if has_log
                       then [EvWarn (not_found_message sessionId)]
                       else []) /\
      exists entries, store env = Some entries /\
                      truthy (scan_store entries sessionId) = false
  | Throw =>
      (trace w' = trace w ++ [EvResolve sessionId] /\ store env = None) \/
      (trace w' = trace w ++ [EvResolve sessionId]
                    ++ (if has_log
                        then [EvWarn (not_found_message sessionId)]
                        else []) /\
       warn_result has_log env (not_found_message sessionId) = Throw /\
       exists entries, store env = Some entries /\
                       truthy (scan_store entries sessionId) = false)
  end.
Proof.
  assert (Hwarn_trace : forall w1,
    miss clock KeyById sessionId w w1 ->
    drawn (warn has_log env (not_found_message sessionId)
             (log_event (EvResolve sessionId) w1)).2 = drawn w /\
    trace (warn has_log env (not_found_message sessionId)
             (log_event (EvResolve sessionId) w1)).2
    = trace w ++ [EvResolve sessionId]
        ++ (if has_log then [EvWarn (not_found_message sessionId)] else [])).
  { intros w1 Hmiss. destruct (miss_frame _ _ _ _ Hmiss) as [Ht Hd].
    unfold warn. destruct has_log; simpl; rewrite Ht, Hd; [|done].
    by rewrite <- app_assoc. }
  intros [key w1 Hhit | entries key w1 Hmiss Hstore Hscan Hne
          | entries w1 Hmiss Hstore Hscan Hwarn
          | entries w1 Hmiss Hstore Hscan Hwarn | w1 Hmiss Hstore].
  - destruct (hit_frame _ _ _ _ _ Hhit) as [-> ->]. split; [done|].
    split; [apply Hhit | by left].
  - destruct (miss_frame _ _ _ _ Hmiss) as [Ht Hd].
    destruct (setCached_frame KeyById sessionId key
                (log_event (EvResolve sessionId) w1)) as [-> ->].
    simpl. rewrite Ht, Hd. split; [done|]. split; [done | by right].
  - destruct (Hwarn_trace w1 Hmiss) as [Hd Ht].
    split; [done|]. split; [done | by exists entries].
  - destruct (Hwarn_trace w1 Hmiss) as [Hd Ht].
    split; [done|]. right. split; [done|]. split; [done | by exists entries].
  - destruct (miss_frame _ _ _ _ Hmiss) as [Ht Hd]. simpl. rewrite Ht, Hd.
    split; [done | by left].
Qed.

End TraceFacts.

Lemma warnings_app a b : warnings (a ++ b) = warnings a ++ warnings b.
Proof. apply omap_app. Qed.

Lemma runIds_app a b : runIds (a ++ b) = runIds a ++ runIds b.
Proof. apply omap_app. Qed.

Lemma sessionKeys_app a b : sessionKeys (a ++ b) = sessionKeys a ++ sessionKeys b.
Proof. apply omap_app. Qed.

Lemma lookups_silent evs :
  Forall (fun e => is_lookup e = true) evs ->
  warnings evs = [] /\ runIds evs = [] /\ sessionKeys evs = [] /\
  filter (fun e => is_broadcast e = true) evs = [].
Proof.
  induction 1 as [|e evs He _ (IH1 & IH2 & IH3 & IH4)]; [done|].
  destruct e; try discriminate; simpl;
    rewrite ?filter_cons_False by (simpl; congruence); done.
Qed.

(** ** The paths, summarised *)

Section Summary.

Variable JSON_parse : jsstring -> option JsValue.
Variable utf8_decode : list Byte.byte -> jsstring.
Variable clock : nat -> Z.
Variable uuid : nat -> jsstring.
Variable has_log : bool.
Variable env : Env.

Local Abbreviation handle := (handleUpdate JSON_parse utf8_decode clock uuid has_log env).
Local Abbreviation Handled' := (Handled JSON_parse utf8_decode clock uuid has_log env).
Local Abbreviation IdStep := (IdentifierStep JSON_parse utf8_decode clock env).
Local Abbreviation KStep := (KeyStep clock has_log env).
Local Abbreviation header := (header_of JSON_parse utf8_decode env).

(** The trace and the UUID counter along each path;
    [lookups] are the reader and resolver calls made on the way. *)
Lemma Handled_trace sessionFile w r w' :
  Handled' sessionFile w r w' ->
  exists lookups,
    Forall (fun e => is_lookup e = true) lookups /\
    ((exists key w1,
         hit clock KeyByFile sessionFile w key w1 /\
         r = sink_result env /\ drawn w' = S (drawn w) /\
         (exists e, sessionKeyByFile w' !! sessionFile = Some e /\
                    value e = key) /\
         trace w' = trace w
                      ++ [broadcast_event (fast_runId (uuid (drawn w))) key]) \/
     (exists w1,
         miss clock KeyByFile sessionFile w w1 /\
         gives_no_identifier (header sessionFile) /\
         r = reader_outcome (header sessionFile) /\ drawn w' = drawn w /\
         trace w' = trace w ++ [EvReadHeader sessionFile]) \/
     (exists w1 sid,
         miss clock KeyByFile sessionFile w w1 /\
         Unresolvable JSON_parse utf8_decode clock env sessionFile w sid /\
         r = warn_result has_log env (not_found_message sid) /\
         drawn w' = drawn w /\
         trace w' = trace w ++ lookups ++ [EvResolve sid]
                      ++ (if has_log then [EvWarn (not_found_message sid)]
                          else [])) \/
     (exists w1 sid,
         miss clock KeyByFile sessionFile w w1 /\
         store env = None /\
         r = Throw /\ drawn w' = drawn w /\
         trace w' = trace w ++ lookups ++ [EvResolve sid]) \/
     (exists w1 sid key,
         miss clock KeyByFile sessionFile w w1 /\
         sid <> [] /\ key <> [] /\
         r = sink_result env /\ drawn w' = S (drawn w) /\
         (exists e, sessionKeyByFile w' !! sessionFile = Some e /\
                    value e = key) /\
         trace w' = trace w ++ lookups
                      ++ [broadcast_event (resolved_runId sid (uuid (drawn w)))
                            key])).
Proof.
  assert (Hunres : forall sid w1 w2 w3 r0,
    miss clock KeyByFile sessionFile w w1 ->
    IdStep sessionFile w1 (Some sid) w2 ->
    KStep sid w2 r0 w3 ->
    match r0 with Ret (Some _) => False | _ => True end ->
    (exists entries, store env = Some entries /\
                     truthy (scan_store entries sid) = false) ->
    Unresolvable JSON_parse utf8_decode clock env sessionFile w sid).
  { intros sid w1 w2 w3 r0 Hmiss Hid Hkey Hr0 (entries & Hstore & Hscan).
    destruct Hkey as [key w2' Hhit | entries' key w2' Hmiss' Hstore' Hscan' Hne
                      | entries' w2' Hmiss' _ _ _
                      | entries' w2' Hmiss' _ _ _ | w2' Hmiss' Hstore'];
      try done.
    - by exists w1, w2, w2', entries.
    - by exists w1, w2, w2', entries.
    - congruence. }
  intros [key w1 Hhit | w1 w2 Hmiss Hid
          | w1 w2 Hmiss Hmiss2 Hthrow
          | sid w1 w2 w3 Hmiss Hid Hkey
          | sid w1 w2 w3 Hmiss Hid Hkey
          | sid key w1 w2 w3 Hmiss Hid Hkey].
  - exists []. split; [constructor|]. left. exists key, w1.
    destruct (hit_frame _ _ _ _ _ _ Hhit) as [Ht Hd].
    split; [done|]. split; [done|]. split; [by rewrite <- Hd|].
    split; [|unfold emitted; simpl; by rewrite Ht, Hd].
    destruct (hit_inv _ _ _ _ _ _ Hhit) as (e & He & Hv & _ & ->).
    by exists e.
  - destruct (miss_frame _ _ _ _ _ Hmiss) as [Ht Hd].
    destruct (IdentifierStep_trace _ _ _ _ _ _ _ _ Hid)
      as (Hd2 & reads & Ht2 & Hreads & -> & Hnone).
    exists [EvReadHeader sessionFile]. split; [done|]. right. left.
    exists w1. rewrite Ht2, Hd2, Ht, Hd. split_and!; [done|by left| |done..].
    by destruct Hnone as (rd & -> & _).
  - destruct (miss_frame _ _ _ _ _ Hmiss) as [Ht Hd].
    destruct (miss_frame _ _ _ _ _ Hmiss2) as [Ht2 Hd2].
    exists [EvReadHeader sessionFile]. split; [by repeat constructor|].
    right. left. exists w1. simpl. rewrite Ht2, Hd2, Ht, Hd.
    split_and!; [done|by right| |done..]. by rewrite Hthrow.
  - destruct (miss_frame _ _ _ _ _ Hmiss) as [Ht Hd].
    destruct (IdentifierStep_trace _ _ _ _ _ _ _ _ Hid)
      as (Hd2 & reads & Ht2 & Hreads & Hsid).
    destruct (KeyStep_trace _ _ _ _ _ _ _ Hkey) as (Hd3 & Ht3 & Hstore).
    exists reads. split; [done|]. right. right. left. exists w1, sid.
    split; [done|]. split; [by apply (Hunres sid w1 w2 w3 (Ret None))|].
    rewrite Ht3, Hd3, Ht2, Hd2, Ht, Hd. split_and!; [|done|by rewrite <- !app_assoc].
    inversion Hkey; by subst.
  - destruct (miss_frame _ _ _ _ _ Hmiss) as [Ht Hd].
    destruct (IdentifierStep_trace _ _ _ _ _ _ _ _ Hid)
      as (Hd2 & reads & Ht2 & Hreads & Hsid).
    destruct (KeyStep_trace _ _ _ _ _ _ _ Hkey)
      as (Hd3 & [[Ht3 Hstore] | (Ht3 & Hwarn & Hstore)]).
    + exists reads. split; [done|]. do 3 right. left. exists w1, sid.
      rewrite Ht3, Hd3, Ht2, Hd2, Ht, Hd. by rewrite <- !app_assoc.
    + exists reads. split; [done|]. right. right. left. exists w1, sid.
      split; [done|]. split; [by apply (Hunres sid w1 w2 w3 Throw)|].
      rewrite Ht3, Hd3, Ht2, Hd2, Ht, Hd. by rewrite <- !app_assoc.
  - destruct (miss_frame _ _ _ _ _ Hmiss) as [Ht Hd].
    destruct (IdentifierStep_trace _ _ _ _ _ _ _ _ Hid)
      as (Hd2 & reads & Ht2 & Hreads & Hsid).
    destruct (KeyStep_trace _ _ _ _ _ _ _ Hkey) as (Hd3 & Hk & Ht3).
    destruct (setCached_frame clock KeyByFile sessionFile key w3) as [Ht4 Hd4].
    assert (Hall : exists resolves,
               Forall (fun e => is_lookup e = true) resolves /\
               trace w3 = trace w ++ reads ++ resolves).
    { destruct Ht3 as [Ht3|Ht3]; rewrite Ht3, Ht2, Ht.
      - exists []. by rewrite app_nil_r.
      - exists [EvResolve sid]. split; [by repeat constructor|].
        by rewrite <- app_assoc. }
    destruct Hall as (resolves & Hres & Ht3').
    exists (reads ++ resolves). split; [by apply Forall_app|].
    do 4 right. exists w1, sid, key. unfold emitted.
    cbn [log_event with_drawn trace drawn sessionKeyByFile].
    rewrite Ht4, Hd4, Ht3', Hd3, Hd2, Hd.
    split_and!; [done..| |by rewrite <- !app_assoc].
    rewrite setCached_eq. simpl. eexists. split; [apply lookup_insert_eq|done].
Qed.

End Summary.

(** ** The fast path *)

Section FastPath.

Variable JSON_parse : jsstring -> option JsValue.
Variable utf8_decode : list Byte.byte -> jsstring.
Variable clock : nat -> Z.
Variable uuid : nat -> jsstring.
Variable has_log : bool.

Local Abbreviation handle := (handleUpdate JSON_parse utf8_decode clock uuid has_log).
Local Abbreviation handle_all' := (handle_all JSON_parse utf8_decode clock uuid has_log).

Lemma fast_path_step env sessionFile e w :
  sessionKeyByFile w !! sessionFile = Some e -> value e <> [] ->
  clock (ticks w) - ts e <= CACHE_TTL_MS ->
  handle env sessionFile w
  = (sink_result env,
     emitted uuid fast_runId (value e) (with_ticks (S (ticks w)) w)).
Proof.
  intros He Hv Hlive. apply Handled_sound.
  apply (Handled_fast JSON_parse utf8_decode clock uuid has_log env
           sessionFile w (value e) (with_ticks (S (ticks w)) w)).
  split; [|done]. by apply (getCached_live clock KeyByFile).
Qed.

Lemma fast_path_repeated sessionFile e envs : forall w,
  sessionKeyByFile w !! sessionFile = Some e -> value e <> [] ->
  (forall i, (i < length envs)%nat ->
             clock (ticks w + i)%nat - ts e <= CACHE_TTL_MS) ->
  let w' := handle_all' envs sessionFile w in
  trace w' = trace w
               ++ ((fun i => broadcast_event
                               (fast_runId (uuid (drawn w + i)%nat)) (value e))
                     <$> seq 0 (length envs)) /\
  sessionKeyByFile w' = sessionKeyByFile w /\
  sessionIdByFile w' = sessionIdByFile w /\
  sessionKeyById w' = sessionKeyById w.
Proof.
  induction envs as [|env envs IH]; intros w He Hv Hlive; simpl.
  { by rewrite app_nil_r. }
  rewrite (fast_path_step env sessionFile e w He Hv).
  2:{ specialize (Hlive 0%nat). rewrite Nat.add_0_r in Hlive.
      apply Hlive. simpl. lia. }
  simpl.
  destruct (IH (emitted uuid fast_runId (value e) (with_ticks (S (ticks w)) w)))
    as (Ht & H1 & H2 & H3); [done..| |].
  { intros i Hi. simpl. specialize (Hlive (S i)).
    replace (ticks w + S i)%nat with (S (ticks w + i)) in Hlive by lia.
    apply Hlive. simpl. lia. }
  rewrite Ht, H1, H2, H3. simpl. split_and!; [|done..].
  rewrite <- app_assoc. simpl. rewrite Nat.add_0_r. do 2 f_equal.
  rewrite <- fmap_S_seq, <- list_fmap_compose. apply list_fmap_ext.
  intros _ i _. simpl. do 3 f_equal. lia.
Qed.

(** C1: once a call of [handleUpdate] for a file has emitted a session
    key, that key sits in the file-to-key cache; and in any world where
    the file has a usable entry in that cache, each of any number of
    successive calls made while the clock is within the TTL of the entry
    appends exactly one broadcast carrying the cached key to the trace,
    and nothing else: no call of the header reader, no call of the
    resolver, no change to any of the three caches. *)
Theorem fast_path_idempotent sessionFile :
  (forall env w k,
      sessionKeys (new_events w (handle env sessionFile w).2) = [k] ->
      exists e, sessionKeyByFile (handle env sessionFile w).2 !! sessionFile
                  = Some e /\ value e = k /\ k <> []) /\
  (forall w e envs,
      sessionKeyByFile w !! sessionFile = Some e -> value e <> [] ->
      (forall i, (i < length envs)%nat ->
                 clock (ticks w + i)%nat - ts e <= CACHE_TTL_MS) ->
      let w' := handle_all' envs sessionFile w in
      let evs := new_events w w' in
      sessionKeys evs = replicate (length envs) (value e) /\
      length evs = length envs /\
      Forall (fun ev => is_broadcast ev = true /\ is_lookup ev = false) evs /\
      sessionKeyByFile w' = sessionKeyByFile w /\
      sessionIdByFile w' = sessionIdByFile w /\
      sessionKeyById w' = sessionKeyById w).
Proof.
  split.
  - intros env w k Hk.
    pose proof (handleUpdate_Handled JSON_parse utf8_decode clock uuid has_log
                  env sessionFile w) as Hh.
    destruct (Handled_trace _ _ _ _ _ _ _ _ _ _ Hh) as (lookups & Hl & Hcases).
    destruct (lookups_silent _ Hl) as (_ & _ & Hsk & _).
    destruct Hcases
      as [(key & w1 & Hhit & _ & _ & (e & He & Hv) & Ht)
         | [(w1 & _ & _ & _ & _ & Ht)
           | [(w1 & sid & _ & _ & _ & _ & Ht)
             | [(w1 & sid & _ & _ & _ & _ & Ht)
               | (w1 & sid & key & _ & _ & Hkey & _ & _ & (e & He & Hv) & Ht)]]]];
      rewrite (new_events_app _ _ _ Ht) in Hk;
      rewrite ?sessionKeys_app, ?Hsk in Hk; simpl in Hk.
    + injection Hk as <-. exists e. split_and!; [done..|]. apply Hhit.
    + discriminate.
    + by destruct has_log.
    + discriminate.
    + injection Hk as <-. by exists e.
  - intros w e envs He Hv Hlive w' evs.
    destruct (fast_path_repeated sessionFile e envs w He Hv Hlive)
      as (Ht & H1 & H2 & H3).
    subst evs w'. rewrite (new_events_app _ _ _ Ht). split_and!; [| | |done..].
    + clear. generalize 0%nat. induction (length envs) as [|n IH]; [done|].
      intros s. simpl. f_equal. apply IH.
    + by rewrite length_fmap, length_seq.
    + apply Forall_fmap, Forall_forall. by intros i _.
Qed.

End FastPath.

Lemma fast_path_idempotent_witness :
  let w := deliver Demo.parse Demo.decode Demo.clock Demo.uuid true
             [Demo.notify Demo.a_log] attached in
  sessionKeys
    (new_events w
       (handle_all Demo.parse Demo.decode Demo.clock Demo.uuid true
          [Demo.env; Demo.env; Demo.env] Demo.a_log w))
  = [lit "key-alpha"; lit "key-alpha"; lit "key-alpha"].
Proof.
  intros w.
  pose proof (fast_path_idempotent Demo.parse Demo.decode Demo.clock Demo.uuid
                true Demo.a_log) as [_ H].
  refine (proj1 (H w {| value := lit "key-alpha"; ts := 1002 |}
                   [Demo.env; Demo.env; Demo.env] _ _ _)).
  - vm_compute. reflexivity.
  - discriminate.
  - intros i Hi. simpl in Hi.
    replace (ticks w) with 3%nat by (vm_compute; reflexivity).
    unfold Demo.clock, CACHE_TTL_MS. simpl ts. lia.
Defined.

(** ** Warnings *)

Section Warnings.

Variable JSON_parse : jsstring -> option JsValue.
Variable utf8_decode : list Byte.byte -> jsstring.
Variable clock : nat -> Z.
Variable uuid : nat -> jsstring.
Variable has_log : bool.
Variable env : Env.

Local Abbreviation handle := (handleUpdate JSON_parse utf8_decode clock uuid has_log env).
Local Abbreviation on_update := (onUpdate JSON_parse utf8_decode clock uuid has_log env).
Local Abbreviation Unresolvable' := (Unresolvable JSON_parse utf8_decode clock env).
Local Abbreviation warned := (warn_result has_log env).

Lemma warn_result_logged msg : has_log = true ->
  warned msg = if warn_ok env msg then Ret tt else Throw.
Proof. intros Hlog. unfold warn_result. rewrite Hlog. by destruct (warn_ok env msg). Qed.

Lemma warn_result_silent msg : has_log = false -> warned msg = Ret tt.
Proof. intros Hlog. unfold warn_result. by rewrite Hlog. Qed.

Lemma Unresolvable_run sessionFile w sid :
  Unresolvable' sessionFile w sid ->
  exists w3 lookups,
    handle sessionFile w = (warned (not_found_message sid), w3) /\
    Forall (fun e => is_lookup e = true) lookups /\
    drawn w3 = drawn w /\
    EvResolve sid ∈ lookups /\
    trace w3 = trace w ++ lookups
                 ++ (if has_log then [EvWarn (not_found_message sid)] else []).
Proof.
  intros (w1 & w2 & w3 & entries & Hmiss & Hid & Hmiss3 & Hstore & Hscan).
  destruct (miss_frame _ _ _ _ _ Hmiss) as [Ht Hd].
  destruct (IdentifierStep_trace _ _ _ _ _ _ _ _ Hid)
    as (Hd2 & reads & Ht2 & Hreads & Hsid).
  assert (Hrun : exists r w4,
    KeyStep clock has_log env sid w2 r w4 /\
    match r with Ret (Some _) => False | _ => True end /\
    Handled JSON_parse utf8_decode clock uuid has_log env sessionFile w
      (warned (not_found_message sid)) w4).
  { destruct (warned (not_found_message sid)) as [[]|] eqn:Hwarn.
    - pose proof (Key_unresolved clock has_log env sid w2 entries w3
                    Hmiss3 Hstore Hscan Hwarn) as Hk.
      eexists _, _. split; [exact Hk|]. split; [done|].
      by apply (Handled_unresolved JSON_parse utf8_decode clock uuid has_log
                  env sessionFile w sid w1 w2).
    - pose proof (Key_warn_throws clock has_log env sid w2 entries w3
                    Hmiss3 Hstore Hscan Hwarn) as Hk.
      eexists _, _. split; [exact Hk|]. split; [done|].
      by apply (Handled_key_throws JSON_parse utf8_decode clock uuid has_log
                  env sessionFile w sid w1 w2). }
  destruct Hrun as (r & w4 & Hkey & Hr & Hh).
  exists w4, (reads ++ [EvResolve sid]).
  pose proof (KeyStep_trace _ _ _ _ _ _ _ Hkey) as (Hd3 & Ht3).
  split_and!.
  - by apply Handled_sound.
  - apply Forall_app. split; [done | by repeat constructor].
  - by rewrite Hd3, Hd2, Hd.
  - apply elem_of_app. right. apply list_elem_of_here.
  - assert (trace w4 = trace w2 ++ [EvResolve sid]
                         ++ (if has_log then [EvWarn (not_found_message sid)]
                             else [])) as ->.
    { destruct r as [[key|]|]; [done|apply Ht3|].
      destruct Ht3 as [[_ Hnone]|[Ht3 _]]; [congruence | done]. }
    rewrite Ht2, Ht. by rewrite <- !app_assoc.
Qed.

(** A run of [handleUpdate] warns at most once, about the identifier it
    could not resolve. *)
Lemma handle_warnings sessionFile w :
  exists evs,
    trace (handle sessionFile w).2 = trace w ++ evs /\
    ((exists sid, Unresolvable' sessionFile w sid /\
                  (handle sessionFile w).1 = warned (not_found_message sid) /\
                  warnings evs
                  = if has_log then [not_found_message sid] else []) \/
     warnings evs = []).
Proof.
  pose proof (handleUpdate_Handled JSON_parse utf8_decode clock uuid has_log
                env sessionFile w) as Hh.
  destruct (Handled_trace _ _ _ _ _ _ _ _ _ _ Hh) as (lookups & Hl & Hcases).
  destruct (lookups_silent _ Hl) as (Hw & _).
  destruct Hcases
    as [(key & w1 & _ & _ & _ & _ & Ht)
       | [(w1 & _ & _ & _ & _ & Ht)
         | [(w1 & sid & _ & Hun & Hr & _ & Ht)
           | [(w1 & sid & _ & _ & _ & _ & Ht)
             | (w1 & sid & key & _ & _ & _ & _ & _ & _ & Ht)]]]];
    eexists; (split; [exact Ht|]);
    rewrite ?warnings_app, ?Hw; try (by right).
  left. exists sid. split_and!; [done..|]. by destruct has_log.
Qed.

Lemma onUpdate_nonblank update a f w :
  trim <$> update_sessionFile update = Some (a :: f) ->
  on_update update w
  = match handle (a :: f) w with
    | (Ret x, w') => (Ret x, w')
    | (Throw, w') => warn has_log env (failure_message (a :: f)) w'
    end.
Proof. unfold onUpdate, try_catch. by intros ->. Qed.

Lemma onUpdate_blank update w :
  match trim <$> update_sessionFile update with
  | Some (_ :: _) => False
  | _ => True
  end ->
  on_update update w = (Ret tt, w).
Proof.
  unfold onUpdate. by destruct (trim <$> update_sessionFile update) as [[|]|].
Qed.

(** What the callback logs and how it ends, in terms of the run of
    [handleUpdate] inside it. *)
Lemma onUpdate_warnings update a f w :
  trim <$> update_sessionFile update = Some (a :: f) ->
  exists evs,
    trace (handle (a :: f) w).2 = trace w ++ evs /\
    (on_update update w).1
    = match (handle (a :: f) w).1 with
      | Ret _ => Ret tt
      | Throw => warned (failure_message (a :: f))
      end /\
    warnings (new_events w (on_update update w).2)
    = warnings evs
        ++ match (handle (a :: f) w).1 with
           | Ret _ => []
           | Throw => if has_log then [failure_message (a :: f)] else []
           end.
Proof.
  intros Hpath. rewrite (onUpdate_nonblank _ _ _ _ Hpath).
  destruct (handle_warnings (a :: f) w) as (evs & Ht & _).
  exists evs. split; [done|].
  destruct (handle (a :: f) w) as [[[]|] w'] eqn:Hrun; cbn [fst snd] in *.
  - split; [done|]. by rewrite (new_events_app _ _ _ Ht), app_nil_r.
  - rewrite warn_eq. cbn [fst snd]. split; [done|].
    assert (Ht' : trace (if has_log
                         then log_event (EvWarn (failure_message (a :: f))) w'
                         else w')
                  = trace w ++ evs
                      ++ (if has_log
                          then [EvWarn (failure_message (a :: f))] else [])).
    { destruct has_log; simpl; rewrite Ht;
        by rewrite <- ?app_assoc, ?app_nil_r. }
    rewrite (new_events_app _ _ _ Ht'), warnings_app. by destruct has_log.
Qed.

(** C5 (as amended).  Without a logger nothing is logged and the callback
    returns.  With a logger, handling a notification with a non-blank path
    calls [warn] exactly as follows.  When an identifier was obtained but
    neither the identifier-to-key cache nor the store gives a usable key
    for it, the not-found message carrying that identifier is logged; the
    failure message carrying the (trimmed) file path is logged when
    [handleUpdate] raised, which on this path happens exactly when the
    logger threw on the not-found message.  On every other path the
    failure message alone is logged when [handleUpdate] raised, and
    nothing otherwise.  The callback itself raises exactly when
    [handleUpdate] raised and the logger throws on the failure message: so
    with a logger that returns normally one warning is logged in the two
    cases, none otherwise, and nothing reaches the watcher.  A notification
    with a blank path logs nothing. *)
Theorem warning_exactly_when update w :
  let out := on_update update w in
  let logged := warnings (new_events w out.2) in
  (has_log = false -> out.1 = Ret tt /\ logged = []) /\
  (has_log = true ->
   match trim <$> update_sessionFile update with
   | Some ((_ :: _) as sessionFile) =>
       let raised := (handle sessionFile w).1 = Throw in
       (forall sid,
           Unresolvable' sessionFile w sid ->
           (raised <-> warn_ok env (not_found_message sid) = false) /\
           logged = not_found_message sid
                      :: (if warn_ok env (not_found_message sid) then []
                          else [failure_message sessionFile])) /\
       ((forall sid, ~ Unresolvable' sessionFile w sid) ->
        (raised -> logged = [failure_message sessionFile]) /\
        (~ raised -> logged = [])) /\
       (out.1 = Throw <->
        raised /\ warn_ok env (failure_message sessionFile) = false) /\
       ((forall msg, warn_ok env msg = true) ->
        out.1 = Ret tt /\ (length logged <= 1)%nat)
   | _ => out.1 = Ret tt /\ logged = []
   end).
Proof.
  intros out logged. subst logged out.
  assert (Hsame : new_events w w = []).
  { apply new_events_app. by rewrite app_nil_r. }
  destruct (trim <$> update_sessionFile update) as [[|a f]|] eqn:Hpath;
    try (rewrite onUpdate_blank by (by rewrite Hpath); simpl;
         rewrite Hsame; by split_and!).
  destruct (onUpdate_warnings _ _ _ w Hpath) as (evs & Ht & Hout & Hlogged).
  rewrite Hout, Hlogged. clear Hout Hlogged.
  destruct (handle_warnings (a :: f) w) as (evs' & Ht' & Hw).
  rewrite Ht in Ht'. apply app_inv_head in Ht'. subst evs'.
  split.
  { intros Hlog. rewrite (warn_result_silent _ Hlog). rewrite Hlog in Hw |- *.
    assert (warnings evs = []) as ->.
    { by destruct Hw as [(sid & _ & _ & ->) | ->]. }
    by destruct ((handleUpdate _ _ _ _ _ _ _ _).1) as [[]|]. }
  intros Hlog raised. subst raised.
  assert (Hif : forall (A : Type) (x y : A), (if has_log then x else y) = x).
  { intros A x y. by rewrite Hlog. }
  rewrite (warn_result_logged _ Hlog), Hif.
  assert (Hun : forall sid,
    Unresolvable' (a :: f) w sid ->
    (handle (a :: f) w).1 = warned (not_found_message sid) /\
    warnings evs = [not_found_message sid]).
  { intros sid (w3 & lookups & Hrun & Hl & _ & _ & Ht3)%Unresolvable_run.
    rewrite Hrun in *. cbn [fst snd] in *. split; [done|].
    rewrite Ht3 in Ht. apply app_inv_head in Ht. subst evs.
    rewrite warnings_app, Hif.
    by destruct (lookups_silent _ Hl) as (-> & _). }
  assert (Hwarned : forall msg,
    warned msg = if warn_ok env msg then Ret tt else Throw).
  { intros msg. by apply warn_result_logged. }
  split_and!.
  - intros sid Hsid. destruct (Hun sid Hsid) as [Hr ->]. rewrite Hr, Hwarned.
    destruct (warn_ok env (not_found_message sid)); by split.
  - intros Hno. destruct Hw as [(sid & Hsid & _) | ->];
      [by destruct (Hno sid)|].
    destruct ((handle (a :: f) w).1) as [[]|]; by split.
  - destruct ((handle (a :: f) w).1) as [[]|].
    + split; [done | by intros [? _]].
    + destruct (warn_ok env (failure_message (a :: f))); split; try done.
      by intros [_ ?].
  - intros Hok.
    assert (length (warnings evs) <= 1)%nat as Hlen.
    { destruct Hw as [(sid & _ & _ & Hwv) | Hwv]; rewrite Hwv, ?Hif; simpl; lia. }
    destruct ((handle (a :: f) w).1) as [[]|] eqn:Hres.
    + split; [done|]. by rewrite app_nil_r.
    + rewrite Hok. split; [done|].
      destruct Hw as [(sid & _ & Hr & _) | ->]; [|simpl; lia].
      rewrite Hwarned, Hok in Hr. done.
Qed.

End Warnings.

Lemma warning_exactly_when_witness :
  let out := onUpdate Demo.parse Demo.decode Demo.clock Demo.uuid true
               Demo.failing_logger_env {| update_sessionFile := Some Demo.b_log |}
               attached in
  (out.1 = Throw <->
   (handleUpdate Demo.parse Demo.decode Demo.clock Demo.uuid true
      Demo.failing_logger_env Demo.b_log attached).1 = Throw /\
   warn_ok Demo.failing_logger_env (failure_message Demo.b_log) = false) /\
  warnings (new_events attached out.2)
  = [not_found_message (lit "sess-99"); failure_message Demo.b_log].
Proof.
  intros out.
  destruct (warning_exactly_when Demo.parse Demo.decode Demo.clock Demo.uuid true
              Demo.failing_logger_env {| update_sessionFile := Some Demo.b_log |} attached)
    as (_ & H).
  destruct (H eq_refl) as (Hunresolved & _ & Hout & _).
  split; [exact Hout|].
  refine (proj2 (Hunresolved (lit "sess-99") _)).
  exists attached.
  exists (setCached Demo.clock IdByFile Demo.b_log (lit "sess-99")
            (log_event (EvReadHeader Demo.b_log) attached)).2.
  eexists _, Demo.entries. split_and!.
  - exists None. by split.
  - apply Id_read; [exists None; by split | by vm_compute | done].
  - exists None. by split.
  - done.
  - by vm_compute.
Defined.

(** C5, as stated, fails when the bridge was attached without a logger:
    the header of [b.log] names "sess-99", the store has no entry for it,
    the resolver is asked and finds nothing, and no warning is logged.  It
    also fails with a logger that throws: the exception of the not-found
    warning is caught and reported, and the exception of that report
    reaches the watcher. *)
Lemma warning_without_logger_counterexample :
  let out := onUpdate Demo.parse Demo.decode Demo.clock Demo.uuid false Demo.env
               {| update_sessionFile := Some Demo.b_log |} attached in
  let out' := onUpdate Demo.parse Demo.decode Demo.clock Demo.uuid true
                Demo.failing_logger_env {| update_sessionFile := Some Demo.b_log |}
                attached in
  header_of Demo.parse Demo.decode Demo.env Demo.b_log
    = Ret (Some (lit "sess-99")) /\
  scan_store Demo.entries (lit "sess-99") = None /\
  out.1 = Ret tt /\
  trace out.2 = [EvReadHeader Demo.b_log; EvResolve (lit "sess-99")] /\
  warnings (trace out.2) = [] /\
  out'.1 = Throw /\
  warnings (trace out'.2)
  = [not_found_message (lit "sess-99"); failure_message Demo.b_log].
Proof. vm_compute. by split_and!. Qed.

(** ** The broadcast payload *)

Section Payload.

Variable JSON_parse : jsstring -> option JsValue.
Variable utf8_decode : list Byte.byte -> jsstring.
Variable clock : nat -> Z.
Variable uuid : nat -> jsstring.
Variable has_log : bool.
Variable env : Env.

Local Abbreviation handle := (handleUpdate JSON_parse utf8_decode clock uuid has_log env).

Lemma lookup_not_broadcast lookups ev :
  Forall (fun e => is_lookup e = true) lookups ->
  ev ∈ lookups -> is_broadcast ev = true -> False.
Proof.
  intros Hl Hin Hb. rewrite Forall_forall in Hl. specialize (Hl _ Hin).
  by destruct ev.
Qed.

(** The broadcasts of one call: at most the one of the path taken. *)
Lemma handle_broadcast sessionFile w ev :
  ev ∈ new_events w (handle sessionFile w).2 ->
  is_broadcast ev = true ->
  exists sessionKey,
    sessionKey <> [] /\
    (((exists w1, hit clock KeyByFile sessionFile w sessionKey w1) /\
      ev = broadcast_event (fast_runId (uuid (drawn w))) sessionKey) \/
     ((exists w1, miss clock KeyByFile sessionFile w w1) /\
      exists sessionId,
        sessionId <> [] /\
        ev = broadcast_event (resolved_runId sessionId (uuid (drawn w)))
               sessionKey)).
Proof.
  intros Hin Hb.
  pose proof (handleUpdate_Handled JSON_parse utf8_decode clock uuid has_log
                env sessionFile w) as Hh.
  destruct (Handled_trace _ _ _ _ _ _ _ _ _ _ Hh) as (lookups & Hl & Hcases).
  destruct Hcases
    as [(key & w1 & Hhit & _ & _ & _ & Ht)
       | [(w1 & _ & _ & _ & _ & Ht)
         | [(w1 & sid & _ & _ & _ & _ & Ht)
           | [(w1 & sid & _ & _ & _ & _ & Ht)
             | (w1 & sid & key & Hmiss & Hsid & Hkey & _ & _ & _ & Ht)]]]];
    rewrite (new_events_app _ _ _ Ht) in Hin;
    rewrite ?elem_of_app, ?list_elem_of_singleton in Hin.
  - subst ev. exists key. split; [apply Hhit|].
    left. split; [by exists w1 | done].
  - by subst ev.
  - destruct Hin as [Hin | [-> | Hin]];
      [by destruct (lookup_not_broadcast _ _ Hl Hin Hb) | done |].
    destruct has_log; [|by apply elem_of_nil in Hin].
    apply list_elem_of_singleton in Hin. by subst ev.
  - destruct Hin as [Hin | ->];
      [by destruct (lookup_not_broadcast _ _ Hl Hin Hb) | done].
  - destruct Hin as [Hin | ->];
      [by destruct (lookup_not_broadcast _ _ Hl Hin Hb) |].
    exists key. split; [done|].
    right. split; [by exists w1|]. by exists sid.
Qed.

End Payload.

(** ** Run identifiers *)

Section RunIds.

Variable JSON_parse : jsstring -> option JsValue.
Variable utf8_decode : list Byte.byte -> jsstring.
Variable clock : nat -> Z.
Variable uuid : nat -> jsstring.
Variable has_log : bool.

Local Abbreviation handle := (handleUpdate JSON_parse utf8_decode clock uuid has_log).
Local Abbreviation on_update := (onUpdate JSON_parse utf8_decode clock uuid has_log).
Local Abbreviation deliver' := (deliver JSON_parse utf8_decode clock uuid has_log).
Local Abbreviation handle_all' := (handle_all JSON_parse utf8_decode clock uuid has_log).

Hypothesis uuid_fresh : forall i j, uuid i = uuid j -> i = j.
Hypothesis uuid_length : forall i, length (uuid i) = 36%nat.

Lemma uuid_suffix_app prefix i : uuid_suffix (prefix ++ uuid i) = uuid i.
Proof.
  unfold uuid_suffix. rewrite length_app, uuid_length.
  replace (length prefix + 36 - 36)%nat with (length prefix) by lia.
  apply drop_app_length.
Qed.

Lemma uuid_suffix_fast i : uuid_suffix (fast_runId (uuid i)) = uuid i.
Proof. apply uuid_suffix_app. Qed.

Lemma uuid_suffix_resolved sid i :
  uuid_suffix (resolved_runId sid (uuid i)) = uuid i.
Proof.
  unfold resolved_runId.
  replace (lit "transcript-" ++ sid ++ lit "-" ++ uuid i)
    with ((lit "transcript-" ++ sid ++ lit "-") ++ uuid i)
    by (by rewrite <- !app_assoc).
  apply uuid_suffix_app.
Qed.

Lemma draws_in_order_refl w : draws_in_order uuid w w.
Proof.
  exists []. rewrite app_nil_r, Nat.sub_diag. by split_and!.
Qed.

Lemma draws_in_order_trans w1 w2 w3 :
  draws_in_order uuid w1 w2 -> draws_in_order uuid w2 w3 -> draws_in_order uuid w1 w3.
Proof.
  intros (e1 & Ht1 & Hd1 & Hr1) (e2 & Ht2 & Hd2 & Hr2).
  exists (e1 ++ e2). split_and!.
  - by rewrite Ht2, Ht1, <- app_assoc.
  - lia.
  - rewrite runIds_app, fmap_app, Hr1, Hr2.
    replace (drawn w3 - drawn w1)%nat
      with ((drawn w2 - drawn w1) + (drawn w3 - drawn w2))%nat by lia.
    rewrite seq_app, fmap_app. do 3 f_equal. lia.
Qed.

Lemma handle_draws_in_order env sessionFile w :
  draws_in_order uuid w (handle env sessionFile w).2.
Proof.
  pose proof (handleUpdate_Handled JSON_parse utf8_decode clock uuid has_log
                env sessionFile w) as Hh.
  destruct (Handled_trace _ _ _ _ _ _ _ _ _ _ Hh) as (lookups & Hl & Hcases).
  destruct (lookups_silent _ Hl) as (_ & Hr & _).
  destruct Hcases
    as [(key & w1 & _ & _ & Hd & _ & Ht)
       | [(w1 & _ & _ & _ & Hd & Ht)
         | [(w1 & sid & _ & _ & _ & Hd & Ht)
           | [(w1 & sid & _ & _ & _ & Hd & Ht)
             | (w1 & sid & key & _ & _ & _ & _ & Hd & _ & Ht)]]]];
    eexists; (split; [exact Ht|]); rewrite Hd;
    (split; [lia|]); rewrite ?runIds_app, ?Hr;
    rewrite ?Nat.sub_diag;
    replace (S (drawn w) - drawn w)%nat with 1%nat by lia; simpl.
  - by rewrite uuid_suffix_fast.
  - done.
  - by destruct has_log.
  - done.
  - by rewrite uuid_suffix_resolved.
Qed.

Lemma onUpdate_draws_in_order env update w :
  draws_in_order uuid w (on_update env update w).2.
Proof.
  destruct (trim <$> update_sessionFile update) as [[|a f]|] eqn:Hpath;
    try (rewrite onUpdate_blank by (by rewrite Hpath);
         apply draws_in_order_refl).
  rewrite (onUpdate_nonblank _ _ _ _ _ _ _ _ _ _ Hpath).
  pose proof (handle_draws_in_order env (a :: f) w) as Hh.
  destruct (handle env (a :: f) w) as [[[]|] w']; [done|].
  eapply draws_in_order_trans; [exact Hh|].
  unfold warn. destruct has_log; simpl; [|apply draws_in_order_refl].
  exists [EvWarn (failure_message (a :: f))]. simpl.
  rewrite Nat.sub_diag. by split_and!.
Qed.

Lemma deliver_draws_in_order ns : forall w, draws_in_order uuid w (deliver' ns w).
Proof.
  induction ns as [|[env update] ns IH]; intros w; simpl.
  - apply draws_in_order_refl.
  - eapply draws_in_order_trans; [apply onUpdate_draws_in_order | apply IH].
Qed.

(** C8: when [randomUUID] never repeats a value (and returns UUIDs in
    their canonical 36-character form), the run identifiers of all the
    broadcasts of a run of the bridge are pairwise different; and two
    successive updates for a file whose key is cached and live emit two
    payloads with different run identifiers and the same session key. *)
Theorem run_ids_distinct :
  (forall ns w, NoDup (runIds (new_events w (deliver' ns w)))) /\
  (forall sessionFile w e env1 env2,
      sessionKeyByFile w !! sessionFile = Some e -> value e <> [] ->
      clock (ticks w) - ts e <= CACHE_TTL_MS ->
      clock (S (ticks w)) - ts e <= CACHE_TTL_MS ->
      let evs := new_events w (handle_all' [env1; env2] sessionFile w) in
      exists r1 r2,
        runIds evs = [r1; r2] /\ r1 <> r2 /\
        sessionKeys evs = [value e; value e]).
Proof.
  split.
  - intros ns w.
    destruct (deliver_draws_in_order ns w) as (evs & Ht & Hd & Hr).
    rewrite (new_events_app _ _ _ Ht).
    apply (NoDup_fmap_1 uuid_suffix). rewrite Hr.
    apply NoDup_fmap_2; [|apply NoDup_seq].
    intros i j. apply uuid_fresh.
  - intros sessionFile w e env1 env2 He Hv Hl1 Hl2 evs. subst evs.
    destruct (fast_path_repeated JSON_parse utf8_decode clock uuid has_log
                sessionFile e [env1; env2] w He Hv) as (Ht & _).
    { intros i Hi. simpl in Hi.
      destruct i as [|[|i]]; [| |lia].
      - by rewrite Nat.add_0_r.
      - by replace (ticks w + 1)%nat with (S (ticks w)) by lia. }
    rewrite (new_events_app _ _ _ Ht). simpl.
    eexists _, _. split; [done|]. split; [|done].
    unfold fast_runId. intros Heq%app_inv_head%uuid_fresh. lia.
Qed.

End RunIds.

Lemma run_ids_distinct_witness :
  NoDup (runIds
           (new_events attached
              (deliver Demo.parse Demo.decode Demo.clock Demo.uuid true
                 [Demo.notify Demo.a_log; Demo.notify Demo.a_log] attached))).
Proof.
  apply (run_ids_distinct Demo.parse Demo.decode Demo.clock Demo.uuid true).
  - intros i j H. unfold Demo.uuid in H. apply app_inv_head in H.
    injection H. lia.
  - reflexivity.
Defined.

(** ** What each path does to the caches *)

Lemma cache_of_with_cache_ne c c' m w :
  c' <> c -> cache_of c' (with_cache c m w) = cache_of c' w.
Proof. by destruct c, c'. Qed.

Lemma cache_of_log_event c e w : cache_of c (log_event e w) = cache_of c w.
Proof. by destruct c. Qed.

Lemma cache_of_with_drawn c n w : cache_of c (with_drawn n w) = cache_of c w.
Proof. by destruct c. Qed.

Lemma cache_of_warn has_log env c msg w :
  cache_of c (warn has_log env msg w).2 = cache_of c w.
Proof.
  rewrite warn_eq. destruct has_log; simpl; by rewrite ?cache_of_log_event.
Qed.

Section CachePaths.

Variable JSON_parse : jsstring -> option JsValue.
Variable utf8_decode : list Byte.byte -> jsstring.
Variable clock : nat -> Z.
Variable uuid : nat -> jsstring.
Variable has_log : bool.
Variable env : Env.

Local Abbreviation handle := (handleUpdate JSON_parse utf8_decode clock uuid has_log env).
Local Abbreviation Handled' := (Handled JSON_parse utf8_decode clock uuid has_log env).
Local Abbreviation IdStep := (IdentifierStep JSON_parse utf8_decode clock env).
Local Abbreviation KStep := (KeyStep clock has_log env).
Local Abbreviation header := (header_of JSON_parse utf8_decode env).

Lemma hit_caches c key w v w' :
  hit clock c key w v w' -> forall c', cache_of c' w' = cache_of c' w.
Proof.
  intros (e & _ & _ & _ & ->)%hit_inv c'. apply cache_of_with_ticks.
Qed.

(** A miss removes at most the looked-up key, from the cache it looked in,
    and leaves nothing usable under that key. *)
Lemma miss_caches c key w w' :
  miss clock c key w w' ->
  cache_of c w' ⊆ cache_of c w /\
  (forall k, k <> key -> cache_of c w' !! k = cache_of c w !! k) /\
  (forall c', c' <> c -> cache_of c' w' = cache_of c' w) /\
  (forall e, cache_of c w' !! key = Some e -> value e = []).
Proof.
  intros [[Hn ->] | [(e & He & _ & ->) | (e & He & Hv & _ & ->)]]%miss_inv.
  - split_and!; [done..|]. intros e. by rewrite Hn.
  - rewrite cache_of_with_cache. split_and!.
    + apply delete_subseteq.
    + intros k Hk. by apply lookup_delete_ne.
    + intros c' Hc. by rewrite cache_of_with_cache_ne, cache_of_with_ticks.
    + intros e'. by rewrite lookup_delete_eq.
  - rewrite cache_of_with_ticks. split_and!; [done..| |].
    + intros c' _. apply cache_of_with_ticks.
    + intros e'. rewrite He. by intros [= <-].
Qed.

Lemma setCached_caches c key v w :
  cache_of c (setCached clock c key v w).2
    = <[key := {| value := v; ts := clock (ticks w) |}]> (cache_of c w) /\
  (forall c', c' <> c ->
              cache_of c' (setCached clock c key v w).2 = cache_of c' w).
Proof.
  rewrite setCached_eq. simpl. rewrite cache_of_with_cache. split; [done|].
  intros c' Hc. by rewrite cache_of_with_cache_ne, cache_of_with_ticks.
Qed.

Lemma IdentifierStep_caches sessionFile w r w' :
  IdStep sessionFile w r w' ->
  sessionKeyByFile w' = sessionKeyByFile w /\
  sessionKeyById w' = sessionKeyById w /\
  (forall k e, sessionIdByFile w' !! k = Some e ->
               sessionIdByFile w !! k = Some e \/
               (k = sessionFile /\ value e <> [] /\
                header sessionFile = Ret (Some (value e)))) /\
  match r with
  | Some sessionId =>
      exists e, sessionIdByFile w' !! sessionFile = Some e /\
                value e = sessionId
  | None => sessionIdByFile w' ⊆ sessionIdByFile w
  end.
Proof.
  intros [sid w1 Hhit | sid w1 Hmiss Hread Hne | rd w1 Hmiss Hread Hfalsy].
  - pose proof (hit_caches _ _ _ _ _ Hhit KeyByFile) as H1.
    pose proof (hit_caches _ _ _ _ _ Hhit IdByFile) as H2.
    pose proof (hit_caches _ _ _ _ _ Hhit KeyById) as H3.
    simpl in H1, H2, H3. rewrite H1, H2, H3.
    split_and!; [done..|by left|].
    destruct (hit_inv _ _ _ _ _ _ Hhit) as (e & He & Hv & _). by exists e.
  - destruct (miss_caches _ _ _ _ Hmiss) as (Hsub & _ & Hother & _).
    rewrite setCached_eq. simpl.
    pose proof (Hother KeyByFile ltac:(done)) as Ho1.
    pose proof (Hother KeyById ltac:(done)) as Ho2.
    simpl in Ho1, Ho2, Hsub. rewrite <- Ho1, <- Ho2.
    split_and!; [done..| |].
    + intros k e. destruct (decide (k = sessionFile)) as [->|Hk].
      * rewrite lookup_insert_eq. intros [= <-]. right. by split_and!.
      * rewrite lookup_insert_ne by done. intros He. left.
        by apply (lookup_weaken _ _ _ _ He).
    + eexists. split; [apply lookup_insert_eq | done].
  - destruct (miss_caches _ _ _ _ Hmiss) as (Hsub & _ & Hother & _).
    simpl.
    pose proof (Hother KeyByFile ltac:(done)) as Ho1.
    pose proof (Hother KeyById ltac:(done)) as Ho2.
    simpl in Ho1, Ho2, Hsub. rewrite <- Ho1, <- Ho2.
    split_and!; [done..| |done].
    intros k e He. left. by apply (lookup_weaken _ _ _ _ He).
Qed.

Lemma KeyStep_caches sessionId w r w' :
  KStep sessionId w r w' ->
  sessionKeyByFile w' = sessionKeyByFile w /\
  sessionIdByFile w' = sessionIdByFile w /\
  (forall k e, sessionKeyById w' !! k = Some e ->
               sessionKeyById w !! k = Some e \/ value e <> []) /\
  match r with
  | Ret (Some _) => True
  | _ =>
      sessionKeyById w' ⊆ sessionKeyById w /\
      (forall e, sessionKeyById w' !! sessionId = Some e -> value e = [])
  end.
Proof.
  assert (Hwarned : forall w1,
    miss clock KeyById sessionId w w1 ->
    let w' := (warn has_log env (not_found_message sessionId)
                 (log_event (EvResolve sessionId) w1)).2 in
    sessionKeyByFile w' = sessionKeyByFile w /\
    sessionIdByFile w' = sessionIdByFile w /\
    (forall k e, sessionKeyById w' !! k = Some e ->
                 sessionKeyById w !! k = Some e \/ value e <> []) /\
    sessionKeyById w' ⊆ sessionKeyById w /\
    (forall e, sessionKeyById w' !! sessionId = Some e -> value e = [])).
  { intros w1 Hmiss w0. subst w0.
    destruct (miss_caches _ _ _ _ Hmiss) as (Hsub & _ & Hother & Hempty).
    pose proof (cache_of_warn has_log env KeyByFile
                  (not_found_message sessionId)
                  (log_event (EvResolve sessionId) w1)) as Hc1.
    pose proof (cache_of_warn has_log env IdByFile
                  (not_found_message sessionId)
                  (log_event (EvResolve sessionId) w1)) as Hc2.
    pose proof (cache_of_warn has_log env KeyById
                  (not_found_message sessionId)
                  (log_event (EvResolve sessionId) w1)) as Hc3.
    simpl in Hc1, Hc2, Hc3. rewrite Hc1, Hc2, Hc3.
    pose proof (Hother KeyByFile ltac:(done)) as Ho1.
    pose proof (Hother IdByFile ltac:(done)) as Ho2.
    simpl in Ho1, Ho2, Hsub, Hempty. rewrite <- Ho1, <- Ho2.
    split_and!; try done.
    intros k e He; left; by apply (lookup_weaken _ _ _ _ He). }
  intros [key w1 Hhit | entries key w1 Hmiss Hstore Hscan Hne
          | entries w1 Hmiss Hstore Hscan Hwarn
          | entries w1 Hmiss Hstore Hscan Hwarn | w1 Hmiss Hstore].
  - pose proof (hit_caches _ _ _ _ _ Hhit KeyByFile) as H1.
    pose proof (hit_caches _ _ _ _ _ Hhit IdByFile) as H2.
    pose proof (hit_caches _ _ _ _ _ Hhit KeyById) as H3.
    simpl in H1, H2, H3. rewrite H1, H2, H3.
    split_and!; [done..| |done]. by left.
  - destruct (miss_caches _ _ _ _ Hmiss) as (Hsub & _ & Hother & _).
    rewrite setCached_eq. simpl.
    pose proof (Hother KeyByFile ltac:(done)) as Ho1.
    pose proof (Hother IdByFile ltac:(done)) as Ho2.
    simpl in Ho1, Ho2, Hsub. rewrite <- Ho1, <- Ho2.
    split_and!; [done..| |done].
    intros k e. destruct (decide (k = sessionId)) as [->|Hk].
    + rewrite lookup_insert_eq. intros [= <-]. by right.
    + rewrite lookup_insert_ne by done. intros He. left.
      by apply (lookup_weaken _ _ _ _ He).
  - by destruct (Hwarned w1 Hmiss) as (? & ? & ? & ? & ?).
  - by destruct (Hwarned w1 Hmiss) as (? & ? & ? & ? & ?).
  - destruct (miss_caches _ _ _ _ Hmiss) as (Hsub & _ & Hother & Hempty).
    simpl.
    pose proof (Hother KeyByFile ltac:(done)) as Ho1.
    pose proof (Hother IdByFile ltac:(done)) as Ho2.
    simpl in Ho1, Ho2, Hsub, Hempty. rewrite <- Ho1, <- Ho2.
    split_and!; try done.
    intros k e He. left. by apply (lookup_weaken _ _ _ _ He).
Qed.

End CachePaths.

Lemma keeps_or_fills_refl w : keeps_or_fills w w.
Proof. intros c k e He. by left. Qed.

Lemma keeps_or_fills_trans w1 w2 w3 :
  keeps_or_fills w1 w2 -> keeps_or_fills w2 w3 -> keeps_or_fills w1 w3.
Proof.
  intros H12 H23 c k e He. destruct (H23 c k e He) as [He2|Hv]; [|by right].
  by apply H12.
Qed.

Lemma keeps_or_fills_same w w' :
  (forall c, cache_of c w' = cache_of c w) -> keeps_or_fills w w'.
Proof. intros Hc c k e He. left. by rewrite <- Hc. Qed.

(** ** Caches only gain non-empty values *)

Section Footprint.

Variable JSON_parse : jsstring -> option JsValue.
Variable utf8_decode : list Byte.byte -> jsstring.
Variable clock : nat -> Z.
Variable uuid : nat -> jsstring.
Variable has_log : bool.
Variable env : Env.

Local Abbreviation handle := (handleUpdate JSON_parse utf8_decode clock uuid has_log env).
Local Abbreviation Handled' := (Handled JSON_parse utf8_decode clock uuid has_log env).
Local Abbreviation IdStep := (IdentifierStep JSON_parse utf8_decode clock env).
Local Abbreviation KStep := (KeyStep clock has_log env).
Local Abbreviation header := (header_of JSON_parse utf8_decode env).

Lemma miss_fills c key w w' : miss clock c key w w' -> keeps_or_fills w w'.
Proof.
  intros (Hsub & _ & Hother & _)%miss_caches c' k e He. left.
  destruct (decide (c' = c)) as [->|Hc].
  - by apply (lookup_weaken _ _ _ _ He).
  - by rewrite <- (Hother c' Hc).
Qed.

Lemma hit_fills c key w v w' : hit clock c key w v w' -> keeps_or_fills w w'.
Proof. intros Hhit. apply keeps_or_fills_same. by eapply hit_caches. Qed.

Lemma setCached_fills c key v w :
  v <> [] -> keeps_or_fills w (setCached clock c key v w).2.
Proof.
  intros Hv c' k e.
  destruct (setCached_caches clock c key v w) as [Hset Hother].
  destruct (decide (c' = c)) as [->|Hc].
  - rewrite Hset. destruct (decide (k = key)) as [->|Hk].
    + rewrite lookup_insert_eq. intros [= <-]. by right.
    + rewrite lookup_insert_ne by done. by left.
  - rewrite (Hother c' Hc). by left.
Qed.

Lemma log_event_fills e w : keeps_or_fills w (log_event e w).
Proof. apply keeps_or_fills_same. intros c. apply cache_of_log_event. Qed.

Lemma IdentifierStep_fills sessionFile w r w' :
  IdStep sessionFile w r w' -> keeps_or_fills w w'.
Proof.
  intros [sid w1 Hhit | sid w1 Hmiss Hread Hne | rd w1 Hmiss Hread Hfalsy].
  - by eapply hit_fills.
  - eapply keeps_or_fills_trans; [by eapply miss_fills|].
    eapply keeps_or_fills_trans; [apply log_event_fills|].
    by apply setCached_fills.
  - eapply keeps_or_fills_trans; [by eapply miss_fills|].
    apply log_event_fills.
Qed.

Lemma KeyStep_fills sessionId w r w' :
  KStep sessionId w r w' -> keeps_or_fills w w'.
Proof.
  intros [key w1 Hhit | entries key w1 Hmiss Hstore Hscan Hne
          | entries w1 Hmiss Hstore Hscan Hwarn
          | entries w1 Hmiss Hstore Hscan Hwarn | w1 Hmiss Hstore].
  - by eapply hit_fills.
  - eapply keeps_or_fills_trans; [by eapply miss_fills|].
    eapply keeps_or_fills_trans; [apply log_event_fills|].
    by apply setCached_fills.
  - eapply keeps_or_fills_trans; [by eapply miss_fills|].
    eapply keeps_or_fills_trans; [apply log_event_fills|].
    apply keeps_or_fills_same. intros c. apply cache_of_warn.
  - eapply keeps_or_fills_trans; [by eapply miss_fills|].
    eapply keeps_or_fills_trans; [apply log_event_fills|].
    apply keeps_or_fills_same. intros c. apply cache_of_warn.
  - eapply keeps_or_fills_trans; [by eapply miss_fills|].
    apply log_event_fills.
Qed.

Lemma emitted_fills runId key w : keeps_or_fills w (emitted uuid runId key w).
Proof. apply keeps_or_fills_same. by intros []. Qed.

Lemma Handled_fills sessionFile w r w' :
  Handled' sessionFile w r w' -> keeps_or_fills w w'.
Proof.
  intros [key w1 Hhit | w1 w2 Hmiss Hid
          | w1 w2 Hmiss Hmiss2 Hthrow
          | sid w1 w2 w3 Hmiss Hid Hkey
          | sid w1 w2 w3 Hmiss Hid Hkey
          | sid key w1 w2 w3 Hmiss Hid Hkey].
  - eapply keeps_or_fills_trans; [by eapply hit_fills | apply emitted_fills].
  - eapply keeps_or_fills_trans; [by eapply miss_fills|].
    by eapply IdentifierStep_fills.
  - eapply keeps_or_fills_trans; [by eapply miss_fills|].
    eapply keeps_or_fills_trans; [by eapply miss_fills|].
    apply log_event_fills.
  - eapply keeps_or_fills_trans; [by eapply miss_fills|].
    eapply keeps_or_fills_trans; [by eapply IdentifierStep_fills|].
    by eapply KeyStep_fills.
  - eapply keeps_or_fills_trans; [by eapply miss_fills|].
    eapply keeps_or_fills_trans; [by eapply IdentifierStep_fills|].
    by eapply KeyStep_fills.
  - eapply keeps_or_fills_trans; [by eapply miss_fills|].
    eapply keeps_or_fills_trans; [by eapply IdentifierStep_fills|].
    eapply keeps_or_fills_trans; [by eapply KeyStep_fills|].
    eapply keeps_or_fills_trans; [|apply emitted_fills].
    apply setCached_fills. by eapply KeyStep_nonempty.
Qed.

End Footprint.

(** ** What a failed resolution leaves behind *)

Section Failure.

Variable JSON_parse : jsstring -> option JsValue.
Variable utf8_decode : list Byte.byte -> jsstring.
Variable clock : nat -> Z.
Variable uuid : nat -> jsstring.
Variable has_log : bool.

Local Abbreviation handle := (handleUpdate JSON_parse utf8_decode clock uuid has_log).
Local Abbreviation Handled' := (Handled JSON_parse utf8_decode clock uuid has_log).
Local Abbreviation IdStep := (IdentifierStep JSON_parse utf8_decode clock).
Local Abbreviation KStep := (KeyStep clock has_log).
Local Abbreviation header := (header_of JSON_parse utf8_decode).

Lemma IdentifierStep_reads env sessionFile w r w' :
  IdStep env sessionFile w r w' ->
  trace w' = trace w \/ trace w' = trace w ++ [EvReadHeader sessionFile].
Proof.
  intros [sid w1 Hhit | sid w1 Hmiss Hread Hne | rd w1 Hmiss Hread Hfalsy].
  - left. by destruct (hit_frame _ _ _ _ _ _ Hhit).
  - right. destruct (miss_frame _ _ _ _ _ Hmiss) as [Ht _].
    destruct (setCached_frame clock IdByFile sessionFile sid
                (log_event (EvReadHeader sessionFile) w1)) as [-> _].
    simpl. by rewrite Ht.
  - right. destruct (miss_frame _ _ _ _ _ Hmiss) as [Ht _]. simpl.
    by rewrite Ht.
Qed.

Lemma unresolved_footprint env sessionFile w sid w1 w2 w3 r :
  miss clock KeyByFile sessionFile w w1 ->
  IdStep env sessionFile w1 (Some sid) w2 ->
  KStep env sid w2 r w3 ->
  match r with Ret (Some _) => False | _ => True end ->
  exists evs,
    trace w3 = trace w ++ evs /\
    Forall (fun ev => is_broadcast ev = false) evs /\
    failure_footprint JSON_parse utf8_decode env sessionFile w w3 evs.
Proof.
  intros Hmiss Hid Hkey Hr.
  destruct (miss_caches _ _ _ _ _ Hmiss) as (Hsub & _ & Hother & Hempty).
  pose proof (Hother IdByFile ltac:(done)) as Ho1.
  pose proof (Hother KeyById ltac:(done)) as Ho2.
  simpl in Hsub, Hempty, Ho1, Ho2.
  destruct (miss_frame _ _ _ _ _ Hmiss) as [Ht1 _].
  destruct (IdentifierStep_caches _ _ _ _ _ _ _ _ Hid)
    as (Hi1 & Hi2 & Hi3 & e & He & Hv).
  pose proof (IdentifierStep_nonempty _ _ _ _ _ _ _ _ Hid) as Hsid.
  pose proof (IdentifierStep_reads _ _ _ _ _ Hid) as Ht2.
  destruct (KeyStep_caches _ _ _ _ _ _ _ Hkey) as (Hk1 & Hk2 & _ & Hk3).
  destruct (KeyStep_trace _ _ _ _ _ _ _ Hkey) as (_ & Ht3).
  assert (Hquiet : sessionKeyById w3 ⊆ sessionKeyById w2 /\
                   (forall e, sessionKeyById w3 !! sid = Some e -> value e = []) /\
                   exists tail,
                     trace w3 = trace w2 ++ [EvResolve sid] ++ tail /\
                     Forall (fun ev => is_broadcast ev = false) tail /\
                     forall sid', EvResolve sid' ∉ tail).
  { assert (Hwarned : forall tail,
      tail = (if has_log then [EvWarn (not_found_message sid)] else []) ->
      Forall (fun ev => is_broadcast ev = false) tail /\
      forall sid', EvResolve sid' ∉ tail).
    { intros tail ->. destruct has_log.
      - split; [by repeat constructor|]. intros sid' Hin.
        apply list_elem_of_singleton in Hin. discriminate.
      - split; [constructor|]. intros sid'. apply not_elem_of_nil. }
    destruct r as [[key|]|]; [done| |].
    - destruct Hk3 as [? ?], Ht3 as [Ht3 _]. split_and!; [done..|].
      exists (if has_log then [EvWarn (not_found_message sid)] else []).
      split; [done|]. by apply Hwarned.
    - destruct Hk3 as [? ?]. split_and!; [done..|].
      destruct Ht3 as [[Ht3 _] | (Ht3 & _)].
      + exists []. rewrite app_nil_r. split; [done|]. split; [constructor|].
        intros sid'. apply not_elem_of_nil.
      + exists (if has_log then [EvWarn (not_found_message sid)] else []).
        split; [done|]. by apply Hwarned. }
  destruct Hquiet as (Hk4 & Hk5 & tail & Ht3' & Htail & Hnores).
  assert (Hreads : exists reads,
             trace w2 = trace w ++ reads /\
             Forall (fun ev => is_broadcast ev = false) reads /\
             forall sid', EvResolve sid' ∉ reads).
  { destruct Ht2 as [Ht2|Ht2]; rewrite Ht2, Ht1.
    - exists []. rewrite app_nil_r. split; [done|]. split; [constructor|].
      intros sid'. apply not_elem_of_nil.
    - exists [EvReadHeader sessionFile]. split; [done|].
      split; [by repeat constructor|]. intros sid' Hin.
      apply list_elem_of_singleton in Hin. discriminate. }
  destruct Hreads as (reads & Ht2' & Hreads & Hnores').
  exists (reads ++ [EvResolve sid] ++ tail). split_and!.
  - rewrite Ht3', Ht2'. by rewrite <- app_assoc.
  - apply Forall_app. split; [done|]. apply Forall_app. split; [|done].
    by repeat constructor.
  - unfold failure_footprint. rewrite Hk1, Hk2, Hi1. split_and!.
    + done.
    + etrans; [exact Hk4|]. by rewrite Hi2, Ho2.
    + intros k e' He'. rewrite <- Ho1. by apply Hi3.
    + done.
    + intros sid' Hin. rewrite !elem_of_app in Hin.
      destruct Hin as [Hin | [Hin | Hin]];
        [by destruct (Hnores' sid') | | by destruct (Hnores sid')].
      apply list_elem_of_singleton in Hin. injection Hin as ->.
      split_and!; [done..|]. by exists e.
Qed.


End Failure.

(** ** The next notification after a failure *)

Section Retry.

Variable JSON_parse : jsstring -> option JsValue.
Variable utf8_decode : list Byte.byte -> jsstring.
Variable clock : nat -> Z.
Variable uuid : nat -> jsstring.
Variable has_log : bool.

Local Abbreviation handle := (handleUpdate JSON_parse utf8_decode clock uuid has_log).
Local Abbreviation Handled' := (Handled JSON_parse utf8_decode clock uuid has_log).
Local Abbreviation IdStep := (IdentifierStep JSON_parse utf8_decode clock).
Local Abbreviation KStep := (KeyStep clock has_log).
Local Abbreviation header := (header_of JSON_parse utf8_decode).

Lemma miss_ticks c key w w' :
  miss clock c key w w' -> (ticks w <= ticks w')%nat.
Proof.
  intros [[_ ->] | [(e & _ & _ & ->) | (e & _ & _ & _ & ->)]]%miss_inv;
    [lia| |simpl; lia].
  destruct c; simpl; lia.
Qed.

Lemma miss_ticks_exact c key w w' :
  miss clock c key w w' ->
  ticks w' = match cache_of c w !! key with
             | Some _ => S (ticks w)
             | None => ticks w
             end.
Proof.
  intros [[-> ->] | [(e & -> & _ & ->) | (e & -> & _ & _ & ->)]]%miss_inv;
    [done| |done].
  by destruct c.
Qed.

Lemma live_entry_not_missed c key w w' e :
  cache_of c w !! key = Some e -> value e <> [] ->
  clock (ticks w) - ts e <= CACHE_TTL_MS ->
  miss clock c key w w' -> False.
Proof.
  intros He Hv Hlive
    [[Hn _] | [(e' & He' & Hexp & _) | (e' & He' & Hv' & _)]]%miss_inv.
  - congruence.
  - replace e' with e in * by congruence. lia.
  - replace e' with e in * by congruence. done.
Qed.





End Retry.



(** ** Non-empty values, and the notification boundary *)

Section NonEmpty.

Variable JSON_parse : jsstring -> option JsValue.
Variable utf8_decode : list Byte.byte -> jsstring.
Variable clock : nat -> Z.
Variable uuid : nat -> jsstring.
Variable has_log : bool.

Local Abbreviation handle := (handleUpdate JSON_parse utf8_decode clock uuid has_log).
Local Abbreviation on_update := (onUpdate JSON_parse utf8_decode clock uuid has_log).
Local Abbreviation deliver' := (deliver JSON_parse utf8_decode clock uuid has_log).
Local Abbreviation IdStep := (IdentifierStep JSON_parse utf8_decode clock).

Lemma scan_lines_nonempty lines : scan_lines JSON_parse lines <> Some [].
Proof.
  induction lines as [|line rest IH]; simpl; [done|].
  destruct (is_blank (trim line)); [done|].
  destruct (JSON_parse (trim line)) as [parsed|]; [|done].
  destruct (negb _); [done|].
  destruct (trimmed_string_or_empty _) as [|a id]; [done|]. done.
Qed.

Lemma reader_nonempty fs sessionFile :
  readSessionIdFromTranscript JSON_parse utf8_decode fs sessionFile
    <> Ret (Some []).
Proof.
  unfold readSessionIdFromTranscript, header_answer.
  destruct (fs sessionFile) as [| |bytes|rd]; [done..| |done].
  cbv zeta. destruct (_ <=? _)%nat; [done|].
  intros [= H]. by apply scan_lines_nonempty in H.
Qed.

Lemma onUpdate_fills env update w : keeps_or_fills w (on_update env update w).2.
Proof.
  destruct (trim <$> update_sessionFile update) as [[|a f]|] eqn:Hpath;
    try (rewrite onUpdate_blank by (by rewrite Hpath);
         apply keeps_or_fills_refl).
  rewrite (onUpdate_nonblank _ _ _ _ _ _ _ _ _ _ Hpath).
  pose proof (handleUpdate_Handled JSON_parse utf8_decode clock uuid has_log
                env (a :: f) w) as Hh%Handled_fills.
  destruct (handle env (a :: f) w) as [[[]|] w']; [done|].
  eapply keeps_or_fills_trans; [exact Hh|].
  apply keeps_or_fills_same. intros c. apply cache_of_warn.
Qed.

Lemma deliver_fills ns : forall w, keeps_or_fills w (deliver' ns w).
Proof.
  induction ns as [|[env update] ns IH]; intros w; simpl.
  - apply keeps_or_fills_refl.
  - eapply keeps_or_fills_trans; [apply onUpdate_fills | apply IH].
Qed.

(** C10: every broadcast of [handleUpdate] carries a non-empty session
    key, and a run identifier of the resolved form embeds a non-empty
    session identifier; every cache entry present after a call was there
    before or has a non-empty value, so a bridge that starts with empty
    caches never holds an empty value; a cached empty value is a miss;
    the header reader never answers the empty identifier; and an empty
    key found by the resolver counts as a failed resolution: a warning,
    no broadcast. *)
Theorem emitted_and_cached_values_nonempty :
  (forall env sessionFile w ev,
      ev ∈ new_events w (handle env sessionFile w).2 ->
      is_broadcast ev = true ->
      exists runId sessionKey,
        ev = broadcast_event runId sessionKey /\ sessionKey <> [] /\
        (runId = fast_runId (uuid (drawn w)) \/
         exists sessionId,
           sessionId <> [] /\
           runId = resolved_runId sessionId (uuid (drawn w)))) /\
  (forall env sessionFile w,
      keeps_or_fills w (handle env sessionFile w).2) /\
  (forall ns c k e,
      cache_of c (deliver' ns attached) !! k = Some e -> value e <> []) /\
  (forall c key w e,
      cache_of c w !! key = Some e -> value e = [] ->
      exists w', miss clock c key w w') /\
  (forall fs sessionFile,
      readSessionIdFromTranscript JSON_parse utf8_decode fs sessionFile
        <> Ret (Some [])) /\
  (forall env sessionFile w w1 w2 w3 sessionId entries,
      miss clock KeyByFile sessionFile w w1 ->
      IdStep env sessionFile w1 (Some sessionId) w2 ->
      miss clock KeyById sessionId w2 w3 ->
      store env = Some entries ->
      scan_store entries sessionId = Some [] ->
      let evs := new_events w (handle env sessionFile w).2 in
      Forall (fun ev => is_broadcast ev = false) evs /\
      warnings evs
      = if has_log then [not_found_message sessionId] else []).
Proof.
  split_and!.
  - intros env sessionFile w ev Hin Hb.
    destruct (handle_broadcast JSON_parse utf8_decode clock uuid has_log env
                sessionFile w ev Hin Hb)
      as (key & Hkey & [[_ ->] | (_ & sid & Hsid & ->)]).
    + eexists _, _. split; [done|]. split; [done|]. by left.
    + eexists _, _. split; [done|]. split; [done|]. right. by exists sid.
  - intros env sessionFile w. eapply Handled_fills.
    apply handleUpdate_Handled.
  - intros ns c k e He.
    destruct (deliver_fills ns attached c k e He) as [Hold|]; [|done].
    by destruct c.
  - intros c key w e He Hv.
    destruct (hit_or_miss clock c key w) as [(v & w' & Hhit)|]; [|done].
    pose proof Hhit as [_ Hne].
    destruct (hit_inv _ _ _ _ _ _ Hhit) as (e' & He' & Hv' & _).
    replace e' with e in * by congruence. congruence.
  - apply reader_nonempty.
  - intros env sessionFile w w1 w2 w3 sid entries Hmiss Hid Hmiss' Hstore
      Hscan evs. subst evs.
    destruct (Unresolvable_run JSON_parse utf8_decode clock uuid has_log env
                sessionFile w sid) as (w4 & lookups & Hrun & Hl & _ & _ & Ht).
    { exists w1, w2, w3, entries. split_and!; [done..|]. by rewrite Hscan. }
    rewrite Hrun. simpl. rewrite (new_events_app _ _ _ Ht).
    destruct (lookups_silent _ Hl) as (Hw & _ & _ & Hf).
    split.
    + apply Forall_app. split.
      * apply Forall_forall. intros ev Hin.
        rewrite Forall_forall in Hl. specialize (Hl _ Hin). by destruct ev.
      * destruct has_log; by repeat constructor.
    + rewrite warnings_app, Hw. by destruct has_log.
Qed.

(** C9: a notification whose path is absent, empty or made of whitespace
    only is dropped: the callback returns with the world untouched (no
    cache lookup, no file read, no store scan, no broadcast, no warning).
    Otherwise [handleUpdate] runs on the trimmed path, which is thereby
    the cache key, so that a path and its trimmed form are handled
    alike. *)
Theorem blank_path_dropped env update w :
  (update_sessionFile update = None ->
   on_update env update w = (Ret tt, w)) /\
  (forall path,
      update_sessionFile update = Some path -> trim path = [] ->
      on_update env update w = (Ret tt, w)) /\
  (forall path,
      update_sessionFile update = Some path -> trim path <> [] ->
      on_update env update w
      = try_catch (handle env (trim path))
          (warn has_log env (failure_message (trim path))) w /\
      on_update env update w
      = on_update env {| update_sessionFile := Some (trim path) |} w).
Proof.
  split_and!.
  - intros Hnone. apply onUpdate_blank. by rewrite Hnone.
  - intros path Hsome Hblank. apply onUpdate_blank. rewrite Hsome. simpl.
    by rewrite Hblank.
  - intros path Hsome Hne. unfold onUpdate. rewrite Hsome. simpl.
    rewrite trim_idem. by destruct (trim path).
Qed.

End NonEmpty.

Lemma emitted_and_cached_values_nonempty_witness :
  let ev := broadcast_event (lit "transcript-sess-42-" ++ Demo.uuid 0)
              (lit "key-alpha") in
  exists runId sessionKey,
    ev = broadcast_event runId sessionKey /\ sessionKey <> [] /\
    (runId = fast_runId (Demo.uuid (drawn attached)) \/
     exists sessionId,
       sessionId <> [] /\
       runId = resolved_runId sessionId (Demo.uuid (drawn attached))).
Proof.
  intros ev.
  apply (proj1 (emitted_and_cached_values_nonempty Demo.parse Demo.decode
                  Demo.clock Demo.uuid true)
           Demo.env Demo.a_log attached ev).
  - vm_compute. do 2 right. left.
  - reflexivity.
Defined.

Lemma blank_path_dropped_witness :
  onUpdate Demo.parse Demo.decode Demo.clock Demo.uuid true Demo.env
    {| update_sessionFile := Some (lit "   ") |} attached
  = (Ret tt, attached).
Proof.
  apply (proj1 (proj2 (blank_path_dropped Demo.parse Demo.decode Demo.clock
                         Demo.uuid true Demo.env
                         {| update_sessionFile := Some (lit "   ") |} attached))
           (lit "   ")); reflexivity.
Defined.

(** * Further properties of the bridge *)

Section BridgeExtras.

Variable JSON_parse : jsstring -> option JsValue.
Variable utf8_decode : list Byte.byte -> jsstring.
Variable clock : nat -> Z.
Variable uuid : nat -> jsstring.
Variable has_log : bool.

Local Abbreviation handle := (handleUpdate JSON_parse utf8_decode clock uuid has_log).
Local Abbreviation on_update := (onUpdate JSON_parse utf8_decode clock uuid has_log).
Local Abbreviation handle_all' := (handle_all JSON_parse utf8_decode clock uuid has_log).
Local Abbreviation Handled' := (Handled JSON_parse utf8_decode clock uuid has_log).
Local Abbreviation IdStep := (IdentifierStep JSON_parse utf8_decode clock).
Local Abbreviation KStep := (KeyStep clock has_log).

Lemma hit_miss_exclusive c key w v w1 w2 :
  hit clock c key w v w1 -> miss clock c key w w2 -> False.
Proof.
  intros [Hg Hne] (r & Hg' & Hr). rewrite Hg in Hg'. injection Hg' as <- _.
  by destruct v.
Qed.

Lemma hit_ticks c key w v w' :
  hit clock c key w v w' -> ticks w' = S (ticks w).
Proof. by intros (e & _ & _ & _ & ->)%hit_inv. Qed.

Lemma setCached_ticks c key v w :
  ticks (setCached clock c key v w).2 = S (ticks w).
Proof. rewrite setCached_eq. by destruct c. Qed.

Lemma IdentifierStep_ticks_bound env sessionFile w r w' :
  IdStep env sessionFile w r w' ->
  (ticks w <= ticks w' <= S (S (ticks w)))%nat /\
  (r <> None -> (S (ticks w) <= ticks w')%nat).
Proof.
  intros [sid w1 Hhit | sid w1 Hmiss _ _ | rd w1 Hmiss _ _].
  - rewrite (hit_ticks _ _ _ _ _ Hhit). split; [|intros _]; lia.
  - rewrite setCached_ticks. cbn [log_event ticks].
    rewrite (miss_ticks_exact _ _ _ _ _ Hmiss).
    destruct (cache_of IdByFile w !! sessionFile); (split; [|intros _]; lia).
  - cbn [log_event ticks]. rewrite (miss_ticks_exact _ _ _ _ _ Hmiss).
    split; [|done]. destruct (cache_of IdByFile w !! sessionFile); lia.
Qed.

Lemma not_live_if_missed c key w0 w w' :
  cache_of c w !! key = cache_of c w0 !! key ->
  miss clock c key w w' ->
  forall e, cache_of c w0 !! key = Some e -> ~ live_at clock (ticks w) e.
Proof.
  intros Hsame Hmiss e He [Hv Hlive].
  apply (live_entry_not_missed clock c key w w' e); [congruence|done|done|done].
Qed.

(** Where the reader and resolver calls of a run come from. *)
Lemma Handled_lookup_events env sessionFile w r w' :
  Handled' env sessionFile w r w' ->
  exists evs,
    trace w' = trace w ++ evs /\
    (forall g, EvReadHeader g ∈ evs ->
               g = sessionFile /\
               exists w1 w1', miss clock KeyByFile sessionFile w w1 /\
                              miss clock IdByFile sessionFile w1 w1') /\
    (forall sid, EvResolve sid ∈ evs ->
                 exists w1 w2 w2',
                   miss clock KeyByFile sessionFile w w1 /\
                   IdStep env sessionFile w1 (Some sid) w2 /\
                   miss clock KeyById sid w2 w2').
Proof.
  assert (Hid : forall w1 r2 w2,
    IdStep env sessionFile w1 r2 w2 ->
    exists reads,
      trace w2 = trace w1 ++ reads /\
      (forall sid, EvResolve sid ∉ reads) /\
      (forall g, EvReadHeader g ∈ reads ->
                 g = sessionFile /\
                 exists w1', miss clock IdByFile sessionFile w1 w1')).
  { intros w1 r2 w2 [sid w1' Hhit | sid w1' Hmiss _ _ | rd w1' Hmiss _ _].
    - exists []. destruct (hit_frame _ _ _ _ _ _ Hhit) as [-> _].
      rewrite app_nil_r. split; [done|].
      split; intros ?; [apply not_elem_of_nil|]. by intros ?%elem_of_nil.
    - exists [EvReadHeader sessionFile].
      destruct (setCached_frame clock IdByFile sessionFile sid
                  (log_event (EvReadHeader sessionFile) w1')) as [-> _].
      destruct (miss_frame _ _ _ _ _ Hmiss) as [Ht _]. simpl. rewrite Ht.
      split; [done|]. split.
      + intros sid' Hin%list_elem_of_singleton. discriminate.
      + intros g [= ->]%list_elem_of_singleton. split; [done|]. by exists w1'.
    - exists [EvReadHeader sessionFile].
      destruct (miss_frame _ _ _ _ _ Hmiss) as [Ht _]. simpl. rewrite Ht.
      split; [done|]. split.
      + intros sid' Hin%list_elem_of_singleton. discriminate.
      + intros g [= ->]%list_elem_of_singleton. split; [done|]. by exists w1'. }
  assert (Hkey : forall sid w2 r3 w3,
    KStep env sid w2 r3 w3 ->
    exists asks,
      trace w3 = trace w2 ++ asks /\
      (forall g, EvReadHeader g ∉ asks) /\
      (forall sid', EvResolve sid' ∈ asks ->
                    sid' = sid /\ exists w2', miss clock KeyById sid w2 w2')).
  { intros sid w2 r3 w3 Hk.
    pose proof (KeyStep_trace _ _ _ _ _ _ _ Hk) as (_ & Ht).
    assert (Hwarned : forall w2',
      miss clock KeyById sid w2 w2' ->
      let asks := [EvResolve sid]
                    ++ (if has_log then [EvWarn (not_found_message sid)]
                        else []) in
      (forall g, EvReadHeader g ∉ asks) /\
      (forall sid', EvResolve sid' ∈ asks ->
                    sid' = sid /\ exists w2', miss clock KeyById sid w2 w2')).
    { intros w2' Hmiss asks. subst asks. split.
      - intros g. rewrite elem_of_app, list_elem_of_singleton.
        intros [?|Hin]; [discriminate|]. destruct has_log.
        + apply list_elem_of_singleton in Hin. discriminate.
        + by apply elem_of_nil in Hin.
      - intros sid'. rewrite elem_of_app, list_elem_of_singleton.
        intros [[= ->]|Hin]; [split; [done|]; by exists w2'|].
        destruct has_log.
        + apply list_elem_of_singleton in Hin. discriminate.
        + by apply elem_of_nil in Hin. }
    destruct Hk as [key w2' Hhit | entries key w2' Hmiss _ _ _
                    | entries w2' Hmiss _ _ _
                    | entries w2' Hmiss Hstore _ _ | w2' Hmiss Hstore].
    - exists []. destruct (hit_frame _ _ _ _ _ _ Hhit) as [-> _].
      rewrite app_nil_r. split; [done|].
      split; intros ?; [apply not_elem_of_nil|]. by intros ?%elem_of_nil.
    - exists [EvResolve sid].
      destruct (setCached_frame clock KeyById sid key
                  (log_event (EvResolve sid) w2')) as [-> _].
      destruct (miss_frame _ _ _ _ _ Hmiss) as [Ht' _]. simpl. rewrite Ht'.
      split; [done|]. split.
      + intros g Hin%list_elem_of_singleton. discriminate.
      + intros sid' [= ->]%list_elem_of_singleton. split; [done|]. by exists w2'.
    - destruct Ht as [-> _]. eexists. split; [done|]. by apply (Hwarned w2').
    - destruct Ht as [[_ ?] | (-> & _)]; [congruence|].
      eexists. split; [done|]. by apply (Hwarned w2').
    - destruct Ht as [[-> _] | (_ & _ & ? & ? & _)]; [|congruence].
      exists [EvResolve sid]. split; [done|]. split.
      + intros g Hin%list_elem_of_singleton. discriminate.
      + intros sid' [= ->]%list_elem_of_singleton. split; [done|]. by exists w2'. }
  assert (Hslow : forall sid w1 w2 r3 w3,
    miss clock KeyByFile sessionFile w w1 ->
    IdStep env sessionFile w1 (Some sid) w2 ->
    KStep env sid w2 r3 w3 ->
    exists evs,
      trace w3 = trace w ++ evs /\
      (forall g, EvReadHeader g ∈ evs ->
                 g = sessionFile /\
                 exists w1 w1', miss clock KeyByFile sessionFile w w1 /\
                                miss clock IdByFile sessionFile w1 w1') /\
      (forall sid', EvResolve sid' ∈ evs ->
                    exists w1 w2 w2',
                      miss clock KeyByFile sessionFile w w1 /\
                      IdStep env sessionFile w1 (Some sid') w2 /\
                      miss clock KeyById sid' w2 w2')).
  { intros sid w1 w2 r3 w3 Hmiss Hi Hk.
    destruct (miss_frame _ _ _ _ _ Hmiss) as [Ht1 _].
    destruct (Hid _ _ _ Hi) as (reads & Ht2 & Hnr & Hreads).
    destruct (Hkey _ _ _ _ Hk) as (asks & Ht3 & Hnh & Hasks).
    exists (reads ++ asks). split; [by rewrite Ht3, Ht2, Ht1, app_assoc|].
    split.
    - intros g [Hin|Hin]%elem_of_app; [|by destruct (Hnh g)].
      destruct (Hreads g Hin) as (-> & w1' & Hm). split; [done|].
      by exists w1, w1'.
    - intros sid' [Hin|Hin]%elem_of_app; [by destruct (Hnr sid')|].
      destruct (Hasks sid' Hin) as (-> & w2' & Hm). by exists w1, w2, w2'. }
  intros [key w1 Hhit | w1 w2 Hmiss Hi
          | w1 w2 Hmiss Hmiss2 Hthrow
          | sid w1 w2 w3 Hmiss Hi Hk
          | sid w1 w2 w3 Hmiss Hi Hk
          | sid key w1 w2 w3 Hmiss Hi Hk].
  - destruct (hit_frame _ _ _ _ _ _ Hhit) as [Ht _].
    eexists. split; [unfold emitted; simpl; by rewrite Ht|].
    split; intros ? Hin%list_elem_of_singleton; discriminate.
  - destruct (miss_frame _ _ _ _ _ Hmiss) as [Ht1 _].
    destruct (Hid _ _ _ Hi) as (reads & Ht2 & Hnr & Hreads).
    exists reads. split; [by rewrite Ht2, Ht1|]. split.
    + intros g Hin. destruct (Hreads g Hin) as (-> & w1' & Hm).
      split; [done|]. by exists w1, w1'.
    + intros sid Hin. by destruct (Hnr sid).
  - destruct (miss_frame _ _ _ _ _ Hmiss) as [Ht1 _].
    destruct (miss_frame _ _ _ _ _ Hmiss2) as [Ht2 _].
    exists [EvReadHeader sessionFile]. split; [simpl; by rewrite Ht2, Ht1|].
    split.
    + intros g [= ->]%list_elem_of_singleton. split; [done|]. by exists w1, w2.
    + intros sid Hin%list_elem_of_singleton. discriminate.
  - by apply (Hslow sid w1 w2 (Ret None) w3).
  - by apply (Hslow sid w1 w2 Throw w3).
  - destruct (Hslow sid w1 w2 (Ret (Some key)) w3 Hmiss Hi Hk)
      as (evs & Ht & Hr & Hs).
    exists (evs ++ [broadcast_event
                      (resolved_runId sid
                         (uuid (drawn (setCached clock KeyByFile sessionFile key
                                         w3).2)))
                      key]).
    split.
    { unfold emitted. cbn [log_event trace with_drawn].
      destruct (setCached_frame clock KeyByFile sessionFile key w3) as [-> _].
      by rewrite Ht, app_assoc. }
    split.
    + intros g [Hin|Hin%list_elem_of_singleton]%elem_of_app;
        [by apply Hr | discriminate].
    + intros sid' [Hin|Hin%list_elem_of_singleton]%elem_of_app;
        [by apply Hs | discriminate].
Qed.

(** X1: the header reader is called only for the notified file, and only
    when neither the file-to-key cache nor the file-to-identifier cache
    answered: an entry either cache held for the file was empty or expired
    at the clock reading of its lookup.  That reading is the first of the
    call for the file-to-key cache, and for the other cache the second, or
    the first when the file-to-key cache had no entry to date. *)
Theorem reader_called_only_on_miss env sessionFile w g :
  EvReadHeader g ∈ new_events w (handle env sessionFile w).2 ->
  g = sessionFile /\
  (forall e, sessionKeyByFile w !! sessionFile = Some e ->
             ~ live_at clock (ticks w) e) /\
  (forall e, sessionIdByFile w !! sessionFile = Some e ->
             ~ live_at clock
                 (match sessionKeyByFile w !! sessionFile with
                  | Some _ => S (ticks w)
                  | None => ticks w
                  end) e).
Proof.
  intros Hin.
  destruct (Handled_lookup_events _ _ _ _ _
              (handleUpdate_Handled JSON_parse utf8_decode clock uuid has_log
                 env sessionFile w)) as (evs & Ht & Hreads & _).
  rewrite (new_events_app _ _ _ Ht) in Hin.
  destruct (Hreads g Hin) as (-> & w1 & w1' & Hm1 & Hm2).
  split; [done|]. split.
  - by apply (not_live_if_missed KeyByFile sessionFile w w w1).
  - pose proof (miss_ticks_exact _ _ _ _ _ Hm1) as Hticks. simpl in Hticks.
    rewrite <- Hticks.
    apply (not_live_if_missed IdByFile sessionFile w w1 w1'); [|done].
    destruct (miss_caches _ _ _ _ _ Hm1) as (_ & _ & Hother & _).
    by rewrite (Hother IdByFile).
Qed.

(** X2: the resolver is asked (and the store loaded) only when neither the
    file-to-key cache answered for the file nor the identifier-to-key cache
    for the identifier asked about: an entry either cache held was empty or
    expired at the clock reading of its lookup, which for the second cache
    comes after one to three earlier readings of the call. *)
Theorem resolver_called_only_on_miss env sessionFile w sid :
  EvResolve sid ∈ new_events w (handle env sessionFile w).2 ->
  (forall e, sessionKeyByFile w !! sessionFile = Some e ->
             ~ live_at clock (ticks w) e) /\
  (forall e, sessionKeyById w !! sid = Some e ->
             exists n, (ticks w + 1 <= n <= ticks w + 3)%nat /\
                       ~ live_at clock n e).
Proof.
  intros Hin.
  destruct (Handled_lookup_events _ _ _ _ _
              (handleUpdate_Handled JSON_parse utf8_decode clock uuid has_log
                 env sessionFile w)) as (evs & Ht & _ & Hasks).
  rewrite (new_events_app _ _ _ Ht) in Hin.
  destruct (Hasks sid Hin) as (w1 & w2 & w2' & Hm1 & Hi & Hm2).
  split.
  - by apply (not_live_if_missed KeyByFile sessionFile w w w1).
  - intros e He. exists (ticks w2). split.
    + pose proof (miss_ticks _ _ _ _ _ Hm1).
      pose proof (miss_ticks_exact _ _ _ _ _ Hm1) as Hex. simpl in Hex.
      destruct (IdentifierStep_ticks_bound _ _ _ _ _ Hi) as [Hb Hs].
      specialize (Hs ltac:(done)).
      destruct (sessionKeyByFile w !! sessionFile); lia.
    + apply (not_live_if_missed KeyById sid w w2 w2'); [|done|done].
      destruct (miss_caches _ _ _ _ _ Hm1) as (_ & _ & Hother & _).
      destruct (IdentifierStep_caches _ _ _ _ _ _ _ _ Hi) as (_ & Hk & _).
      pose proof (Hother KeyById ltac:(done)) as Ho. simpl in Ho |- *.
      by rewrite Hk, Ho.
Qed.

End BridgeExtras.

Lemma reader_called_only_on_miss_witness :
  let w := deliver Demo.parse Demo.decode Samples.slow_clock Demo.uuid true
             [Demo.notify Demo.a_log; Demo.notify Demo.a_log;
              Demo.notify Demo.a_log] attached in
  Demo.a_log = Demo.a_log /\
  (forall e, sessionKeyByFile w !! Demo.a_log = Some e ->
             ~ live_at Samples.slow_clock (ticks w) e) /\
  (forall e, sessionIdByFile w !! Demo.a_log = Some e ->
             ~ live_at Samples.slow_clock
                 (match sessionKeyByFile w !! Demo.a_log with
                  | Some _ => S (ticks w)
                  | None => ticks w
                  end) e).
Proof.
  intros w.
  apply (reader_called_only_on_miss Demo.parse Demo.decode Samples.slow_clock
           Demo.uuid true Demo.env Demo.a_log w Demo.a_log).
  vm_compute. left.
Defined.

Lemma resolver_called_only_on_miss_witness :
  let w := deliver Demo.parse Demo.decode Samples.slow_clock Demo.uuid true
             [Demo.notify Demo.a_log; Demo.notify Demo.a_log;
              Demo.notify Demo.a_log] attached in
  (forall e, sessionKeyByFile w !! Demo.a_log = Some e ->
             ~ live_at Samples.slow_clock (ticks w) e) /\
  (forall e, sessionKeyById w !! lit "sess-42" = Some e ->
             exists n, (ticks w + 1 <= n <= ticks w + 3)%nat /\
                       ~ live_at Samples.slow_clock n e).
Proof.
  intros w.
  apply (resolver_called_only_on_miss Demo.parse Demo.decode
           Samples.slow_clock Demo.uuid true Demo.env Demo.a_log w
           (lit "sess-42")).
  vm_compute. right. left.
Defined.

Section BridgeCaches.

Variable JSON_parse : jsstring -> option JsValue.
Variable utf8_decode : list Byte.byte -> jsstring.
Variable clock : nat -> Z.
Variable uuid : nat -> jsstring.
Variable has_log : bool.

Local Abbreviation handle := (handleUpdate JSON_parse utf8_decode clock uuid has_log).
Local Abbreviation on_update := (onUpdate JSON_parse utf8_decode clock uuid has_log).
Local Abbreviation handle_all' := (handle_all JSON_parse utf8_decode clock uuid has_log).
Local Abbreviation Handled' := (Handled JSON_parse utf8_decode clock uuid has_log).
Local Abbreviation IdStep := (IdentifierStep JSON_parse utf8_decode clock).
Local Abbreviation KStep := (KeyStep clock has_log).

Lemma KeyStep_key_cached env sid w key w' :
  KStep env sid w (Ret (Some key)) w' ->
  exists e, sessionKeyById w' !! sid = Some e /\ value e = key.
Proof.
  inversion 1 as [key' w1 Hhit | entries key' w1 Hmiss Hstore Hscan Hne
                  | | |]; subst.
  - destruct (hit_inv _ _ _ _ _ _ Hhit) as (e & He & Hv & _ & ->). by exists e.
  - rewrite setCached_eq. simpl. eexists.
    split; [apply lookup_insert_eq | done].
Qed.

Lemma IdentifierStep_other env sessionFile w r w' g :
  IdStep env sessionFile w r w' -> g <> sessionFile ->
  sessionIdByFile w' !! g = sessionIdByFile w !! g.
Proof.
  intros [sid w1 Hhit | sid w1 Hmiss _ _ | rd w1 Hmiss _ _] Hg.
  - pose proof (hit_caches _ _ _ _ _ _ Hhit IdByFile) as Hc. simpl in Hc.
    by rewrite Hc.
  - destruct (miss_caches _ _ _ _ _ Hmiss) as (_ & Hk & _).
    rewrite setCached_eq. simpl. rewrite lookup_insert_ne by done.
    by apply Hk.
  - destruct (miss_caches _ _ _ _ _ Hmiss) as (_ & Hk & _). by apply Hk.
Qed.

Lemma KeyStep_other env sid w r w' k :
  KStep env sid w r w' -> k <> sid ->
  sessionKeyById w' !! k = sessionKeyById w !! k.
Proof.
  intros [key w1 Hhit | entries key w1 Hmiss _ _ _
          | entries w1 Hmiss _ _ _
          | entries w1 Hmiss _ _ _ | w1 Hmiss _] Hk.
  - pose proof (hit_caches _ _ _ _ _ _ Hhit KeyById) as Hc. simpl in Hc.
    by rewrite Hc.
  - destruct (miss_caches _ _ _ _ _ Hmiss) as (_ & Hl & _).
    rewrite setCached_eq. simpl. rewrite lookup_insert_ne by done.
    by apply Hl.
  - destruct (miss_caches _ _ _ _ _ Hmiss) as (_ & Hl & _).
    rewrite warn_eq. destruct has_log; simpl; by apply Hl.
  - destruct (miss_caches _ _ _ _ _ Hmiss) as (_ & Hl & _).
    rewrite warn_eq. destruct has_log; simpl; by apply Hl.
  - destruct (miss_caches _ _ _ _ _ Hmiss) as (_ & Hl & _). by apply Hl.
Qed.

(** The resolved path: its trace and what it caches. *)
Lemma resolved_run env sessionFile w sid key w1 w2 w3 :
  miss clock KeyByFile sessionFile w w1 ->
  IdStep env sessionFile w1 (Some sid) w2 ->
  KStep env sid w2 (Ret (Some key)) w3 ->
  let w' := emitted uuid (resolved_runId sid) key
              (setCached clock KeyByFile sessionFile key w3).2 in
  (exists lookups,
      Forall (fun e => is_lookup e = true) lookups /\
      trace w' = trace w ++ lookups
                   ++ [broadcast_event (resolved_runId sid (uuid (drawn w))) key]) /\
  sessionKeyByFile w' !! sessionFile
    = Some {| value := key; ts := clock (pred (ticks w')) |} /\
  (exists e, sessionIdByFile w' !! sessionFile = Some e /\ value e = sid) /\
  (exists e, sessionKeyById w' !! sid = Some e /\ value e = key).
Proof.
  intros Hmiss Hi Hk w'. subst w'.
  destruct (miss_frame _ _ _ _ _ Hmiss) as [Ht1 Hd1].
  destruct (IdentifierStep_trace _ _ _ _ _ _ _ _ Hi)
    as (Hd2 & reads & Ht2 & Hreads & _).
  destruct (KeyStep_trace _ _ _ _ _ _ _ Hk) as (Hd3 & _ & Ht3).
  destruct (IdentifierStep_caches _ _ _ _ _ _ _ _ Hi)
    as (_ & _ & _ & e2 & He2 & Hv2).
  destruct (KeyStep_caches _ _ _ _ _ _ _ Hk) as (_ & Hk2 & _).
  destruct (KeyStep_key_cached _ _ _ _ _ Hk) as (e3 & He3 & Hv3).
  destruct (setCached_frame clock KeyByFile sessionFile key w3) as [Ht4 Hd4].
  unfold emitted. cbn [log_event with_drawn trace drawn ticks sessionKeyByFile
                         sessionIdByFile sessionKeyById].
  rewrite Ht4, Hd4, Hd3, Hd2, Hd1. rewrite setCached_eq. simpl. split_and!.
  - destruct Ht3 as [Ht3|Ht3]; rewrite Ht3, Ht2, Ht1.
    + exists reads. split; [done|]. by rewrite <- app_assoc.
    + exists (reads ++ [EvResolve sid]).
      split; [apply Forall_app; split; [done | by repeat constructor]|].
      by rewrite <- !app_assoc.
  - apply lookup_insert_eq.
  - exists e2. by rewrite Hk2.
  - by exists e3.
Qed.

(** X3: a broadcast that did not come from the file-to-key cache leaves all
    three caches filled: the file maps to the broadcast key (stamped with
    the latest clock reading) and to the session identifier, and the
    identifier maps to the key.  This holds whether or not the broadcast
    sink then raised. *)
Theorem resolution_fills_all_caches env sessionFile w ev :
  let w' := (handle env sessionFile w).2 in
  ev ∈ new_events w w' -> is_broadcast ev = true ->
  (exists w1, miss clock KeyByFile sessionFile w w1) ->
  exists sid key,
    ev = broadcast_event (resolved_runId sid (uuid (drawn w))) key /\
    sessionKeyByFile w' !! sessionFile
      = Some {| value := key; ts := clock (pred (ticks w')) |} /\
    value <$> sessionIdByFile w' !! sessionFile = Some sid /\
    value <$> sessionKeyById w' !! sid = Some key.
Proof.
  intros w' Hin Hb [w0 Hm0]. subst w'.
  pose proof (handleUpdate_Handled JSON_parse utf8_decode clock uuid has_log
                env sessionFile w) as Hh.
  destruct (handle env sessionFile w) as [r w'] eqn:Hrun. simpl in *.
  destruct Hh as [key w1 Hhit | w1 w2 Hmiss Hi
                  | w1 w2 Hmiss Hmiss2 Hthrow
                  | sid w1 w2 w3 Hmiss Hi Hk
                  | sid w1 w2 w3 Hmiss Hi Hk
                  | sid key w1 w2 w3 Hmiss Hi Hk].
  - by destruct (hit_miss_exclusive _ _ _ _ _ _ _ Hhit Hm0).
  - exfalso. destruct (miss_frame _ _ _ _ _ Hmiss) as [Ht1 _].
    destruct (IdentifierStep_trace _ _ _ _ _ _ _ _ Hi)
      as (_ & reads & Ht2 & _ & -> & _).
    rewrite (new_events_app _ _ [EvReadHeader sessionFile]) in Hin
      by (by rewrite Ht2, Ht1).
    apply list_elem_of_singleton in Hin. by subst ev.
  - exfalso. destruct (miss_frame _ _ _ _ _ Hmiss) as [Ht1 _].
    destruct (miss_frame _ _ _ _ _ Hmiss2) as [Ht2 _].
    rewrite (new_events_app _ _ [EvReadHeader sessionFile]) in Hin
      by (simpl; by rewrite Ht2, Ht1).
    apply list_elem_of_singleton in Hin. by subst ev.
  - exfalso.
    destruct (unresolved_footprint _ _ _ _ _ _ _ _ _ _ _ _ Hmiss Hi Hk I)
      as (evs & Ht & Hq & _).
    rewrite (new_events_app _ _ _ Ht) in Hin. rewrite Forall_forall in Hq.
    specialize (Hq _ Hin). congruence.
  - exfalso.
    destruct (unresolved_footprint _ _ _ _ _ _ _ _ _ _ _ _ Hmiss Hi Hk I)
      as (evs & Ht & Hq & _).
    rewrite (new_events_app _ _ _ Ht) in Hin. rewrite Forall_forall in Hq.
    specialize (Hq _ Hin). congruence.
  - destruct (resolved_run _ _ _ _ _ _ _ _ Hmiss Hi Hk)
      as ((lookups & Hl & Ht) & H1 & (e2 & He2 & Hv2) & (e3 & He3 & Hv3)).
    rewrite (new_events_app _ _ _ Ht) in Hin.
    apply elem_of_app in Hin as [Hin|Hin].
    { by destruct (lookup_not_broadcast _ _ Hl Hin Hb). }
    apply list_elem_of_singleton in Hin. exists sid, key.
    split; [done|]. split; [done|]. by rewrite He2, He3, <- Hv2, <- Hv3.
Qed.

(** X4: when the file-to-key cache has nothing usable for the file but the
    two lower caches hold entries that are usable at the clock readings of
    their lookups, the next two readings of the call, it broadcasts the
    cached key under the cached identifier without calling the header
    reader or the resolver (whatever the file system and the store are by
    then), and writes the key back into the file-to-key cache. *)
Theorem lower_caches_answer env sessionFile w w1 eid ekey :
  miss clock KeyByFile sessionFile w w1 ->
  sessionIdByFile w !! sessionFile = Some eid ->
  live_at clock (ticks w1) eid ->
  sessionKeyById w !! value eid = Some ekey ->
  live_at clock (S (ticks w1)) ekey ->
  let w' := (handle env sessionFile w).2 in
  (handle env sessionFile w).1 = sink_result env /\
  new_events w w'
    = [broadcast_event (resolved_runId (value eid) (uuid (drawn w)))
         (value ekey)] /\
  value <$> sessionKeyByFile w' !! sessionFile = Some (value ekey) /\
  sessionIdByFile w' = sessionIdByFile w /\
  sessionKeyById w' = sessionKeyById w.
Proof.
  intros Hmiss Hid [Hvid Hlid] Hkey [Hvkey Hlkey] w'. subst w'.
  destruct (miss_caches _ _ _ _ _ Hmiss) as (_ & _ & Hother & _).
  pose proof (Hother IdByFile ltac:(done)) as Ho1.
  pose proof (Hother KeyById ltac:(done)) as Ho2.
  simpl in Ho1, Ho2.
  pose proof (miss_ticks _ _ _ _ _ Hmiss) as Hticks.
  destruct (miss_frame _ _ _ _ _ Hmiss) as [Ht1 Hd1].
  set (w2 := with_ticks (S (ticks w1)) w1).
  set (w3 := with_ticks (S (ticks w2)) w2).
  assert (Hhit2 : hit clock IdByFile sessionFile w1 (value eid) w2).
  { split; [|done]. by apply getCached_live; [simpl; rewrite Ho1|]. }
  assert (Hhit3 : hit clock KeyById (value eid) w2 (value ekey) w3).
  { split; [|done]. by apply getCached_live; [simpl; rewrite Ho2|]. }
  rewrite (Handled_sound _ _ _ _ _ _ _ _ _ _
             (Handled_resolved JSON_parse utf8_decode clock uuid has_log env
                sessionFile w (value eid) (value ekey) w1 w2 w3 Hmiss
                (Id_cached _ _ _ _ _ _ _ _ Hhit2)
                (Key_cached _ _ _ _ _ _ _ Hhit3))).
  simpl. split; [done|]. split_and!.
  - apply new_events_app. simpl. by rewrite Ht1, Hd1.
  - by rewrite lookup_insert_eq.
  - done.
  - done.
Qed.

End BridgeCaches.

Lemma resolution_fills_all_caches_witness :
  let w' := (handleUpdate Demo.parse Demo.decode Demo.clock Demo.uuid true
               Demo.env Demo.a_log attached).2 in
  exists sid key,
    broadcast_event (resolved_runId (lit "sess-42") (Demo.uuid 0))
        (lit "key-alpha")
      = broadcast_event (resolved_runId sid (Demo.uuid (drawn attached))) key /\
    sessionKeyByFile w' !! Demo.a_log
      = Some {| value := key; ts := Demo.clock (pred (ticks w')) |} /\
    value <$> sessionIdByFile w' !! Demo.a_log = Some sid /\
    value <$> sessionKeyById w' !! sid = Some key.
Proof.
  apply (resolution_fills_all_caches Demo.parse Demo.decode Demo.clock
           Demo.uuid true Demo.env Demo.a_log attached).
  - vm_compute. do 2 right. left.
  - reflexivity.
  - exists attached, None. split; reflexivity.
Defined.

Lemma lower_caches_answer_witness :
  let w := deliver Demo.parse Demo.decode Demo.clock Demo.uuid true
             [(Samples.early_env, {| update_sessionFile := Some Demo.a_log |});
              (Samples.late_env, {| update_sessionFile := Some Samples.c_log |})]
             attached in
  let run := handleUpdate Demo.parse Demo.decode Demo.clock Demo.uuid true
               Samples.late_env Demo.a_log w in
  run.1 = sink_result Samples.late_env /\
  new_events w run.2
    = [broadcast_event (resolved_runId (lit "sess-42") (Demo.uuid (drawn w)))
         (lit "key-alpha")] /\
  value <$> sessionKeyByFile run.2 !! Demo.a_log = Some (lit "key-alpha") /\
  sessionIdByFile run.2 = sessionIdByFile w /\
  sessionKeyById run.2 = sessionKeyById w.
Proof.
  intros w.
  apply (lower_caches_answer Demo.parse Demo.decode Demo.clock Demo.uuid true
           Samples.late_env Demo.a_log w w
           {| value := lit "sess-42"; ts := 1000 |}
           {| value := lit "key-alpha"; ts := 1002 |}).
  - exists None. split; vm_compute; reflexivity.
  - vm_compute. reflexivity.
  - split; [discriminate | vm_compute; discriminate].
  - vm_compute. reflexivity.
  - split; [discriminate | vm_compute; discriminate].
Defined.

(** ** The broadcast payload, and where its parts come from *)

Section PayloadShape.

Variable JSON_parse : jsstring -> option JsValue.
Variable utf8_decode : list Byte.byte -> jsstring.
Variable clock : nat -> Z.
Variable uuid : nat -> jsstring.
Variable has_log : bool.
Variable env : Env.

Local Abbreviation handle := (handleUpdate JSON_parse utf8_decode clock uuid has_log env).
Local Abbreviation IdStep := (IdentifierStep JSON_parse utf8_decode clock env).
Local Abbreviation KStep := (KeyStep clock has_log env).
Local Abbreviation header := (header_of JSON_parse utf8_decode env).

(** The identifier handed on for a file was cached for the file or has
    just been read from its header. *)
Lemma IdentifierStep_origin sessionFile w sid w' :
  IdStep sessionFile w (Some sid) w' ->
  (exists e, sessionIdByFile w !! sessionFile = Some e /\ value e = sid) \/
  header sessionFile = Ret (Some sid).
Proof.
  inversion 1 as [sid' w1 Hhit | sid' w1 Hmiss Hread Hne |]; subst.
  - left. destruct (hit_inv _ _ _ _ _ _ Hhit) as (e & He & Hv & _).
    by exists e.
  - by right.
Qed.

(** The key handed on for an identifier was cached for it or has just been
    found in the store. *)
Lemma KeyStep_origin sid w key w' :
  KStep sid w (Ret (Some key)) w' ->
  (exists e, sessionKeyById w !! sid = Some e /\ value e = key) \/
  (exists entries, store env = Some entries /\
                   scan_store entries sid = Some key).
Proof.
  inversion 1 as [key' w1 Hhit | entries key' w1 Hmiss Hstore Hscan Hne
                  | | |]; subst.
  - left. destruct (hit_inv _ _ _ _ _ _ Hhit) as (e & He & Hv & _).
    by exists e.
  - right. by exists entries.
Qed.

(** C6: every broadcast that a call of [handleUpdate] adds to the trace is
    the event "chat" with options exactly [{ dropIfSlow: true }] and a
    payload of exactly the three fields [runId], [sessionKey] and [state],
    the latter being "final".  When the file-to-key cache answered, the
    key is the cached one and the [runId] is "transcript-" followed by the
    fresh UUID.  Otherwise the [runId] is "transcript-", the session
    identifier, "-" and the fresh UUID, where the session identifier is the
    one of this file: the one cached for the file or else read from its
    header, and the one the file-to-identifier cache holds afterwards; and
    the key is the one this identifier resolves to, in the
    identifier-to-key cache or else in the store. *)
Theorem broadcast_payload_shape sessionFile w ev :
  let w' := (handle sessionFile w).2 in
  ev ∈ new_events w w' ->
  is_broadcast ev = true ->
  exists runId sessionKey,
    ev = EvBroadcast (lit "chat")
           (JObject [(lit "runId", JString runId);
                     (lit "sessionKey", JString sessionKey);
                     (lit "state", JString (lit "final"))])
           (JObject [(lit "dropIfSlow", JBool true)]) /\
    (((exists w1, hit clock KeyByFile sessionFile w sessionKey w1) /\
      (exists e, sessionKeyByFile w !! sessionFile = Some e /\
                 value e = sessionKey) /\
      runId = lit "transcript-" ++ uuid (drawn w)) \/
     ((exists w1, miss clock KeyByFile sessionFile w w1) /\
      exists sessionId,
        sessionId <> [] /\
        runId = lit "transcript-" ++ sessionId ++ lit "-" ++ uuid (drawn w) /\
        ((exists e, sessionIdByFile w !! sessionFile = Some e /\
                    value e = sessionId) \/
         header sessionFile = Ret (Some sessionId)) /\
        value <$> sessionIdByFile w' !! sessionFile = Some sessionId /\
        ((exists e, sessionKeyById w !! sessionId = Some e /\
                    value e = sessionKey) \/
         (exists entries, store env = Some entries /\
                          scan_store entries sessionId = Some sessionKey)) /\
        value <$> sessionKeyById w' !! sessionId = Some sessionKey /\
        value <$> sessionKeyByFile w' !! sessionFile = Some sessionKey)).
Proof.
  intros w' Hin Hb. subst w'.
  pose proof (handleUpdate_Handled JSON_parse utf8_decode clock uuid has_log
                env sessionFile w) as Hh.
  destruct (handle sessionFile w) as [r w'] eqn:Hrun. cbn [fst snd] in *.
  assert (Hquiet : forall evs,
    trace w' = trace w ++ evs ->
    Forall (fun e => is_broadcast e = false) evs -> False).
  { intros evs Ht Hq. rewrite (new_events_app _ _ _ Ht) in Hin.
    rewrite Forall_forall in Hq. specialize (Hq _ Hin). congruence. }
  destruct Hh as [key w1 Hhit | w1 w2 Hmiss Hi
                  | w1 w2 Hmiss Hmiss2 Hthrow
                  | sid w1 w2 w3 Hmiss Hi Hk
                  | sid w1 w2 w3 Hmiss Hi Hk
                  | sid key w1 w2 w3 Hmiss Hi Hk].
  - destruct (hit_frame _ _ _ _ _ _ Hhit) as [Ht Hd].
    rewrite (new_events_app _ _
               [broadcast_event (fast_runId (uuid (drawn w))) key]) in Hin
      by (unfold emitted; simpl; by rewrite Ht, Hd).
    apply list_elem_of_singleton in Hin. subst ev.
    exists (fast_runId (uuid (drawn w))), key. split; [done|]. left.
    split; [by exists w1|]. split; [|done].
    destruct (hit_inv _ _ _ _ _ _ Hhit) as (e & He & Hv & _). by exists e.
  - exfalso. destruct (miss_frame _ _ _ _ _ Hmiss) as [Ht1 _].
    destruct (IdentifierStep_trace _ _ _ _ _ _ _ _ Hi)
      as (_ & reads & Ht2 & _ & -> & _).
    apply (Hquiet [EvReadHeader sessionFile]); [by rewrite Ht2, Ht1|].
    by repeat constructor.
  - exfalso. destruct (miss_frame _ _ _ _ _ Hmiss) as [Ht1 _].
    destruct (miss_frame _ _ _ _ _ Hmiss2) as [Ht2 _].
    apply (Hquiet [EvReadHeader sessionFile]); [simpl; by rewrite Ht2, Ht1|].
    by repeat constructor.
  - exfalso.
    destruct (unresolved_footprint _ _ _ _ _ _ _ _ _ _ _ _ Hmiss Hi Hk I)
      as (evs & Ht & Hq & _).
    by apply (Hquiet evs).
  - exfalso.
    destruct (unresolved_footprint _ _ _ _ _ _ _ _ _ _ _ _ Hmiss Hi Hk I)
      as (evs & Ht & Hq & _).
    by apply (Hquiet evs).
  - destruct (resolved_run JSON_parse utf8_decode clock uuid has_log env
                sessionFile w sid key w1 w2 w3 Hmiss Hi Hk)
      as ((lookups & Hl & Ht) & H1 & (e2 & He2 & Hv2) & (e3 & He3 & Hv3)).
    rewrite (new_events_app _ _ _ Ht) in Hin.
    apply elem_of_app in Hin as [Hin|Hin].
    { by destruct (lookup_not_broadcast _ _ Hl Hin Hb). }
    apply list_elem_of_singleton in Hin. subst ev.
    exists (resolved_runId sid (uuid (drawn w))), key. split; [done|]. right.
    split; [by exists w1|]. exists sid.
    destruct (miss_caches _ _ _ _ _ Hmiss) as (_ & _ & Hother & _).
    pose proof (Hother IdByFile ltac:(done)) as Ho1.
    pose proof (Hother KeyById ltac:(done)) as Ho2.
    simpl in Ho1, Ho2.
    destruct (IdentifierStep_caches _ _ _ _ _ _ _ _ Hi) as (_ & Hi2 & _).
    split_and!.
    + by eapply IdentifierStep_nonempty.
    + done.
    + rewrite <- Ho1. by apply (IdentifierStep_origin _ _ _ _ Hi).
    + by rewrite He2, <- Hv2.
    + rewrite <- Ho2, <- Hi2. by apply (KeyStep_origin _ _ _ _ Hk).
    + by rewrite He3, <- Hv3.
    + by rewrite H1.
Qed.

End PayloadShape.

Lemma broadcast_payload_shape_witness :
  let w' := (handleUpdate Demo.parse Demo.decode Demo.clock Demo.uuid true
               Demo.env Demo.a_log attached).2 in
  exists runId sessionKey,
    broadcast_event (lit "transcript-sess-42-" ++ Demo.uuid 0) (lit "key-alpha")
    = EvBroadcast (lit "chat")
        (JObject [(lit "runId", JString runId);
                  (lit "sessionKey", JString sessionKey);
                  (lit "state", JString (lit "final"))])
        (JObject [(lit "dropIfSlow", JBool true)]) /\
    (((exists w1, hit Demo.clock KeyByFile Demo.a_log attached sessionKey w1) /\
      (exists e, sessionKeyByFile attached !! Demo.a_log = Some e /\
                 value e = sessionKey) /\
      runId = lit "transcript-" ++ Demo.uuid (drawn attached)) \/
     ((exists w1, miss Demo.clock KeyByFile Demo.a_log attached w1) /\
      exists sessionId,
        sessionId <> [] /\
        runId = lit "transcript-" ++ sessionId ++ lit "-"
                  ++ Demo.uuid (drawn attached) /\
        ((exists e, sessionIdByFile attached !! Demo.a_log = Some e /\
                    value e = sessionId) \/
         header_of Demo.parse Demo.decode Demo.env Demo.a_log
         = Ret (Some sessionId)) /\
        value <$> sessionIdByFile w' !! Demo.a_log = Some sessionId /\
        ((exists e, sessionKeyById attached !! sessionId = Some e /\
                    value e = sessionKey) \/
         (exists entries, store Demo.env = Some entries /\
                          scan_store entries sessionId = Some sessionKey)) /\
        value <$> sessionKeyById w' !! sessionId = Some sessionKey /\
        value <$> sessionKeyByFile w' !! Demo.a_log = Some sessionKey)).
Proof.
  apply (broadcast_payload_shape Demo.parse Demo.decode Demo.clock Demo.uuid true
           Demo.env Demo.a_log attached).
  - vm_compute. do 2 right. left.
  - reflexivity.
Defined.

Lemma broadcasts_app a b : broadcasts (a ++ b) = broadcasts a ++ broadcasts b.
Proof. apply filter_app. Qed.

Section BridgeCounts.

Variable JSON_parse : jsstring -> option JsValue.
Variable utf8_decode : list Byte.byte -> jsstring.
Variable clock : nat -> Z.
Variable uuid : nat -> jsstring.
Variable has_log : bool.

Local Abbreviation handle := (handleUpdate JSON_parse utf8_decode clock uuid has_log).
Local Abbreviation on_update := (onUpdate JSON_parse utf8_decode clock uuid has_log).
Local Abbreviation handle_all' := (handle_all JSON_parse utf8_decode clock uuid has_log).
Local Abbreviation Handled' := (Handled JSON_parse utf8_decode clock uuid has_log).
Local Abbreviation IdStep := (IdentifierStep JSON_parse utf8_decode clock).
Local Abbreviation KStep := (KeyStep clock has_log).

Lemma fast_path_ticks sessionFile e envs : forall w,
  sessionKeyByFile w !! sessionFile = Some e -> value e <> [] ->
  (forall i, (i < length envs)%nat ->
             clock (ticks w + i)%nat - ts e <= CACHE_TTL_MS) ->
  ticks (handle_all' envs sessionFile w) = (ticks w + length envs)%nat.
Proof.
  induction envs as [|env envs IH]; intros w He Hv Hlive; simpl; [lia|].
  rewrite (fast_path_step _ _ _ _ _ env sessionFile e w He Hv).
  2:{ specialize (Hlive 0%nat). rewrite Nat.add_0_r in Hlive.
      apply Hlive. simpl. lia. }
  simpl. rewrite IH; [simpl; lia | done | done |].
  intros i Hi. simpl. specialize (Hlive (S i)).
  replace (ticks w + S i)%nat with (S (ticks w + i)) in Hlive by lia.
  apply Hlive. simpl. lia.
Qed.

(** X5: hits do not extend the life of an entry.  However many updates the
    file-to-key cache has answered for a file, the entry keeps the
    timestamp of its insertion, and the first lookup at a clock reading
    later than that timestamp plus the TTL misses and removes it. *)
Theorem hits_do_not_extend_ttl sessionFile e envs w :
  sessionKeyByFile w !! sessionFile = Some e -> value e <> [] ->
  (forall i, (i < length envs)%nat ->
             clock (ticks w + i)%nat - ts e <= CACHE_TTL_MS) ->
  clock (ticks w + length envs)%nat - ts e > CACHE_TTL_MS ->
  let w' := handle_all' envs sessionFile w in
  sessionKeyByFile w' !! sessionFile = Some e /\
  exists w1, miss clock KeyByFile sessionFile w' w1 /\
             sessionKeyByFile w1 !! sessionFile = None.
Proof.
  intros He Hv Hlive Hexp w'. subst w'.
  destruct (fast_path_repeated JSON_parse utf8_decode clock uuid has_log
              sessionFile e envs w He Hv Hlive) as (_ & Hk & _).
  pose proof (fast_path_ticks sessionFile e envs w He Hv Hlive) as Hticks.
  simpl in Hk. rewrite Hk. split; [done|].
  eexists. split.
  - exists None. split; [|done].
    apply (getCached_expired clock KeyByFile sessionFile e);
      [simpl; by rewrite Hk | by rewrite Hticks].
  - simpl. apply lookup_delete_eq.
Qed.

(** X6: one notification leads to at most one broadcast, and
    [randomUUID] is called exactly once per broadcast.  It leads to at most
    two warnings, and to at most one unless the logger throws on a
    not-found warning: that exception is caught at the boundary and
    reported by a second warning. *)
Theorem one_broadcast_per_notification env update w :
  let w' := (on_update env update w).2 in
  let evs := new_events w w' in
  (length (broadcasts evs) <= 1)%nat /\
  drawn w' = (drawn w + length (broadcasts evs))%nat /\
  (length (warnings evs) <= 2)%nat /\
  ((forall sid, warn_ok env (not_found_message sid) = true) ->
   (length (warnings evs) <= 1)%nat).
Proof.
  intros w' evs. subst evs w'.
  destruct (trim <$> update_sessionFile update) as [[|a f]|] eqn:Hpath;
    try (rewrite onUpdate_blank by (by rewrite Hpath); simpl;
         rewrite (new_events_app w w []) by (by rewrite app_nil_r);
         simpl; split_and!; intros; lia).
  destruct (onUpdate_warnings JSON_parse utf8_decode clock uuid has_log env
              update a f w Hpath) as (evs & Ht & _ & ->).
  destruct (handle_warnings JSON_parse utf8_decode clock uuid has_log env
              (a :: f) w) as (evs' & Ht' & Hw).
  rewrite Ht in Ht'. apply app_inv_head in Ht'. subst evs'.
  rewrite (onUpdate_nonblank _ _ _ _ _ _ _ _ _ _ Hpath).
  pose proof (handleUpdate_Handled JSON_parse utf8_decode clock uuid has_log
                env (a :: f) w) as Hh.
  destruct (handle env (a :: f) w) as [r w'] eqn:Hrun. cbn [fst snd] in *.
  destruct (Handled_trace _ _ _ _ _ _ _ _ _ _ Hh) as (lookups & Hl & Hcases).
  destruct (lookups_silent _ Hl) as (_ & _ & _ & Hb).
  assert (Hhandle : (length (broadcasts evs) <= 1)%nat /\
                    drawn w' = (drawn w + length (broadcasts evs))%nat).
  { destruct Hcases
      as [(key & w1 & _ & _ & Hd & _ & Ht0)
         | [(w1 & _ & _ & _ & Hd & Ht0)
           | [(w1 & sid & _ & _ & _ & Hd & Ht0)
             | [(w1 & sid & _ & _ & _ & Hd & Ht0)
               | (w1 & sid & key & _ & _ & _ & _ & Hd & _ & Ht0)]]]];
      rewrite Ht in Ht0; apply app_inv_head in Ht0; subst evs;
      rewrite ?broadcasts_app; fold (broadcasts lookups);
      unfold broadcasts in Hb |- *; rewrite ?Hb, Hd; simpl; try lia.
    destruct has_log; simpl; lia. }
  destruct Hhandle as [Hb1 Hd].
  assert (Hout : exists tail,
    Forall (fun ev => is_broadcast ev = false) tail /\
    trace (match r with
           | Ret x => (Ret x, w')
           | Throw => warn has_log env (failure_message (a :: f)) w'
           end).2 = trace w ++ evs ++ tail /\
    drawn (match r with
           | Ret x => (Ret x, w')
           | Throw => warn has_log env (failure_message (a :: f)) w'
           end).2 = drawn w').
  { destruct r as [[]|].
    - exists []. rewrite app_nil_r. by split_and!.
    - rewrite warn_eq. cbn [snd]. destruct has_log.
      + exists [EvWarn (failure_message (a :: f))].
        split; [by repeat constructor|]. simpl.
        by rewrite Ht, <- app_assoc.
      + exists []. rewrite app_nil_r. by split_and!. }
  destruct Hout as (tail & Htail & Ht2 & Hd2).
  rewrite (new_events_app _ _ _ Ht2), Hd2, broadcasts_app.
  assert (broadcasts tail = []) as ->.
  { unfold broadcasts. clear -Htail.
    induction Htail as [|ev tail Hev _ IH]; [done|].
    rewrite filter_cons_False by congruence. exact IH. }
  rewrite app_nil_r. split; [done|]. split; [done|].
  assert (Hlast : (length (match r with
                           | Ret _ => []
                           | Throw => if has_log
                                      then [failure_message (a :: f)]
                                      else []
                           end) <= 1)%nat).
  { destruct r as [[]|]; [simpl; lia|]. destruct has_log; simpl; lia. }
  rewrite length_app. split.
  - destruct Hw as [(sid & _ & _ & ->) | ->]; [destruct has_log|]; simpl; lia.
  - intros Hok. destruct Hw as [(sid & _ & Hr & ->) | ->]; [|simpl; lia].
    unfold warn_result in Hr. rewrite Hok, andb_false_r in Hr. subst r.
    destruct has_log; simpl; lia.
Qed.

(** X7: handling a notification for one file leaves the entries cached for
    every other file as they are, in the file-to-key and in the
    file-to-identifier cache alike; and in the identifier-to-key cache
    only the entry of the identifier recorded for the file can change. *)
Theorem other_entries_untouched env sessionFile w :
  let w' := (handle env sessionFile w).2 in
  (forall g, g <> sessionFile ->
             sessionKeyByFile w' !! g = sessionKeyByFile w !! g /\
             sessionIdByFile w' !! g = sessionIdByFile w !! g) /\
  (forall k, (forall e, sessionIdByFile w' !! sessionFile = Some e ->
                        value e <> k) ->
             sessionKeyById w' !! k = sessionKeyById w !! k).
Proof.
  intros w'. subst w'.
  pose proof (handleUpdate_Handled JSON_parse utf8_decode clock uuid has_log
                env sessionFile w) as Hh.
  destruct (handle env sessionFile w) as [r w'] eqn:Hrun. simpl in *.
  assert (Hfirst : forall w1,
    miss clock KeyByFile sessionFile w w1 ->
    (forall g, g <> sessionFile ->
               sessionKeyByFile w1 !! g = sessionKeyByFile w !! g) /\
    sessionIdByFile w1 = sessionIdByFile w /\
    sessionKeyById w1 = sessionKeyById w).
  { intros w1 (_ & Hk & Hother & _)%miss_caches.
    split; [exact Hk|]. split.
    - exact (Hother IdByFile ltac:(done)).
    - exact (Hother KeyById ltac:(done)). }
  assert (Hslow : forall sid w1 w2 r3 w3,
    miss clock KeyByFile sessionFile w w1 ->
    IdStep env sessionFile w1 (Some sid) w2 ->
    KStep env sid w2 r3 w3 ->
    (forall g, g <> sessionFile ->
               sessionKeyByFile w3 !! g = sessionKeyByFile w !! g /\
               sessionIdByFile w3 !! g = sessionIdByFile w !! g) /\
    (forall k, (forall e, sessionIdByFile w3 !! sessionFile = Some e ->
                          value e <> k) ->
               sessionKeyById w3 !! k = sessionKeyById w !! k)).
  { intros sid w1 w2 r3 w3 Hmiss Hi Hk.
    destruct (Hfirst _ Hmiss) as (Hf1 & Hf2 & Hf3).
    destruct (IdentifierStep_caches _ _ _ _ _ _ _ _ Hi)
      as (Hi1 & Hi2 & _ & e & He & Hv).
    destruct (KeyStep_caches _ _ _ _ _ _ _ Hk) as (Hk1 & Hk2 & _).
    rewrite Hk1, Hk2, Hi1. split.
    - intros g Hg. split; [by apply Hf1|].
      rewrite (IdentifierStep_other _ _ _ _ _ _ _ _ _ Hi Hg). by rewrite Hf2.
    - intros k Hne. rewrite (KeyStep_other _ _ _ _ _ _ _ _ Hk).
      + by rewrite Hi2, Hf3.
      + intros ->. by apply (Hne e). }
  destruct Hh as [key w1 Hhit | w1 w2 Hmiss Hi
                  | w1 w2 Hmiss Hmiss2 Hthrow
                  | sid w1 w2 w3 Hmiss Hi Hk
                  | sid w1 w2 w3 Hmiss Hi Hk
                  | sid key w1 w2 w3 Hmiss Hi Hk].
  - pose proof (hit_caches _ _ _ _ _ _ Hhit KeyByFile) as H1.
    pose proof (hit_caches _ _ _ _ _ _ Hhit IdByFile) as H2.
    pose proof (hit_caches _ _ _ _ _ _ Hhit KeyById) as H3.
    simpl in *. by rewrite H1, H2, H3.
  - destruct (Hfirst _ Hmiss) as (Hf1 & Hf2 & Hf3).
    destruct (IdentifierStep_caches _ _ _ _ _ _ _ _ Hi) as (Hi1 & Hi2 & _).
    rewrite Hi1, Hi2, Hf3. split; [|done].
    intros g Hg. split; [by apply Hf1|].
    rewrite (IdentifierStep_other _ _ _ _ _ _ _ _ _ Hi Hg). by rewrite Hf2.
  - destruct (Hfirst _ Hmiss) as (Hf1 & Hf2 & Hf3).
    destruct (miss_caches _ _ _ _ _ Hmiss2) as (_ & Hk2 & Hother2 & _).
    pose proof (Hother2 KeyByFile ltac:(done)) as Ho1.
    pose proof (Hother2 KeyById ltac:(done)) as Ho2.
    simpl in Hk2, Ho1, Ho2 |- *. rewrite Ho1, Ho2, Hf3. split; [|done].
    intros g Hg. split; [by apply Hf1|]. rewrite (Hk2 g Hg). by rewrite Hf2.
  - by apply (Hslow sid w1 w2 (Ret None) w3).
  - by apply (Hslow sid w1 w2 Throw w3).
  - destruct (Hslow sid w1 w2 (Ret (Some key)) w3 Hmiss Hi Hk) as [Hs1 Hs2].
    unfold emitted. rewrite setCached_eq. simpl. split.
    + intros g Hg. rewrite lookup_insert_ne by done. by apply Hs1.
    + done.
Qed.

End BridgeCounts.

Lemma hits_do_not_extend_ttl_witness :
  let w := deliver Demo.parse Demo.decode Samples.slow_clock Demo.uuid true
             [Demo.notify Demo.a_log] attached in
  let w' := handle_all Demo.parse Demo.decode Samples.slow_clock Demo.uuid true
              [Demo.env; Demo.env] Demo.a_log w in
  sessionKeyByFile w' !! Demo.a_log
    = Some {| value := lit "key-alpha"; ts := 600000 |} /\
  exists w1, miss Samples.slow_clock KeyByFile Demo.a_log w' w1 /\
             sessionKeyByFile w1 !! Demo.a_log = None.
Proof.
  intros w.
  apply (hits_do_not_extend_ttl Demo.parse Demo.decode Samples.slow_clock
           Demo.uuid true Demo.a_log
           {| value := lit "key-alpha"; ts := 600000 |}
           [Demo.env; Demo.env] w).
  - vm_compute. reflexivity.
  - discriminate.
  - intros i Hi. simpl in Hi.
    replace (ticks w) with 3%nat by (vm_compute; reflexivity).
    unfold Samples.slow_clock, CACHE_TTL_MS. simpl ts. lia.
  - vm_compute. reflexivity.
Defined.

(** ** Line endings in the header *)

Lemma cr_equiv_cons c l l' : cr_equiv l l' -> cr_equiv (c :: l) (c :: l').
Proof. intros [->| ->]; [by left | by right]. Qed.

Lemma Forall2_cr_equiv_refl ls : Forall2 cr_equiv ls ls.
Proof. induction ls; constructor; [by left | done]. Qed.

Lemma split_lines_crlf_bounded n : forall a b,
  (length a <= n)%nat ->
  Forall2 cr_equiv (split_lines (a ++ 0xD%N :: 0xA%N :: b))
    (split_lines (a ++ 0xA%N :: b)).
Proof.
  induction n as [|n IH]; intros a b Hlen.
  { destruct a; [|simpl in Hlen; lia]. simpl. apply Forall2_cr_equiv_refl. }
  destruct a as [|c a]; [simpl; apply Forall2_cr_equiv_refl|].
  simpl in Hlen. rewrite <- !app_comm_cons, !split_lines_cons.
  destruct (c =? 0xA)%N eqn:Hc.
  { constructor; [by left|]. apply IH. lia. }
  destruct a as [|c' a].
  - (* the carriage return directly follows [c] *)
    simpl app. rewrite !split_lines_cons. simpl.
    rewrite ?andb_false_r. simpl.
    destruct (c =? 0xD)%N eqn:Hcr; simpl.
    + apply N.eqb_eq in Hcr as ->. constructor; [by right|].
      apply Forall2_cr_equiv_refl.
    + apply Forall2_cr_equiv_refl.
  - rewrite <- !app_comm_cons.
    destruct ((c =? 0xD) && (c' =? 0xA))%N.
    { constructor; [by left|]. apply IH. simpl in Hlen. lia. }
    pose proof (IH (c' :: a) b ltac:(lia)) as Hrec.
    simpl app in Hrec.
    destruct (split_lines (c' :: a ++ 0xD%N :: 0xA%N :: b)) as [|l ls];
      destruct (split_lines (c' :: a ++ 0xA%N :: b)) as [|l' ls'];
      inversion Hrec; subst; constructor; try done.
    + by left.
    + by apply cr_equiv_cons.
Qed.

Lemma trim_cr l : trim (l ++ [0xD%N]) = trim l.
Proof.
  unfold trim. destruct (decide (trimStart l = [])) as [Hb|Hb].
  - rewrite trimStart_app_blank, Hb by done. reflexivity.
  - rewrite trimStart_app_nonblank by done. unfold trimEnd.
    rewrite rev_app_distr. reflexivity.
Qed.

Lemma cr_equiv_trim l l' : cr_equiv l l' -> trim l = trim l'.
Proof. intros [->| ->]; [done | apply trim_cr]. Qed.

Lemma scan_lines_cr_equiv JSON_parse ls ls' :
  Forall2 cr_equiv ls ls' ->
  scan_lines JSON_parse ls = scan_lines JSON_parse ls'.
Proof.
  induction 1 as [|l l' ls ls' Hl _ IH]; [done|].
  simpl. rewrite (cr_equiv_trim _ _ Hl), IH. reflexivity.
Qed.

Lemma scan_line_ending JSON_parse a b :
  scan_lines JSON_parse (split_lines (a ++ 0xD%N :: 0xA%N :: b))
  = scan_lines JSON_parse (split_lines (a ++ 0xA%N :: b)).
Proof.
  apply scan_lines_cr_equiv.
  apply (split_lines_crlf_bounded (length a)). lia.
Qed.

(** X8: the header reader does not care whether a line of the prefix ends
    in a line feed or in a carriage return followed by a line feed: two
    non-empty files whose decoded prefixes differ in one line ending only
    are answered alike. *)
Theorem line_ending_irrelevant JSON_parse utf8_decode fs fs' file file'
    bytes bytes' a b :
  fs file = Readable bytes -> fs' file' = Readable bytes' ->
  bytes <> [] -> bytes' <> [] ->
  utf8_decode (take HEADER_READ_BYTES bytes) = a ++ 0xD%N :: 0xA%N :: b ->
  utf8_decode (take HEADER_READ_BYTES bytes') = a ++ 0xA%N :: b ->
  readSessionIdFromTranscript JSON_parse utf8_decode fs file
  = readSessionIdFromTranscript JSON_parse utf8_decode fs' file'.
Proof.
  intros Hf Hf' Hne Hne' Hd Hd'. unfold readSessionIdFromTranscript.
  rewrite Hf, Hf'. unfold header_answer. cbv zeta.
  rewrite !take_header_nonempty, Hd, Hd' by done. f_equal.
  apply scan_line_ending.
Qed.

Lemma line_ending_irrelevant_witness :
  readSessionIdFromTranscript Demo.parse Demo.decode Samples.crlf_fs
    Demo.a_log
  = readSessionIdFromTranscript Demo.parse Demo.decode Demo.fs Demo.a_log.
Proof.
  apply (line_ending_irrelevant Demo.parse Demo.decode Samples.crlf_fs Demo.fs
           Demo.a_log Demo.a_log
           (Demo.encode (Demo.session_line (lit "sess-42") ++ [13%N; 10%N]))
           (Demo.encode (Demo.session_line (lit "sess-42") ++ [10%N]))
           (Demo.session_line (lit "sess-42")) []).
  - reflexivity.
  - vm_compute. reflexivity.
  - vm_compute. discriminate.
  - vm_compute. discriminate.
  - vm_compute. reflexivity.
  - vm_compute. reflexivity.
Defined.

(** ** The persona lookup *)

Lemma startsWith_spec s prefix :
  startsWith s prefix = true <-> exists b, s = prefix ++ b.
Proof.
  revert s. induction prefix as [|p prefix IH]; intros s.
  { split; [intros _; by exists s | intros _; by destruct s]. }
  destruct s as [|c s]; simpl.
  { split; [intros H; discriminate H | intros [b Hb]; discriminate Hb]. }
  rewrite andb_true_iff, N.eqb_eq, IH. split.
  - intros [-> [b ->]]. by exists b.
  - intros [b Hb]. injection Hb as -> ->. split; [done | by exists b].
Qed.

Lemma includes_spec s sub :
  includes s sub = true <-> exists a b, s = a ++ sub ++ b.
Proof.
  induction s as [|c s IH].
  - change (includes [] sub) with (startsWith [] sub || false).
    rewrite orb_false_r, startsWith_spec. split.
    + intros [b Hb]. by exists [], b.
    + intros [a [b Hab]]. destruct a; [by exists b|done].
  - change (includes (c :: s) sub)
      with (startsWith (c :: s) sub || includes s sub).
    rewrite orb_true_iff, startsWith_spec, IH. split.
    + intros [[b Hb]|[a [b Hab]]]; [by exists [], b|].
      exists (c :: a), b. by rewrite Hab.
    + intros [[|c' a] [b Hab]]; [left; by exists b|].
      right. injection Hab as -> ->. by exists a, b.
Qed.

Lemma persona_matches_spec normalizedLabel key :
  includes normalizedLabel key || includes key normalizedLabel = true
  <-> persona_matches normalizedLabel key.
Proof.
  unfold persona_matches. by rewrite orb_true_iff, !includes_spec.
Qed.

Lemma find_persona_Some entries normalizedLabel prompt :
  find_persona entries normalizedLabel = Some prompt <->
  exists before key after,
    entries = before ++ (key, prompt) :: after /\
    persona_matches normalizedLabel key /\
    Forall (fun e => ~ persona_matches normalizedLabel e.1) before.
Proof.
  induction entries as [|[k p] entries IH]; simpl.
  { split; [done|]. intros (before & key & after & H & _). by destruct before. }
  destruct (includes normalizedLabel k || includes k normalizedLabel) eqn:Hm.
  - apply persona_matches_spec in Hm. split.
    + intros [= ->]. by exists [], k, entries.
    + intros ([|[k' p'] before] & key & after & H & Hk & Hb).
      * by injection H as _ -> _.
      * injection H as -> -> _. by apply Forall_cons in Hb as [[] _].
  - assert (~ persona_matches normalizedLabel k) as Hn.
    { rewrite <- persona_matches_spec, Hm. done. }
    rewrite IH. split.
    + intros (before & key & after & -> & Hk & Hb).
      exists ((k, p) :: before), key, after. split_and!; try done.
      by constructor.
    + intros ([|[k' p'] before] & key & after & H & Hk & Hb).
      * injection H as -> _ _. done.
      * injection H as _ _ ->. apply Forall_cons in Hb as [_ Hb].
        by exists before, key, after.
Qed.

Lemma find_persona_None entries normalizedLabel :
  find_persona entries normalizedLabel = None <->
  Forall (fun e => ~ persona_matches normalizedLabel e.1) entries.
Proof.
  induction entries as [|[k p] entries IH]; simpl.
  { split; [constructor | done]. }
  destruct (includes normalizedLabel k || includes k normalizedLabel) eqn:Hm.
  - apply persona_matches_spec in Hm. split; [done|].
    intros [Hk _]%Forall_cons. done.
  - rewrite IH, Forall_cons. simpl.
    rewrite <- persona_matches_spec, Hm.
    split; [intros H; split; [discriminate | exact H] | intros [_ H]; exact H].
Qed.

Lemma prompts_nonempty key prompt : (key, prompt) ∈ PERSONAS -> prompt <> [].
Proof.
  unfold PERSONAS. rewrite !elem_of_cons, elem_of_nil.
  intros [H|[H|[H|[H|[H|[H|[]]]]]]]; injection H as _ ->; by vm_compute.
Qed.

Section PersonaLookupSpec.

Variable toLowerCase : jsstring -> jsstring.

(** X9: the persona lookup returns the prompt of the first entry of the
    table, in its order of declaration, whose key occurs in the normalized
    label or contains it, and nothing when no entry does. *)
Theorem persona_first_match label :
  match buildPersonaSystemPrompt toLowerCase label with
  | Some prompt =>
      exists before key after,
        PERSONAS = before ++ (key, prompt) :: after /\
        persona_matches (normalizeLabel toLowerCase label) key /\
        Forall (fun e => ~ persona_matches (normalizeLabel toLowerCase label) e.1)
          before
  | None =>
      forall key, key ∈ getAvailablePersonas ->
        ~ persona_matches (normalizeLabel toLowerCase label) key
  end.
Proof.
  unfold buildPersonaSystemPrompt.
  destruct (find_persona PERSONAS _) as [prompt|] eqn:H.
  - by apply find_persona_Some.
  - apply find_persona_None in H. intros key Hkey.
    unfold getAvailablePersonas in Hkey.
    apply list_elem_of_fmap in Hkey as [[k p] [-> Hin]].
    rewrite Forall_forall in H. by apply (H _ Hin).
Qed.

(** X10: every name listed by [getAvailablePersonas] selects its own
    prompt: a label that lower-cases to the name is answered with the
    prompt stored under that name, not with that of an earlier entry. *)
Theorem persona_found_by_name label key :
  key ∈ getAvailablePersonas ->
  toLowerCase label = key ->
  exists prompt,
    buildPersonaSystemPrompt toLowerCase label = Some prompt /\
    (key, prompt) ∈ PERSONAS.
Proof.
  intros Hkey Hlow. unfold buildPersonaSystemPrompt, normalizeLabel.
  rewrite Hlow. clear Hlow.
  unfold getAvailablePersonas, PERSONAS in Hkey. simpl in Hkey.
  rewrite !elem_of_cons, elem_of_nil in Hkey.
  destruct Hkey as [->|[->|[->|[->|[->|[->|[]]]]]]];
    [exists oracle_prompt | exists librarian_prompt
    | exists frontend_engineer_prompt | exists hephaestus_prompt
    | exists prometheus_prompt | exists explore_prompt];
    (split; [by vm_compute | unfold PERSONAS; repeat constructor]).
Qed.

(** X11: the hook adds a context exactly when the label is a non-empty
    string that the lookup answers: the prompt found is never discarded by
    the test that follows the lookup, and an absent or empty label is not
    looked up at all. *)
Theorem persona_hook_prepends label :
  persona_hook toLowerCase label =
    match label with
    | Some ((_ :: _) as l) =>
        match buildPersonaSystemPrompt toLowerCase l with
        | Some prompt => JObject [(lit "prependContext", JString prompt)]
        | None => JObject []
        end
    | _ => JObject []
    end.
Proof.
  destruct label as [[|c l]|]; try reflexivity. unfold persona_hook.
  unfold buildPersonaSystemPrompt.
  destruct (find_persona PERSONAS _) as [prompt|] eqn:H; [|reflexivity].
  apply find_persona_Some in H as (before & key & after & HP & _).
  assert ((key, prompt) ∈ PERSONAS) as Hin.
  { rewrite HP. apply elem_of_app. right. left. }
  apply prompts_nonempty in Hin. by destruct prompt.
Qed.

(** X12: a label whose normalized form is a fragment of the first key,
    the empty string included, is answered with the Oracle prompt, also
    when the fragment occurs in later keys as well. *)
Theorem fragment_selects_oracle label :
  (exists a b, lit "oracle" = a ++ normalizeLabel toLowerCase label ++ b) ->
  buildPersonaSystemPrompt toLowerCase label = Some oracle_prompt.
Proof.
  intros H. apply includes_spec in H.
  unfold buildPersonaSystemPrompt, PERSONAS.
  cbn [find_persona]. by rewrite H, orb_true_r.
Qed.

End PersonaLookupSpec.

Lemma persona_found_by_name_witness :
  exists prompt,
    buildPersonaSystemPrompt Samples.ascii_lower (lit "Librarian")
      = Some prompt /\
    (lit "librarian", prompt) ∈ PERSONAS.
Proof.
  apply (persona_found_by_name Samples.ascii_lower (lit "Librarian")
           (lit "librarian")).
  - vm_compute. right. left.
  - vm_compute. reflexivity.
Defined.

Lemma fragment_selects_oracle_witness :
  buildPersonaSystemPrompt Samples.ascii_lower (lit "E") = Some oracle_prompt.
Proof.
  apply (fragment_selects_oracle Samples.ascii_lower (lit "E")).
  exists (lit "oracl"), []. vm_compute. reflexivity.
Defined.

(** ** The parameter reader *)

(** X13: with [required] set the reader either throws the message
    [<key> required] or returns a non-empty string taken from the
    parameter; it never returns [undefined].  The string is the trimmed
    parameter, or the parameter as it is when trimming is switched off. *)
Theorem required_param_contract params key opts :
  opts ≫= opt_required = Some true ->
  match readStringParam params key opts with
  | Returns (Some v) =>
      v <> [] /\
      exists raw, assoc key params = Some (JString raw) /\
        v = if default true (opts ≫= opt_trim) then trim raw else raw
  | Returns None => False
  | Throws message => message = key ++ lit " required"
  end.
Proof.
  intros Hreq. unfold readStringParam. rewrite Hreq. simpl.
  destruct (assoc key params) as [[| | |raw| |]|]; try reflexivity.
  rewrite andb_true_r.
  destruct (is_blank _) eqn:Hb; [reflexivity|].
  split; [|by exists raw]. intros Hv. by rewrite Hv in Hb.
Qed.

Lemma required_param_contract_witness :
  match readStringParam [(lit "query", JString (lit "  rocq  "))] (lit "query")
          (Some {| opt_required := Some true; opt_trim := None |}) with
  | Returns (Some v) =>
      v <> [] /\
      exists raw,
        assoc (lit "query") [(lit "query", JString (lit "  rocq  "))]
          = Some (JString raw) /\
        v = trim raw
  | Returns None => False
  | Throws message => message = lit "query" ++ lit " required"
  end.
Proof.
  apply (required_param_contract [(lit "query", JString (lit "  rocq  "))]
           (lit "query")
           (Some {| opt_required := Some true; opt_trim := None |})).
  reflexivity.
Defined.

Lemma trim_blank s : blank s -> trim s = [].
Proof. by intros ?%blank_trim. Qed.

(** X14: without [required] the reader never throws.  It returns
    [undefined] exactly when the parameter is absent or not a string; a
    string parameter is returned trimmed, or as it is when [trim] is
    false.  So a string of white space only is returned as the empty
    string unless [trim] is false, and unchanged when it is. *)
Theorem optional_param_never_throws params key opts :
  opts ≫= opt_required <> Some true ->
  exists r, readStringParam params key opts = Returns r /\
    (r = None <-> forall raw, assoc key params <> Some (JString raw)) /\
    (forall raw,
        assoc key params = Some (JString raw) ->
        r = Some (if default true (opts ≫= opt_trim) then trim raw else raw) /\
        (blank raw ->
         r = Some (if default true (opts ≫= opt_trim) then [] else raw))).
Proof.
  intros Hreq. unfold readStringParam.
  assert (default false (opts ≫= opt_required) = false) as ->.
  { destruct (opts ≫= opt_required) as [[]|]; done. }
  destruct (assoc key params) as [[| | |raw| |]|];
    rewrite ?andb_false_r; eexists; (split; [reflexivity|]);
    (split; [split; try done|]); try (by intros raw' [=]).
  - intros H. by destruct (H raw).
  - intros raw' [= <-]. split; [done|]. intros Hblank.
    destruct (default true (opts ≫= opt_trim)); [|done].
    by rewrite trim_blank.
Qed.

Lemma optional_param_never_throws_witness :
  exists r,
    readStringParam [(lit "query", JString (lit "   "))] (lit "query") None
      = Returns r /\
    (r = None <->
     forall raw,
       assoc (lit "query") [(lit "query", JString (lit "   "))]
         <> Some (JString raw)) /\
    (forall raw,
        assoc (lit "query") [(lit "query", JString (lit "   "))]
        = Some (JString raw) ->
        r = Some (trim raw) /\ (blank raw -> r = Some [])).
Proof.
  apply (optional_param_never_throws [(lit "query", JString (lit "   "))]
           (lit "query") None).
  discriminate.
Defined.

(** X15: unless trimming is switched off, a string returned by the reader
    has no white space at either end: trimming it again changes nothing.
    With trimming switched off the parameter is returned unchanged. *)
Theorem param_trimmed_unless_disabled params key opts v :
  readStringParam params key opts = Returns (Some v) ->
  if default true (opts ≫= opt_trim)
  then trim v = v
  else assoc key params = Some (JString v).
Proof.
  unfold readStringParam.
  destruct (assoc key params) as [[| | |raw| |]|];
    try (destruct (default false _); discriminate).
  destruct (default true (opts ≫= opt_trim));
    destruct (is_blank _ && _); try discriminate;
    intros [= <-]; [apply trim_idem | reflexivity].
Qed.

Lemma param_trimmed_unless_disabled_witness :
  trim (lit "rocq") = lit "rocq".
Proof.
  apply (param_trimmed_unless_disabled
           [(lit "query", JString (lit "  rocq  "))] (lit "query") None
           (lit "rocq")).
  vm_compute. reflexivity.
Defined.

(** ** The line counts of the comment-density check *)

Lemma startsWith_nil s : startsWith s [] = true.
Proof. by destruct s. Qed.

Lemma line_kinds line :
  is_code_line line && is_comment_line line = false /\
  is_code_line line || is_comment_line line = nonblank_line line.
Proof.
  unfold is_code_line, is_comment_line, nonblank_line.
  change (lit "//") with [0x2F; 0x2F]%N.
  change (lit "/*") with [0x2F; 0x2A]%N.
  change (lit "*/") with [0x2A; 0x2F]%N.
  change (lit "*") with [0x2A]%N.
  destruct (trim line) as [|c [|c' s]]; [done| |].
  - cbn. by destruct (c =? 0x2F)%N, (c =? 0x2A)%N.
  - cbn. rewrite !startsWith_nil.
    by destruct (c =? 0x2F)%N, (c =? 0x2A)%N, (c' =? 0x2F)%N, (c' =? 0x2A)%N.
Qed.

Lemma filter_partition_length {A} (f g h : A -> bool) (l : list A) :
  (forall x, f x && g x = false) ->
  (forall x, f x || g x = h x) ->
  (length (List.filter f l) + length (List.filter g l))%nat
  = length (List.filter h l).
Proof.
  intros Hd Hu. induction l as [|x l IH]; [done|].
  cbn [List.filter]. specialize (Hd x). specialize (Hu x).
  destruct (f x), (g x), (h x); simpl in *; try discriminate; lia.
Qed.

(** X16: the two line filters of the density check never both take a
    line, and together they take exactly the lines that are not blank; so
    the total the density is divided by is the number of non-blank lines
    of the content. *)
Theorem density_total_counts_nonblank content :
  (forall line, is_code_line line && is_comment_line line = false) /\
  total_lines content
  = length (List.filter nonblank_line (split_newline content)).
Proof.
  split; [intros line; apply line_kinds|].
  unfold total_lines, codeLines, commentLines.
  apply filter_partition_length; intros line; apply line_kinds.
Qed.
